(** * atlasgen: a shallow embedding of [src/main.cpp]

    The tool turns a font into a packed single-channel glyph atlas
    ([atlas.png]) and a delta-encoded JSON sidecar ([map.json]).  The whole
    program is one [main] function; this development follows its stages in
    source order: argument parsing, range resolution, glyph collection,
    adaptive packing, compositing and encoding.

    External collaborators (FreeType, libpng, stb_rect_pack, the file
    system) are not part of the repository.  They appear here as records of
    oracle functions so that every theorem holds for whatever they answer. *)

From Stdlib Require Import ZArith Lia Bool Ascii String DecimalString.
From stdpp Require Import base option list sorting gmap.

Local Open Scope string_scope.
Local Open Scope list_scope.
Local Open Scope Z_scope.

(** ** Machine integers *)

Module Cxx.

(** [uint32_t], [uint64_t]/[size_t]: arithmetic modulo a power of two. *)
Definition u32 (v : Z) : Z := v mod 2 ^ 32.
Definition u64 (v : Z) : Z := v mod 2 ^ 64.

(** Conversion to [int] (two's complement, as on the targets the tool is
    built for). *)
Definition i32 (v : Z) : Z := (v + 2 ^ 31) mod 2 ^ 32 - 2 ^ 31.

Definition UINT32_MAX : Z := 2 ^ 32 - 1.

(** The values an [int] can hold. *)
Definition fits_int (v : Z) : bool := (- 2 ^ 31 <=? v) && (v <? 2 ^ 31).

(** What [printf] writes for [%d]. *)
Definition dec (v : Z) : string := NilZero.string_of_int (Z.to_int v).

(** [(size_t)-1], the "no rectangle" sentinel of [GlyphData::rectIndex]. *)
Definition NO_RECT : Z := 2 ^ 64 - 1.

(** A [char] read as a number.  [char] is signed on the supported targets,
    so bytes from 128 up are negative. *)
Definition char_val (c : ascii) : Z :=
  let n := Z.of_N (N_of_ascii c) in
  if n <? 128 then n else n - 256.

End Cxx.

(** ** Process outcomes

    [main] either runs to its end, leaves early with an exit status and a
    message printed on standard output, never returns, or does something
    the language leaves undefined (an [int] that overflows where the result
    sizes or indexes memory, a store outside a buffer), after which nothing
    is known of the run. *)

Inductive outcome (A : Type) : Type :=
| Done (a : A)
| Exit (status : Z) (msg : string)
| Hang
| Undefined.
Arguments Done {A} a.
Arguments Exit {A} status msg.
Arguments Hang {A}.
Arguments Undefined {A}.

Definition bind {A B} (m : outcome A) (k : A -> outcome B) : outcome B :=
  match m with
  | Done a => k a
  | Exit s msg => Exit s msg
  | Hang => Hang
  | Undefined => Undefined
  end.

Notation "'let*' p ':=' m 'in' k" := (bind m (fun p => k))
  (at level 10, p pattern, m at level 100, k at level 200).

(** ** Command line *)

Module Args.

(** [class ArgIter]: [m_index] starts at 1, past the program name. *)
Record ArgIter := { m_argc : Z; m_argv : list string; m_index : Z }.

Definition mkArgIter (argv : list string) : ArgIter :=
  {| m_argc := Z.of_nat (length argv); m_argv := argv; m_index := 1 |}.

Definition arg_at (it : ArgIter) (i : Z) : string :=
  default "" (m_argv it !! Z.to_nat i).

Definition advance_iter (it : ArgIter) : ArgIter :=
  {| m_argc := m_argc it; m_argv := m_argv it; m_index := m_index it + 1 |}.

Definition Match (it : ArgIter) (str : string) : bool * ArgIter :=
  if (m_index it <? m_argc it) && String.eqb (arg_at it (m_index it)) str
  then (true, advance_iter it)
  else (false, it).

Definition Next (it : ArgIter) : option string * ArgIter :=
  if m_index it >=? m_argc it then (None, it)
  else (Some (arg_at it (m_index it)), advance_iter it).

(** [ParseInt<T>].  The guard is the source's [ch < '0' && ch > '9'];
    [wrapT] is the arithmetic of [T]: modulo [2^32] for [uint32_t], and for
    [int], where overflow is undefined in C++, the two's complement wrap of
    the targets. *)
Fixpoint ParseInt_loop (wrapT : Z -> Z) (str : string) (i : Z) : option Z :=
  match str with
  | EmptyString => Some i
  | String ch rest =>
      if (Cxx.char_val ch <? 48) && (Cxx.char_val ch >? 57) then None
      else ParseInt_loop wrapT rest (wrapT (wrapT (i * 10) + (Cxx.char_val ch - 48)))
  end.

Definition ParseInt (wrapT : Z -> Z) (str_ : option string) : option Z :=
  match str_ with
  | None => None
  | Some str => ParseInt_loop wrapT str 0
  end.

(** [ParseFloat<T>] accepts digits, optionally followed by a dot and more
    digits.  The three [uint64_t] accumulators are returned as they are;
    the value the source computes from them is
    [(T)num + (T)denom / (T)div]. *)
Record parsed_float := { pf_num : Z; pf_denom : Z; pf_div : Z }.

Definition is_digit (ch : ascii) : bool :=
  negb ((Cxx.char_val ch <? 48) || (Cxx.char_val ch >? 57)).

Fixpoint ParseFloat_frac (str : string) (denom div : Z) : option (Z * Z) :=
  match str with
  | EmptyString => Some (denom, div)
  | String ch rest =>
      if is_digit ch
      then ParseFloat_frac rest (Cxx.u64 (Cxx.u64 (denom * 10) + (Cxx.char_val ch - 48)))
                           (Cxx.u64 (div * 10))
      else None
  end.

Fixpoint ParseFloat_int (str : string) (num : Z) : option parsed_float :=
  match str with
  | EmptyString => Some {| pf_num := num; pf_denom := 0; pf_div := 1 |}
  | String ch rest =>
      if is_digit ch
      then ParseFloat_int rest (Cxx.u64 (Cxx.u64 (num * 10) + (Cxx.char_val ch - 48)))
      else if Ascii.eqb ch "."%char
      then match ParseFloat_frac rest 0 1 with
           | Some (denom, div) =>
               Some {| pf_num := num; pf_denom := denom; pf_div := div |}
           | None => None
           end
      else None
  end.

Definition ParseFloat (str_ : option string) : option parsed_float :=
  match str_ with
  | None => None
  | Some str => ParseFloat_int str 0
  end.

(** The locals of [main] that the flag loop fills in. *)
Record Config := {
  fontPath : option string;
  outDir : option string;
  desiredSize : Z;
  cpRanges : list (Z * Z);
  axes : list (string * Z);
  mono : bool
}.

Definition initial_config : Config :=
  {| fontPath := None; outDir := None; desiredSize := 16; cpRanges := [];
     axes := []; mono := false |}.

(** [std::unordered_map::emplace] keeps an existing entry. *)
Definition emplace (name : string) (v : Z)
    (m : list (string * Z)) : list (string * Z) :=
  if existsb (fun kv => String.eqb (fst kv) name) m then m else m ++ [(name, v)].

(** One turn of [while (auto flag = args.Next())]; [None] when the
    arguments are used up.  [to_fixed] stands for the [double] computation
    [(FT_Fixed)(value * (1<<16))]. *)
Definition flag_step (to_fixed : parsed_float -> Z) (it : ArgIter) (cfg : Config)
    : option (outcome (ArgIter * Config)) :=
  let '(flag, it) := Next it in
  match flag with
  | None => None
  | Some flag =>
    Some (
      if String.eqb flag "--font" then
        let '(p, it) := Next it in
        match p with
        | None => Exit (-1) "expected --font <path>"
        | Some _ =>
            Done (it, {| fontPath := p; outDir := outDir cfg;
                         desiredSize := desiredSize cfg; cpRanges := cpRanges cfg;
                         axes := axes cfg; mono := mono cfg |})
        end
      else if String.eqb flag "--out" then
        let '(p, it) := Next it in
        match p with
        | None => Exit (-1) "expected --out <path>"
        | Some _ =>
            Done (it, {| fontPath := fontPath cfg; outDir := p;
                         desiredSize := desiredSize cfg; cpRanges := cpRanges cfg;
                         axes := axes cfg; mono := mono cfg |})
        end
      else if String.eqb flag "--size" then
        let '(a, it) := Next it in
        match ParseInt Cxx.i32 a with
        | None => Exit (-1) "expected --size <int>"
        | Some size =>
            Done (it, {| fontPath := fontPath cfg; outDir := outDir cfg;
                         desiredSize := size; cpRanges := cpRanges cfg;
                         axes := axes cfg; mono := mono cfg |})
        end
      else if String.eqb flag "--range" then
        let '(a, it) := Next it in
        let first := ParseInt Cxx.u32 a in
        let '(b, it) := Next it in
        let last := ParseInt Cxx.u32 b in
        match first, last with
        | Some first, Some last =>
            if first >=? last
            then Exit (-1) "Invalid range. Right value must be larger than left value."
            else Done (it, {| fontPath := fontPath cfg; outDir := outDir cfg;
                              desiredSize := desiredSize cfg;
                              cpRanges := cpRanges cfg ++ [(first, last)];
                              axes := axes cfg; mono := mono cfg |})
        | _, _ => Exit (-1) "expected --range <int> <int>"
        end
      else if String.eqb flag "--axis" then
        let '(name, it) := Next it in
        let '(v, it) := Next it in
        match name, ParseFloat v with
        | Some name, Some value =>
            Done (it, {| fontPath := fontPath cfg; outDir := outDir cfg;
                         desiredSize := desiredSize cfg; cpRanges := cpRanges cfg;
                         axes := emplace name (to_fixed value) (axes cfg); mono := mono cfg |})
        | _, _ => Exit (-1) "Expected --axis <name> <float>"
        end
      else if String.eqb flag "--mono" then
        Done (it, {| fontPath := fontPath cfg; outDir := outDir cfg;
                     desiredSize := desiredSize cfg; cpRanges := cpRanges cfg;
                     axes := axes cfg; mono := true |})
      else Exit (-1) (String.append "Unknown flag: " flag))
  end.

(** The flag loop.  Every turn moves [m_index] forward, so [fuel] equal to
    the number of arguments is enough. *)
Fixpoint flag_loop (to_fixed : parsed_float -> Z) (fuel : nat)
    (it : ArgIter) (cfg : Config) : outcome Config :=
  match flag_step to_fixed it cfg with
  | None => Done cfg
  | Some r =>
      match fuel with
      | O => Hang
      | S fuel => let* (it, cfg) := r in flag_loop to_fixed fuel it cfg
      end
  end.

(** Lines 124-184: the loop, then the check that both paths are set. *)
Definition parse_args (to_fixed : parsed_float -> Z) (argv : list string)
    : outcome Config :=
  let* cfg := flag_loop to_fixed (length argv) (mkArgIter argv) initial_config in
  match fontPath cfg, outDir cfg with
  | Some _, Some _ => Done cfg
  | _, _ => Exit (-1) "--font and --out must be set"
  end.

End Args.

(** ** FreeType, as far as [main] uses it *)

Module FT.

(** [FT_Error]; [0] is [FT_Err_Ok]. *)
Definition FT_Error := Z.

(** [FT_Pixel_Mode]. *)
Definition FT_PIXEL_MODE_NONE : Z := 0.
Definition FT_PIXEL_MODE_MONO : Z := 1.
Definition FT_PIXEL_MODE_GRAY : Z := 2.
Definition FT_PIXEL_MODE_GRAY2 : Z := 3.
Definition FT_PIXEL_MODE_GRAY4 : Z := 4.
Definition FT_PIXEL_MODE_LCD : Z := 5.
Definition FT_PIXEL_MODE_LCD_V : Z := 6.
Definition FT_PIXEL_MODE_BGRA : Z := 7.

Inductive FT_Render_Mode := FT_RENDER_MODE_LIGHT | FT_RENDER_MODE_MONO.

Record FT_Bitmap := {
  rows : Z; width : Z; pitch : Z; buffer : list Z; pixel_mode : Z
}.

(** [face->glyph] after a load; [format_is_bitmap] is
    [format == FT_GLYPH_FORMAT_BITMAP]. *)
Record FT_GlyphSlot := {
  format_is_bitmap : bool;
  bitmap : FT_Bitmap;
  bitmap_left : Z;
  bitmap_top : Z;
  advance_x : Z
}.

Record FT_Var_Axis := { name : string; minimum : Z; def : Z; maximum : Z }.

Record FT_Size_Metrics := { ascender : Z; descender : Z; height : Z }.

(** An opened, sized face.  Calls that fill an out-parameter return it
    next to their result. *)
Record FT_Face := {
  FT_Get_First_Char : Z * Z;
  FT_Get_Next_Char : Z -> Z * Z;
  FT_Get_Char_Index : Z -> Z;
  FT_Load_Glyph : Z -> FT_Error * FT_GlyphSlot;
  FT_Render_Glyph : FT_GlyphSlot -> FT_Render_Mode -> FT_Error * FT_GlyphSlot;
  size_metrics : FT_Size_Metrics
}.

(** Modelled from the spec: the rasterizer capability
    [enumerateCharmap(face) -> ordered codepoint->glyphIndex pairs] and
    [glyphIndexForCodepoint(face, cp) -> glyphIndex (0 = unmapped)], for a
    face given by its charmap table.  [FT_Get_Next_Char] answers the next
    mapped character code above its argument, or [0] with glyph index [0]
    at the end; [FT_Get_First_Char] answers code [0] when it is mapped and
    the next mapped code otherwise. *)
Definition charmap_index (cm : list (Z * Z)) (cp : Z) : Z :=
  match List.find (fun e => fst e =? cp) cm with
  | Some e => snd e
  | None => 0
  end.

Definition charmap_next (cm : list (Z * Z)) (cp : Z) : Z * Z :=
  match List.find (fun e => (fst e >? cp) && negb (snd e =? 0)) cm with
  | Some e => e
  | None => (0, 0)
  end.

Definition charmap_first (cm : list (Z * Z)) : Z * Z :=
  if charmap_index cm 0 =? 0 then charmap_next cm 0 else (0, charmap_index cm 0).

Definition face_of_charmap (cm : list (Z * Z))
    (load : Z -> FT_Error * FT_GlyphSlot)
    (render : FT_GlyphSlot -> FT_Render_Mode -> FT_Error * FT_GlyphSlot)
    (m : FT_Size_Metrics) : FT_Face :=
  {| FT_Get_First_Char := charmap_first cm;
     FT_Get_Next_Char := charmap_next cm;
     FT_Get_Char_Index := charmap_index cm;
     FT_Load_Glyph := load;
     FT_Render_Glyph := render;
     size_metrics := m |}.

End FT.

(** [CheckFtErr]: [exit(-1)] on any error.  The message goes on with
    FreeType's own text for the error, in parentheses, which is left out. *)
Definition CheckFtErr (err : FT.FT_Error) : outcome unit :=
  if err =? 0 then Done tt else Exit (-1) (String.append "FT_Error " (Cxx.dec err)).

(** ** stb_rect_pack, as far as [main] uses it *)

Module Stb.

(** [stbrp_rect]; [stbrp_coord] is [int]. *)
Record stbrp_rect := { id : Z; w : Z; h : Z; x : Z; y : Z; was_packed : Z }.

(** [stbrp_init_target] on fresh nodes followed by [stbrp_pack_rects]:
    canvas width and height, number of nodes, and the rectangles, which
    are positioned in place.  The result is [1] when all were packed. *)
Definition packer := Z -> Z -> Z -> list stbrp_rect -> Z * list stbrp_rect.

Definition dims (r : stbrp_rect) : Z * Z := (w r, h r).

(** Where a packed rectangle may lie: inside the canvas, with far edges
    that are still [int]s. *)
Definition inside (cw ch : Z) (r : stbrp_rect) : Prop :=
  0 <= x r /\ 0 <= y r /\ x r + w r <= cw /\ y r + h r <= ch /\
  x r + w r < 2 ^ 31 /\ y r + h r < 2 ^ 31.

(** What [main] relies on: positions are written in place, sizes and
    order are left alone, and on success every rectangle lies inside the
    canvas. *)
Record packer_ok (pack : packer) : Prop := {
  pack_dims : forall cw ch n rs, map dims (snd (pack cw ch n rs)) = map dims rs;
  pack_inside : forall cw ch n rs,
    fst (pack cw ch n rs) <> 0 -> Forall (inside cw ch) (snd (pack cw ch n rs))
}.

(** A reference packer used to exhibit runs: everything on one row, left
    to right. *)
Fixpoint place_row (cx : Z) (rs : list stbrp_rect) : list stbrp_rect :=
  match rs with
  | [] => []
  | r :: rs =>
      {| id := id r; w := w r; h := h r; x := cx; y := 0; was_packed := 1 |}
      :: place_row (cx + w r) rs
  end.

Definition row_fits (cw ch : Z) (rs : list stbrp_rect) : bool :=
  forallb (fun r => (0 <=? x r) && (x r + w r <=? cw) && (h r <=? ch)
                    && (x r + w r <? 2 ^ 31) && (h r <? 2 ^ 31)) rs.

Definition row_packer : packer := fun cw ch _ rs =>
  let placed := place_row 0 rs in
  if row_fits cw ch placed then (1, placed)
  else (0, map (fun r => {| id := id r; w := w r; h := h r; x := x r; y := y r;
                            was_packed := 0 |}) rs).

End Stb.

(** ** Everything outside the program *)

Record Env := {
  (** [(FT_Fixed)(value * (1<<16))] in [double] arithmetic. *)
  double_to_fixed : Args.parsed_float -> Z;
  FT_Init_FreeType : FT.FT_Error;
  FT_New_Face : string -> FT.FT_Error * FT.FT_Face;
  FT_Set_Pixel_Sizes : FT.FT_Face -> Z -> FT.FT_Error * FT.FT_Face;
  FT_Get_MM_Var : FT.FT_Face -> FT.FT_Error * list FT.FT_Var_Axis;
  FT_Set_Var_Design_Coordinates : FT.FT_Face -> list Z -> FT.FT_Error * FT.FT_Face;
  stbrp_pack_rects : Stb.packer;
  (** [false] when [std::filesystem::create_directory] throws. *)
  create_directory : string -> bool;
  (** The return code of [png_image_write_to_file]; [1] means written. *)
  png_image_write_to_file : string -> Z -> Z -> list Z -> Z -> Z;
  (** Whether a write that failed has left something at the path (libpng
      removes what it has written). *)
  png_failed_write_leaves_file : string -> bool;
  (** [f.is_open()] after constructing the [std::fstream]. *)
  fstream_open : string -> bool
}.

(** ** Glyph table *)

(** [struct GlyphData]. *)
Record GlyphData := {
  rectIndex : Z;
  glyphIndex : Z;
  width : Z;
  height : Z;
  leftBearing : Z;
  topBearing : Z;
  advance : Z
}.

(** [GlyphData{}] and [memset(&prevGlyph, 0, ...)]. *)
Definition zero_glyph : GlyphData :=
  {| rectIndex := 0; glyphIndex := 0; width := 0; height := 0;
     leftBearing := 0; topBearing := 0; advance := 0 |}.

(** [std::map<FT_UInt, GlyphData>]: entries kept in increasing key order,
    which is the order every [for (auto& pair : glyphs)] visits them in. *)
Abbreviation glyph_map := (list (Z * GlyphData)).

Fixpoint try_emplace (k : Z) (v : GlyphData) (m : glyph_map) : glyph_map * bool :=
  match m with
  | [] => ([(k, v)], true)
  | (k', v') :: rest =>
      if k <? k' then ((k, v) :: m, true)
      else if k =? k' then (m, false)
      else let (rest', inserted) := try_emplace k v rest in
           ((k', v') :: rest', inserted)
  end.

(** Writing through the reference [insertion.first->second]. *)
Definition assign (k : Z) (v : GlyphData) (m : glyph_map) : glyph_map :=
  map (fun e => if fst e =? k then (k, v) else e) m.

(** ** Range resolution (lines 235-253) *)

Module Resolver.

(** The [while] over [FT_Get_Next_Char].  [fuel] bounds the number of
    turns. *)
Fixpoint discover (face : FT.FT_Face) (fuel : nat) (firstChar lastChar : Z)
    (cpRanges : list (Z * Z)) : outcome (list (Z * Z)) :=
  let nextChar := fst (FT.FT_Get_Next_Char face lastChar) in
  if nextChar =? 0 then
    Done (cpRanges ++ [(Cxx.u32 firstChar, Cxx.u32 lastChar)])
  else
    match fuel with
    | O => Hang
    | S fuel =>
        if negb (nextChar =? lastChar + 1)
        then discover face fuel nextChar nextChar
                      (cpRanges ++ [(Cxx.u32 firstChar, Cxx.u32 lastChar)])
        else discover face fuel firstChar nextChar cpRanges
    end.

Definition resolve (face : FT.FT_Face) (fuel : nat) (cpRanges : list (Z * Z))
    : outcome (list (Z * Z)) :=
  match cpRanges with
  | [] =>
      let firstChar := fst (FT.FT_Get_First_Char face) in
      if firstChar =? 0 then Exit (-1) "Font has no charmap"
      else discover face fuel firstChar firstChar []
  | _ => Done cpRanges
  end.

End Resolver.

(** ** Loops over codepoint ranges

    [for (uint32_t cp = first; cp <= last; ++cp)].  When [last] is
    [UINT32_MAX] the test never fails: [cp] wraps to [0] and the loop goes
    through every codepoint again and again, so it can only be left by an
    exit inside the body. *)

Fixpoint foldM {S A} (body : S -> A -> outcome S) (l : list A) (s : S) : outcome S :=
  match l with
  | [] => Done s
  | a :: l => let* s := body s a in foldM body l s
  end.

Definition for_range {S} (body : S -> Z -> outcome S) (s : S) (range : Z * Z)
    : outcome S :=
  let (first, last) := range in
  if last =? Cxx.UINT32_MAX then
    let* _ := foldM body (seqZ first (2 ^ 32 - first) ++ seqZ 0 first) s in Hang
  else foldM body (seqZ first (last + 1 - first)) s.

Definition for_ranges {S} (body : S -> Z -> outcome S) (cpRanges : list (Z * Z))
    (s : S) : outcome S :=
  foldM (for_range body) cpRanges s.

(** ** Glyph collection (lines 255-289) *)

Module Collector.

Definition RECT_PAD : Z := 1.

Record state := {
  glyphs : glyph_map;
  rects : list Stb.stbrp_rect;
  totalW : Z;
  totalH : Z
}.

Definition initial : state := {| glyphs := []; rects := []; totalW := 0; totalH := 0 |}.

(** [glyph.rectIndex = ...] on an otherwise finished record. *)
Definition set_rectIndex (g : GlyphData) (i : Z) : GlyphData :=
  {| rectIndex := i; glyphIndex := glyphIndex g; width := width g;
     height := height g; leftBearing := leftBearing g;
     topBearing := topBearing g; advance := advance g |}.

(** The record filled in from [face->glyph] (lines 270-276). *)
Definition glyph_of_slot (gidx : Z) (slot : FT.FT_GlyphSlot) : GlyphData :=
  {| rectIndex := Cxx.NO_RECT;
     glyphIndex := gidx;
     width := FT.width (FT.bitmap slot);
     height := FT.rows (FT.bitmap slot);
     leftBearing := FT.bitmap_left slot;
     topBearing := FT.bitmap_top slot;
     advance := FT.advance_x slot |}.

(** The padded rectangle of a glyph (lines 281-284). *)
Definition padded_rect (g : GlyphData) : Stb.stbrp_rect :=
  {| Stb.id := 0;
     Stb.w := Cxx.i32 (Cxx.u32 (width g + RECT_PAD * 2));
     Stb.h := Cxx.i32 (Cxx.u32 (height g + RECT_PAD * 2));
     Stb.x := 0; Stb.y := 0; Stb.was_packed := 0 |}.

(** [glyph.width * glyph.height != 0], in [unsigned int]. *)
Definition has_area (g : GlyphData) : bool :=
  negb (Cxx.u32 (width g * height g) =? 0).

(** The body of the inner loop, for one codepoint. *)
Definition collect_cp (face : FT.FT_Face) (st : state) (cp : Z) : outcome state :=
  let gidx := FT.FT_Get_Char_Index face cp in
  let (glyphs', inserted) := try_emplace gidx zero_glyph (glyphs st) in
  if negb inserted then Done st
  else
    let (err, slot) := FT.FT_Load_Glyph face gidx in
    let* _ := CheckFtErr err in
    let glyph := glyph_of_slot gidx slot in
    if has_area glyph then
      let rects' := rects st ++ [padded_rect glyph] in
      let glyph' := set_rectIndex glyph (Z.of_nat (length rects') - 1) in
      Done {| glyphs := assign gidx glyph' glyphs';
              rects := rects';
              totalW := Cxx.u32 (totalW st + width glyph);
              totalH := Cxx.u32 (totalH st + height glyph) |}
    else
      Done {| glyphs := assign gidx glyph glyphs';
              rects := rects st;
              totalW := totalW st;
              totalH := totalH st |}.

Definition collect (face : FT.FT_Face) (cpRanges : list (Z * Z)) : outcome state :=
  for_ranges (collect_cp face) cpRanges initial.

End Collector.

(** ** Adaptive packing (lines 292-315) *)

Module Packer.

(** [RP_GROWTH = 1.2f] is the binary32 number [10066330 * 2^-23]. *)
Definition RP_GROWTH_num : Z := 10066330.

(** Rounding of a non-negative integer to the 24 significant bits of a
    binary32 number, ties to even. *)
Definition round24 (n : Z) : Z :=
  let e := Z.log2 n - 23 in
  if e <=? 0 then n
  else
    let q := n / 2 ^ e in
    let r := n mod 2 ^ e in
    let half := 2 ^ (e - 1) in
    let q' := if (r >? half) || ((r =? half) && Z.odd q) then q + 1 else q in
    q' * 2 ^ e.

(** [target *= RP_GROWTH] on an [int]: convert to [float], multiply,
    truncate.  This is the truncated product; converting it back to [int]
    is defined only while it fits one, which the loop below checks. *)
Definition grow (target : Z) : Z :=
  round24 (round24 target * RP_GROWTH_num) / 2 ^ 23.

(** The [while (true)] of lines 300-308. *)
Fixpoint pack_loop (pack : Stb.packer) (fuel : nat) (targetW targetH nodes : Z)
    (rects : list Stb.stbrp_rect) : outcome (list Stb.stbrp_rect) :=
  match fuel with
  | O => Hang
  | S fuel =>
      let (ok, rects') := pack targetW targetH nodes rects in
      if negb (ok =? 0) then Done rects'
      else if Cxx.fits_int (grow targetW) && Cxx.fits_int (grow targetH)
      then pack_loop pack fuel (grow targetW) (grow targetH) (grow targetW) rects'
      else Undefined
  end.

(** Lines 309-314, one turn. *)
Definition extend (box : Z * Z) (rect : Stb.stbrp_rect) : Z * Z :=
  let (atlasW, atlasH) := box in
  (if Stb.x rect + Stb.w rect >? atlasW then Stb.x rect + Stb.w rect else atlasW,
   if Stb.y rect + Stb.h rect >? atlasH then Stb.y rect + Stb.h rect else atlasH).

Definition bounding_box (rects : list Stb.stbrp_rect) : Z * Z :=
  fold_left extend rects (0, 0).

(** The block of lines 294-315: the packed rectangles and
    [(atlasW, atlasH)].  [sqrt] of a [uint32_t], truncated to [int], is
    the integer square root. *)
Definition pack_atlas (pack : Stb.packer) (fuel : nat) (totalW totalH : Z)
    (rects : list Stb.stbrp_rect) : outcome (list Stb.stbrp_rect * (Z * Z)) :=
  let targetW := Z.sqrt totalW in
  let targetH := Z.sqrt totalH in
  let* rects' := pack_loop pack fuel targetW targetH (Cxx.u64 (targetW * 2)) rects in
  Done (rects', bounding_box rects').

End Packer.

(** ** Compositing (lines 318-378) *)

Module Compositor.

Definition zero_rect : Stb.stbrp_rect :=
  {| Stb.id := 0; Stb.w := 0; Stb.h := 0; Stb.x := 0; Stb.y := 0; Stb.was_packed := 0 |}.

(** Lines 336-337, on an [int] rectangle with the [uint32_t] pad. *)
Definition remove_padding (rect : Stb.stbrp_rect) : Stb.stbrp_rect :=
  {| Stb.id := Stb.id rect;
     Stb.w := Cxx.i32 (Cxx.u32 (Stb.w rect - Collector.RECT_PAD * 2));
     Stb.h := Cxx.i32 (Cxx.u32 (Stb.h rect - Collector.RECT_PAD * 2));
     Stb.x := Cxx.i32 (Cxx.u32 (Stb.x rect + Collector.RECT_PAD));
     Stb.y := Cxx.i32 (Cxx.u32 (Stb.y rect + Collector.RECT_PAD));
     Stb.was_packed := Stb.was_packed rect |}.

(** [dst[0] = v] for [dst = &atlasBmp[i]]: a store outside the buffer is
    undefined. *)
Definition store (i v : Z) (atlasBmp : list Z) : outcome (list Z) :=
  if i <? Z.of_nat (length atlasBmp) then Done (<[ Z.to_nat i := v ]> atlasBmp)
  else Undefined.

(** [(x + rect.x)*atlasChannels + (y+rect.y)*atlasPitch]: [x] and [y] are
    [unsigned int] and the rectangle's corner is [int], so the two sums
    are taken modulo [2^32]; the products and the outer sum are [size_t]. *)
Definition dst_index (rect : Stb.stbrp_rect) (atlasPitch x y : Z) : Z :=
  Cxx.u64 (Cxx.u32 (x + Stb.x rect) + Cxx.u64 (Cxx.u32 (y + Stb.y rect) * atlasPitch)).

(** The two nested [for] loops: [px x y] is the byte stored for source
    pixel [(x, y)]. *)
Definition blit (px : Z -> Z -> Z) (rows width : Z) (rect : Stb.stbrp_rect)
    (atlasPitch : Z) (atlasBmp : list Z) : outcome (list Z) :=
  foldM (fun bmp y =>
    foldM (fun bmp x => store (dst_index rect atlasPitch x y) (px x y) bmp)
      (seqZ 0 width) bmp)
    (seqZ 0 rows) atlasBmp.

Definition byte_at (buffer : list Z) (i : Z) : Z := default 0 (buffer !! Z.to_nat i).

Definition gray_pixel (bm : FT.FT_Bitmap) (x y : Z) : Z :=
  byte_at (FT.buffer bm) (x + y * Z.abs (FT.pitch bm)).

Definition mono_pixel (bm : FT.FT_Bitmap) (x y : Z) : Z :=
  Z.land (Z.shiftr (byte_at (FT.buffer bm) (x / 8 + y * Z.abs (FT.pitch bm)))
                   (7 - x mod 8)) 1 * 255.

(** The body of [for (auto& pair : glyphs)]. *)
Definition composite_glyph (face : FT.FT_Face) (mono : bool) (atlasPitch : Z)
    (st : list Stb.stbrp_rect * list Z) (pair : Z * GlyphData)
    : outcome (list Stb.stbrp_rect * list Z) :=
  let (rects, atlasBmp) := st in
  let glyph := snd pair in
  if rectIndex glyph =? Cxx.NO_RECT then Done st
  else
    let (err, slot) := FT.FT_Load_Glyph face (glyphIndex glyph) in
    let* _ := CheckFtErr err in
    let* slot :=
      (if FT.format_is_bitmap slot then Done slot
       else
         let (err, slot') :=
           FT.FT_Render_Glyph face slot
             (if mono then FT.FT_RENDER_MODE_MONO else FT.FT_RENDER_MODE_LIGHT) in
         let* _ := CheckFtErr err in Done slot') in
    let rects' := alter remove_padding (Z.to_nat (rectIndex glyph)) rects in
    let rect := default zero_rect (rects' !! Z.to_nat (rectIndex glyph)) in
    let bm := FT.bitmap slot in
    let mode := FT.pixel_mode bm in
    if mode =? FT.FT_PIXEL_MODE_GRAY then
      let* atlasBmp' :=
        blit (gray_pixel bm) (FT.rows bm) (FT.width bm) rect atlasPitch atlasBmp in
      Done (rects', atlasBmp')
    else if mode =? FT.FT_PIXEL_MODE_MONO then
      let* atlasBmp' :=
        blit (mono_pixel bm) (FT.rows bm) (FT.width bm) rect atlasPitch atlasBmp in
      Done (rects', atlasBmp')
    else if (mode =? FT.FT_PIXEL_MODE_BGRA) || (mode =? FT.FT_PIXEL_MODE_NONE)
            || (mode =? FT.FT_PIXEL_MODE_LCD) || (mode =? FT.FT_PIXEL_MODE_LCD_V)
            || (mode =? FT.FT_PIXEL_MODE_GRAY2) || (mode =? FT.FT_PIXEL_MODE_GRAY4)
    then Exit (-1) (String.append "Unsupported FT_Pixel_Mode " (Cxx.dec mode))
    else Exit (-1) (String.append "Unknown FT_Pixel_Mode " (Cxx.dec mode)).

(** Lines 318-378.  [atlasW * atlasH] is a product of [int]s, undefined
    when it overflows; [atlasW] and [atlasH] are never negative (they start
    at 0 and lines 310-313 only raise them), and the buffer is taken to be
    allocated whatever its size. *)
Definition composite (face : FT.FT_Face) (mono : bool) (glyphs : glyph_map)
    (rects : list Stb.stbrp_rect) (atlasW atlasH : Z)
    : outcome (list Stb.stbrp_rect * list Z) :=
  let atlasPitch := Cxx.u64 atlasW in
  if Cxx.fits_int (atlasW * atlasH) then
    let atlasBmp := replicate (Z.to_nat (Cxx.u64 (atlasW * atlasH))) 0 in
    foldM (composite_glyph face mono atlasPitch) glyphs (rects, atlasBmp)
  else Undefined.

End Compositor.

(** ** Encoding (lines 402-465) *)

Module Encoder.

(** What is sent to the stream, one token per number or punctuation
    mark; [Key k] is the quoted member name [k]. *)
Inductive token :=
| LBrace | RBrace | LBracket | RBracket | Comma | Colon
| Key (k : string)
| Num (n : Z).

Record glyph_state := {
  nextJsonId : Z;
  prevGlyph : GlyphData;
  prevRectX : Z;
  prevRectY : Z;
  glyphIdToJsonId : gmap Z Z;
  glyph_out : list token
}.

Definition glyph_initial : glyph_state :=
  {| nextJsonId := 0; prevGlyph := zero_glyph; prevRectX := 0; prevRectY := 0;
     glyphIdToJsonId := ∅; glyph_out := [] |}.

(** The position written for a glyph (lines 424-428). *)
Definition rect_xy (rects : list Stb.stbrp_rect) (glyph : GlyphData) : Z * Z :=
  if negb (rectIndex glyph =? Cxx.NO_RECT) then
    let rect := default Compositor.zero_rect (rects !! Z.to_nat (rectIndex glyph)) in
    (Stb.x rect, Stb.y rect)
  else (0, 0).

(** The body of the loop of lines 413-435.  The differences are taken in
    [int64_t] on 32-bit operands (and on [FT_Pos] advances), where they
    are exact. *)
Definition encode_glyph (rects : list Stb.stbrp_rect) (st : glyph_state)
    (pair : Z * GlyphData) : glyph_state :=
  let out := if negb (nextJsonId st =? 0) then glyph_out st ++ [Comma] else glyph_out st in
  let glyph := snd pair in
  let prev := prevGlyph st in
  let (rectX, rectY) := rect_xy rects glyph in
  {| nextJsonId := nextJsonId st + 1;
     prevGlyph := glyph;
     prevRectX := rectX;
     prevRectY := rectY;
     glyphIdToJsonId := <[glyphIndex glyph := nextJsonId st]> (glyphIdToJsonId st);
     glyph_out := out ++
       [Num (width glyph - width prev); Comma;
        Num (height glyph - height prev); Comma;
        Num (leftBearing glyph - leftBearing prev); Comma;
        Num (topBearing glyph - topBearing prev); Comma;
        Num (Z.shiftr (advance glyph - advance prev) 6); Comma;
        Num (rectX - prevRectX st); Comma;
        Num (rectY - prevRectY st)] |}.

Definition encode_glyphs (glyphs : glyph_map) (rects : list Stb.stbrp_rect)
    : glyph_state :=
  fold_left (encode_glyph rects) glyphs glyph_initial.

Record cp_state := {
  cp_i : Z;
  lastCp : Z;
  lastGlyphJsonId : Z;
  cp_out : list token
}.

Definition cp_initial : cp_state :=
  {| cp_i := 0; lastCp := 0; lastGlyphJsonId := 0; cp_out := [] |}.

(** [glyphIdToJsonId[glyphIndex]]: a missing key reads as [0]. *)
Definition json_id (ids : gmap Z Z) (gidx : Z) : Z := default 0 (ids !! gidx).

(** The body of the loop of lines 444-456, together with the [++i] of its
    header, which also runs after [continue]. *)
Definition encode_cp (face : FT.FT_Face) (ids : gmap Z Z) (st : cp_state) (cp : Z)
    : outcome cp_state :=
  let gidx := FT.FT_Get_Char_Index face cp in
  if gidx =? 0 then
    Done {| cp_i := cp_i st + 1; lastCp := lastCp st;
            lastGlyphJsonId := lastGlyphJsonId st; cp_out := cp_out st |}
  else
    let glyphJsonId := json_id ids gidx in
    let out := if negb (cp_i st =? 0) then cp_out st ++ [Comma] else cp_out st in
    Done {| cp_i := cp_i st + 1;
            lastCp := cp;
            lastGlyphJsonId := Cxx.u32 glyphJsonId;
            cp_out := out ++ [Num (cp - lastCp st); Comma;
                              Num (glyphJsonId - lastGlyphJsonId st)] |}.

Definition encode_codepoints (face : FT.FT_Face) (ids : gmap Z Z)
    (cpRanges : list (Z * Z)) : outcome cp_state :=
  for_ranges (encode_cp face ids) cpRanges cp_initial.

Definition metrics_tokens (m : FT.FT_Size_Metrics) : list token :=
  [Key "ascender"; Colon; Num (Z.shiftr (FT.ascender m) 6); Comma;
   Key "descender"; Colon; Num (Z.shiftr (FT.descender m) 6); Comma;
   Key "height"; Colon; Num (Z.shiftr (FT.height m) 6)].

(** Everything written to [map.json], in order. *)
Definition encode (face : FT.FT_Face) (glyphs : glyph_map)
    (rects : list Stb.stbrp_rect) (cpRanges : list (Z * Z)) : outcome (list token) :=
  let gs := encode_glyphs glyphs rects in
  let* cs := encode_codepoints face (glyphIdToJsonId gs) cpRanges in
  Done ([LBrace; Key "version"; Colon; Num 1; Comma; Key "glyphs"; Colon; LBracket]
        ++ glyph_out gs
        ++ [RBracket; Comma; Key "codepoints"; Colon; LBracket]
        ++ cp_out cs
        ++ [RBracket; Comma; Key "metrics"; Colon; LBrace]
        ++ metrics_tokens (FT.size_metrics face)
        ++ [RBrace; RBrace]).

End Encoder.

(** ** [main] *)

Module Main.

(** [axes.find] and [axes.erase] on the [std::unordered_map] of requested
    axis values. *)
Definition find_axis (name : string) (axes : list (string * Z)) : option Z :=
  match List.find (fun kv => String.eqb (fst kv) name) axes with
  | Some kv => Some (snd kv)
  | None => None
  end.

Definition erase_axis (name : string) (axes : list (string * Z)) : list (string * Z) :=
  List.filter (fun kv => negb (String.eqb (fst kv) name)) axes.

(** The [for] over [master->axis] (lines 203-217).  The message of the
    early exit goes on with the two bounds of the axis, printed with [%f],
    which are left out. *)
Fixpoint axis_coords (master : list FT.FT_Var_Axis) (axes : list (string * Z))
    (coords : list Z) : outcome (list (string * Z) * list Z) :=
  match master with
  | [] => Done (axes, coords)
  | axis :: master =>
      let (coord, axes') :=
        match find_axis (FT.name axis) axes with
        | Some v => (v, erase_axis (FT.name axis) axes)
        | None => (FT.def axis, axes)
        end in
      if (coord <? FT.minimum axis) || (coord >? FT.maximum axis)
      then Exit (-1) (String.append "Axis " (String.append (FT.name axis) " must be"))
      else axis_coords master axes' (coords ++ [coord])
  end.

(** Lines 191-233.  The message about axes the font does not have goes on
    with their names, in the iteration order of the [std::unordered_map],
    and with the names of the font's axes; both lists are left out. *)
Definition set_axes (env : Env) (face : FT.FT_Face) (axes : list (string * Z))
    : outcome FT.FT_Face :=
  match axes with
  | [] => Done face
  | _ =>
      let (err, master) := FT_Get_MM_Var env face in
      let* _ := CheckFtErr err in
      match master with
      | [] => Exit (-1) "This font has no axes"
      | _ =>
          let* (axes', coords) := axis_coords master axes [] in
          match axes' with
          | _ :: _ => Exit (-1) "The provided axis/axes do not exist in this font:"
          | [] =>
              let (err, face') := FT_Set_Var_Design_Coordinates env face coords in
              let* _ := CheckFtErr err in
              Done face'
          end
      end
  end.

(** The locals of [main] that are alive at line 380. *)
Record assembled := {
  a_outDir : string;
  a_face : FT.FT_Face;
  a_cpRanges : list (Z * Z);
  a_glyphs : glyph_map;
  a_rects : list Stb.stbrp_rect;
  a_atlasW : Z;
  a_atlasH : Z;
  a_atlasBmp : list Z
}.

(** Lines 118-378: everything before the first file is touched.  [fuel]
    bounds the turns of the charmap walk and of the packing loop. *)
Definition assemble (env : Env) (fuel : nat) (argv : list string) : outcome assembled :=
  let* _ := CheckFtErr (FT_Init_FreeType env) in
  let* cfg := Args.parse_args (double_to_fixed env) argv in
  let (err, face) := FT_New_Face env (default "" (Args.fontPath cfg)) in
  let* _ := CheckFtErr err in
  let (err, face) := FT_Set_Pixel_Sizes env face (Args.desiredSize cfg) in
  let* _ := CheckFtErr err in
  let* face := set_axes env face (Args.axes cfg) in
  let* cpRanges := Resolver.resolve face fuel (Args.cpRanges cfg) in
  let* col := Collector.collect face cpRanges in
  let* (rects, (atlasW, atlasH)) :=
    Packer.pack_atlas (stbrp_pack_rects env) fuel
      (Collector.totalW col) (Collector.totalH col) (Collector.rects col) in
  let* (rects, atlasBmp) :=
    Compositor.composite face (Args.mono cfg) (Collector.glyphs col) rects atlasW atlasH in
  Done {| a_outDir := default "" (Args.outDir cfg);
          a_face := face;
          a_cpRanges := cpRanges;
          a_glyphs := Collector.glyphs col;
          a_rects := rects;
          a_atlasW := atlasW;
          a_atlasH := atlasH;
          a_atlasBmp := atlasBmp |}.

(** What a run leaves on disk; [Remnant] is whatever a failed write of the
    image has left behind. *)
Inductive file :=
| PngFile (width height : Z) (pixels : list Z) (row_stride : Z)
| JsonFile (text : list Encoder.token)
| Remnant.

Record run := { status : outcome unit; written : list (string * file) }.

(** [std::filesystem::path::operator/] with a relative right-hand side, on
    POSIX: a separator is put in between when the left-hand side has a
    file name, that is, unless it is empty or ends with a separator. *)
Fixpoint last_char (s : string) : option ascii :=
  match s with
  | EmptyString => None
  | String c EmptyString => Some c
  | String _ rest => last_char rest
  end.

Definition has_filename (p : string) : bool :=
  match last_char p with
  | Some c => negb (Ascii.eqb c "/"%char)
  | None => false
  end.

Definition path_join (p name : string) : string :=
  if has_filename p then String.append p (String.append "/" name)
  else String.append p name.

Definition atlas_path (outDir : string) : string := path_join outDir "atlas.png".
Definition map_path (outDir : string) : string := path_join outDir "map.json".

(** Lines 380-470.  An exception out of [create_directory] is not caught
    and ends the process through [std::terminate], with nothing printed
    on standard output.  The source does not look at the state of the
    stream after opening it; the text is taken to be written in full. *)
Definition write_outputs (env : Env) (a : assembled) : run :=
  if negb (create_directory env (a_outDir a)) then
    {| status := Exit 134 EmptyString; written := [] |}
  else
    let outAtlas := atlas_path (a_outDir a) in
    let outMap := map_path (a_outDir a) in
    let atlasPitch := a_atlasW a in
    let code := png_image_write_to_file env outAtlas (a_atlasW a) (a_atlasH a)
                  (a_atlasBmp a) atlasPitch in
    if negb (code =? 1) then
      {| status := Exit (-1) (String.append "Failed to write PNG file ("
                                (String.append (Cxx.dec code) ")"));
         written := if png_failed_write_leaves_file env outAtlas
                    then [(outAtlas, Remnant)] else [] |}
    else
      let png := (outAtlas, PngFile (a_atlasW a) (a_atlasH a) (a_atlasBmp a) atlasPitch) in
      if negb (fstream_open env outMap) then
        {| status := Exit (-1) (String.append "Failed to write map to " outMap);
           written := [png] |}
      else
        match Encoder.encode (a_face a) (a_glyphs a) (a_rects a) (a_cpRanges a) with
        | Done text => {| status := Done tt; written := [png; (outMap, JsonFile text)] |}
        | Exit s msg => {| status := Exit s msg; written := [png; (outMap, JsonFile [])] |}
        | Hang => {| status := Hang; written := [png; (outMap, JsonFile [])] |}
        | Undefined => {| status := Undefined; written := [png; (outMap, JsonFile [])] |}
        end.

(** No file has been touched when a run ends, hangs or leaves defined
    behaviour before line 380. *)
Definition main (env : Env) (fuel : nat) (argv : list string) : run :=
  match assemble env fuel argv with
  | Done a => write_outputs env a
  | Exit s msg => {| status := Exit s msg; written := [] |}
  | Hang => {| status := Hang; written := [] |}
  | Undefined => {| status := Undefined; written := [] |}
  end.

End Main.

(** ** The reader's side of the wire format

    The README describes how [map.json] is read back: seven numbers per
    glyph, two per codepoint, each column summed up cumulatively. *)

Module Reader.

Definition numbers (text : list Encoder.token) : list Z :=
  omap (fun t => match t with Encoder.Num n => Some n | _ => None end) text.

Record glyph_entry := {
  e_width : Z; e_height : Z; e_leftBearing : Z; e_topBearing : Z;
  e_advance : Z; e_x : Z; e_y : Z
}.

Definition zero_entry : glyph_entry :=
  {| e_width := 0; e_height := 0; e_leftBearing := 0; e_topBearing := 0;
     e_advance := 0; e_x := 0; e_y := 0 |}.

Fixpoint decode_glyphs (prev : glyph_entry) (nums : list Z) : list glyph_entry :=
  match nums with
  | dw :: dh :: dl :: dt :: da :: dx :: dy :: rest =>
      let cur := {| e_width := e_width prev + dw;
                    e_height := e_height prev + dh;
                    e_leftBearing := e_leftBearing prev + dl;
                    e_topBearing := e_topBearing prev + dt;
                    e_advance := e_advance prev + da;
                    e_x := e_x prev + dx;
                    e_y := e_y prev + dy |} in
      cur :: decode_glyphs cur rest
  | _ => []
  end.

Fixpoint decode_codepoints (prev : Z * Z) (nums : list Z) : list (Z * Z) :=
  match nums with
  | dc :: dg :: rest =>
      let cur := (fst prev + dc, snd prev + dg) in
      cur :: decode_codepoints cur rest
  | _ => []
  end.

Definition read_glyphs (text : list Encoder.token) : list glyph_entry :=
  decode_glyphs zero_entry (numbers text).

Definition read_codepoints (text : list Encoder.token) : list (Z * Z) :=
  decode_codepoints (0, 0) (numbers text).

(** The inside of a JSON array of numbers: nothing, or numbers with one
    comma between neighbours. *)
Fixpoint more_numbers (text : list Encoder.token) : bool :=
  match text with
  | [] => true
  | Encoder.Comma :: Encoder.Num _ :: rest => more_numbers rest
  | _ => false
  end.

Definition number_list (text : list Encoder.token) : bool :=
  match text with
  | [] => true
  | Encoder.Num _ :: rest => more_numbers rest
  | _ => false
  end.

(** The tokens of the array that follows member name [key], up to its
    closing bracket. *)
Fixpoint until_rbracket (text : list Encoder.token) : list Encoder.token :=
  match text with
  | [] => []
  | Encoder.RBracket :: _ => []
  | t :: rest => t :: until_rbracket rest
  end.

Fixpoint array_of (key : string) (text : list Encoder.token) : list Encoder.token :=
  match text with
  | [] => []
  | Encoder.Key k :: rest =>
      if String.eqb k key then
        match rest with
        | Encoder.Colon :: Encoder.LBracket :: body => until_rbracket body
        | _ => []
        end
      else array_of key rest
  | _ :: rest => array_of key rest
  end.

End Reader.

(** ** Abstract views used in the statements *)

(** Every codepoint the range loops visit, in order, when no range ends at
    [UINT32_MAX]. *)
Definition requested (cpRanges : list (Z * Z)) : list Z :=
  concat (map (fun r => seqZ (fst r) (snd r + 1 - fst r)) cpRanges).

(** Glyph indices in the order in which they are first met. *)
Definition note (seen : list Z) (k : Z) : list Z :=
  if bool_decide (k ∈ seen) then seen else seen ++ [k].

Definition first_seen (ks : list Z) : list Z := fold_left note ks [].

(** The metrics FreeType reports for a glyph index, as [collect_cp] stores
    them. *)
Definition record_of (face : FT.FT_Face) (k : Z) : GlyphData :=
  Collector.glyph_of_slot k (snd (FT.FT_Load_Glyph face k)).

Fixpoint index_of (k : Z) (l : list Z) : nat :=
  match l with
  | [] => O
  | k' :: l => if k =? k' then O else S (index_of k l)
  end.

(** The glyph indices that get a rectangle, in first-met order. *)
Definition packed_order (face : FT.FT_Face) (seen : list Z) : list Z :=
  List.filter (fun k => Collector.has_area (record_of face k)) seen.

(** The [rectIndex] a glyph ends up with. *)
Definition rect_slot (face : FT.FT_Face) (seen : list Z) (k : Z) : Z :=
  if Collector.has_area (record_of face k)
  then Z.of_nat (index_of k (packed_order face seen))
  else Cxx.NO_RECT.

(** A face whose answers fit the C types they are declared with, and whose
    bitmaps leave room for the padding in an [int]. *)
Record face_typed (face : FT.FT_Face) : Prop := {
  index_typed : forall cp, 0 <= FT.FT_Get_Char_Index face cp < 2 ^ 32;
  bitmap_typed : forall k,
    0 <= FT.width (FT.bitmap (snd (FT.FT_Load_Glyph face k))) < 2 ^ 31 - 2 /\
    0 <= FT.rows (FT.bitmap (snd (FT.FT_Load_Glyph face k))) < 2 ^ 31 - 2
}.

(** What holds of the collector's state once the glyph indices [seen] have
    been met, in that order. *)
Record collected (face : FT.FT_Face) (seen : list Z) (st : Collector.state) : Prop := {
  col_sorted : StronglySorted Z.lt (map fst (Collector.glyphs st));
  col_keys : forall k, In k (map fst (Collector.glyphs st)) <-> In k seen;
  col_nodup : NoDup seen;
  col_rects :
    Collector.rects st =
    map (fun k => Collector.padded_rect (record_of face k)) (packed_order face seen);
  col_records :
    Forall (fun e => snd e = Collector.set_rectIndex (record_of face (fst e))
                                                      (rect_slot face seen (fst e)))
           (Collector.glyphs st)
}.

(** Where the compositor strips the padding: the rectangle of each glyph
    that has one. *)
Definition target (e : Z * GlyphData) : option nat :=
  if rectIndex (snd e) =? Cxx.NO_RECT then None else Some (Z.to_nat (rectIndex (snd e))).

(** The seven numbers written for one glyph. *)
Definition glyph_delta (rects : list Stb.stbrp_rect) (prev : GlyphData) (prevXY : Z * Z)
    (g : GlyphData) : list Z :=
  [width g - width prev; height g - height prev;
   leftBearing g - leftBearing prev; topBearing g - topBearing prev;
   Z.shiftr (advance g - advance prev) 6;
   fst (Encoder.rect_xy rects g) - fst prevXY;
   snd (Encoder.rect_xy rects g) - snd prevXY].

Fixpoint glyph_deltas (rects : list Stb.stbrp_rect) (prev : GlyphData) (prevXY : Z * Z)
    (glyphs : glyph_map) : list Z :=
  match glyphs with
  | [] => []
  | e :: glyphs =>
      glyph_delta rects prev prevXY (snd e)
      ++ glyph_deltas rects (snd e) (Encoder.rect_xy rects (snd e)) glyphs
  end.

(** What the reader recovers for a glyph, advance aside. *)
Definition entry_matches (rects : list Stb.stbrp_rect) (e : Reader.glyph_entry)
    (g : GlyphData) : Prop :=
  Reader.e_width e = width g /\ Reader.e_height e = height g /\
  Reader.e_leftBearing e = leftBearing g /\ Reader.e_topBearing e = topBearing g /\
  (Reader.e_x e, Reader.e_y e) = Encoder.rect_xy rects g.

(** The codepoints that are written, paired with their sequential ids. *)
Definition kept_pairs (face : FT.FT_Face) (ids : gmap Z Z) (cps : list Z) : list (Z * Z) :=
  map (fun cp => (cp, Encoder.json_id ids (FT.FT_Get_Char_Index face cp)))
      (List.filter (fun cp => negb (FT.FT_Get_Char_Index face cp =? 0)) cps).

(** What is written once the counter [i] is past zero: every pair comes
    with a comma in front. *)
Fixpoint comma_pairs (pc pg : Z) (l : list (Z * Z)) : list Encoder.token :=
  match l with
  | [] => []
  | (c, g) :: l =>
      Encoder.Comma :: Encoder.Num (c - pc) :: Encoder.Comma :: Encoder.Num (g - pg)
      :: comma_pairs c (Cxx.u32 g) l
  end.

Fixpoint pair_deltas (pc pg : Z) (l : list (Z * Z)) : list Z :=
  match l with
  | [] => []
  | (c, g) :: l => (c - pc) :: (g - pg) :: pair_deltas c (Cxx.u32 g) l
  end.

(** Every early exit carries a non-zero status. *)
Definition exits_nonzero {A} (m : outcome A) : Prop :=
  match m with Exit s _ => s <> 0 | _ => True end.

(** ** Sample collaborators, for concrete runs *)

Module Sample.

Definition slot (w h adv : Z) : FT.FT_GlyphSlot :=
  {| FT.format_is_bitmap := true;
     FT.bitmap := {| FT.rows := h; FT.width := w; FT.pitch := w;
                     FT.buffer := replicate (Z.to_nat (w * h)) 255;
                     FT.pixel_mode := FT.FT_PIXEL_MODE_GRAY |};
     FT.bitmap_left := 0; FT.bitmap_top := h; FT.advance_x := adv |}.

Definition metrics : FT.FT_Size_Metrics :=
  {| FT.ascender := 960; FT.descender := -256; FT.height := 1216 |}.

(** A face from a charmap and a table of glyph shapes
    [(glyph index, (width, height, advance))]; glyphs not listed are
    empty. *)
Definition shape_of (shapes : list (Z * (Z * Z * Z))) (k : Z) : FT.FT_GlyphSlot :=
  match List.find (fun e => fst e =? k) shapes with
  | Some (_, (w, h, adv)) => slot w h adv
  | None => slot 0 0 0
  end.

Definition face (cm : list (Z * Z)) (shapes : list (Z * (Z * Z * Z))) : FT.FT_Face :=
  FT.face_of_charmap cm (fun k => (0, shape_of shapes k)) (fun s _ => (0, s)) metrics.

Definition env (f : FT.FT_Face) (png_code : Z) (json_opens : bool) : Env :=
  {| double_to_fixed := fun p =>
       (Args.pf_num p * Args.pf_div p + Args.pf_denom p) * 65536 / Args.pf_div p;
     FT_Init_FreeType := 0;
     FT_New_Face := fun _ => (0, f);
     FT_Set_Pixel_Sizes := fun f _ => (0, f);
     FT_Get_MM_Var := fun _ => (0, []);
     FT_Set_Var_Design_Coordinates := fun f _ => (0, f);
     stbrp_pack_rects := Stb.row_packer;
     create_directory := fun _ => true;
     png_image_write_to_file := fun _ _ _ _ _ => png_code;
     png_failed_write_leaves_file := fun _ => false;
     fstream_open := fun _ => json_opens |}.

(** 'A' -> glyph 3, 'B' and 'C' -> glyph 7 (the scenario of the spec). *)
Definition abc_charmap : list (Z * Z) := [(65, 3); (66, 7); (67, 7)].
Definition abc_shapes : list (Z * (Z * Z * Z)) := [(3, (13, 13, 832)); (7, (12, 13, 768))].
Definition abc_face : FT.FT_Face := face abc_charmap abc_shapes.

(** The stages of one run over '@' to 'C'; '@' has no glyph. *)
Definition abc_ranges : list (Z * Z) := [(64, 67)].

Definition result {A} (d : A) (m : outcome A) : A :=
  match m with Done a => a | _ => d end.

Definition abc_collected : Collector.state :=
  Eval vm_compute in result Collector.initial (Collector.collect abc_face abc_ranges).

Definition abc_packed : list Stb.stbrp_rect * (Z * Z) :=
  Eval vm_compute in
    result ([], (0, 0))
      (Packer.pack_atlas Stb.row_packer 50 (Collector.totalW abc_collected)
         (Collector.totalH abc_collected) (Collector.rects abc_collected)).

Definition abc_composited : list Stb.stbrp_rect * list Z :=
  Eval vm_compute in
    result ([], [])
      (Compositor.composite abc_face false (Collector.glyphs abc_collected)
         (fst abc_packed) (fst (snd abc_packed)) (snd (snd abc_packed))).

Definition abc_codepoints : Encoder.cp_state :=
  Eval vm_compute in
    result Encoder.cp_initial
      (Encoder.encode_codepoints abc_face
         (Encoder.glyphIdToJsonId
            (Encoder.encode_glyphs (Collector.glyphs abc_collected) (fst abc_composited)))
         abc_ranges).

(** A face with one outline glyph, 'A' -> glyph 1, measured 25 by 25 and
    rendered in 1-bit mode as columns of alternating pixels. *)
Definition outline (w h adv : Z) : FT.FT_GlyphSlot :=
  {| FT.format_is_bitmap := false;
     FT.bitmap := {| FT.rows := h; FT.width := w; FT.pitch := w; FT.buffer := [];
                     FT.pixel_mode := FT.FT_PIXEL_MODE_NONE |};
     FT.bitmap_left := 0; FT.bitmap_top := h; FT.advance_x := adv |}.

Definition render_columns (s : FT.FT_GlyphSlot) (mode : FT.FT_Render_Mode)
    : FT.FT_Error * FT.FT_GlyphSlot :=
  let w := FT.width (FT.bitmap s) in
  let h := FT.rows (FT.bitmap s) in
  let bm :=
    match mode with
    | FT.FT_RENDER_MODE_MONO =>
        {| FT.rows := h; FT.width := w; FT.pitch := (w + 7) / 8;
           FT.buffer := replicate (Z.to_nat ((w + 7) / 8 * h)) 170;
           FT.pixel_mode := FT.FT_PIXEL_MODE_MONO |}
    | FT.FT_RENDER_MODE_LIGHT =>
        {| FT.rows := h; FT.width := w; FT.pitch := w;
           FT.buffer := replicate (Z.to_nat (w * h)) 255;
           FT.pixel_mode := FT.FT_PIXEL_MODE_GRAY |}
    end in
  (0, {| FT.format_is_bitmap := true; FT.bitmap := bm;
         FT.bitmap_left := FT.bitmap_left s; FT.bitmap_top := FT.bitmap_top s;
         FT.advance_x := FT.advance_x s |}).

Definition mono_face : FT.FT_Face :=
  FT.face_of_charmap [(65, 1)]
    (fun k => (0, if k =? 1 then outline 25 25 1600 else slot 0 0 0))
    render_columns metrics.

Definition mono_ranges : list (Z * Z) := [(65, 66)].

Definition mono_collected : Collector.state :=
  Eval vm_compute in result Collector.initial (Collector.collect mono_face mono_ranges).

Definition mono_packed : list Stb.stbrp_rect * (Z * Z) :=
  Eval vm_compute in
    result ([], (0, 0))
      (Packer.pack_atlas Stb.row_packer 50 (Collector.totalW mono_collected)
         (Collector.totalH mono_collected) (Collector.rects mono_collected)).

Definition mono_composited : list Stb.stbrp_rect * list Z :=
  Eval vm_compute in
    result ([], [])
      (Compositor.composite mono_face true (Collector.glyphs mono_collected)
         (fst mono_packed) (fst (snd mono_packed)) (snd (snd mono_packed))).

End Sample.

(** ** Views of the argument parsers *)

(** Strings made of the characters ['0'] to ['9'] only. *)
Fixpoint all_digits (s : string) : bool :=
  match s with
  | EmptyString => true
  | String ch rest => Args.is_digit ch && all_digits rest
  end.

(** The base-10 positional value of a string, each character counting for
    its distance from ['0']; on a string of digits this is the number it
    spells. *)
Fixpoint positional (s : string) (acc : Z) : Z :=
  match s with
  | EmptyString => acc
  | String ch rest => positional rest (acc * 10 + (Cxx.char_val ch - 48))
  end.

(** What the flag loop keeps true of the configuration it builds. *)
Definition config_ok (cfg : Args.Config) : Prop :=
  Forall (fun r => 0 <= fst r /\ fst r < snd r /\ snd r < 2 ^ 32) (Args.cpRanges cfg) /\
  NoDup (map fst (Args.axes cfg)) /\
  - 2 ^ 31 <= Args.desiredSize cfg < 2 ^ 31.

(** ** Views of the axis and range stages *)

(** The coordinate an axis of the font gets: the requested value when the
    axis was named on the command line, its default otherwise. *)
Definition axis_value (axes : list (string * Z)) (axis : FT.FT_Var_Axis) : Z :=
  match Main.find_axis (FT.name axis) axes with
  | Some v => v
  | None => FT.def axis
  end.

(** The character codes [FT_Get_Next_Char] hands out after [c], for at most
    [fuel] calls. *)
Fixpoint walk (face : FT.FT_Face) (fuel : nat) (c : Z) : list Z :=
  let n := fst (FT.FT_Get_Next_Char face c) in
  if n =? 0 then []
  else match fuel with
       | O => []
       | S fuel => n :: walk face fuel n
       end.

(** Consecutive ranges with at least one codepoint missing between them. *)
Definition gap (r1 r2 : Z * Z) : Prop := snd r1 + 1 < fst r2.

(** A variable font with a weight and a width axis (16.16 fixed point). *)
Definition weight_width_axes : list FT.FT_Var_Axis :=
  [ {| FT.name := "wght"; FT.minimum := 100 * 65536; FT.def := 400 * 65536;
       FT.maximum := 900 * 65536 |};
    {| FT.name := "wdth"; FT.minimum := 50 * 65536; FT.def := 100 * 65536;
       FT.maximum := 200 * 65536 |} ].

Definition weight_width_env (f : FT.FT_Face) : Env :=
  {| double_to_fixed := double_to_fixed (Sample.env f 1 true);
     FT_Init_FreeType := 0;
     FT_New_Face := fun _ => (0, f);
     FT_Set_Pixel_Sizes := fun f _ => (0, f);
     FT_Get_MM_Var := fun _ => (0, weight_width_axes);
     FT_Set_Var_Design_Coordinates := fun f _ => (0, f);
     stbrp_pack_rects := Stb.row_packer;
     create_directory := fun _ => true;
     png_image_write_to_file := fun _ _ _ _ _ => 1;
     png_failed_write_leaves_file := fun _ => false;
     fstream_open := fun _ => true |}.

(** ** Views of the collector's totals *)

Definition sumZ (l : list Z) : Z := fold_right Z.add 0 l.

(** The widths and heights [FT_Load_Glyph] reports for a list of glyph
    indices, added up as integers. *)
Definition width_sum (face : FT.FT_Face) (ks : list Z) : Z :=
  sumZ (map (fun k => width (record_of face k)) ks).

Definition height_sum (face : FT.FT_Face) (ks : list Z) : Z :=
  sumZ (map (fun k => height (record_of face k)) ks).

(** ** Views of the compositor *)

(** The position of atlas pixel [(X, Y)] in the buffer. *)
Definition atlas_index (atlasPitch X Y : Z) : nat := Z.to_nat (X + Y * atlasPitch).

(** Lines 329-332: the slot the compositor copies from, loaded again and
    rendered unless the font delivers bitmaps. *)
Definition rendered_slot (face : FT.FT_Face) (mono : bool) (gidx : Z)
    : outcome FT.FT_GlyphSlot :=
  let (err, slot) := FT.FT_Load_Glyph face gidx in
  let* _ := CheckFtErr err in
  if FT.format_is_bitmap slot then Done slot
  else
    let (err, slot') :=
      FT.FT_Render_Glyph face slot
        (if mono then FT.FT_RENDER_MODE_MONO else FT.FT_RENDER_MODE_LIGHT) in
    let* _ := CheckFtErr err in Done slot'.


(** ** Views of the document *)

(** The tokens an array body is made of. *)
Definition plain (t : Encoder.token) : bool :=
  match t with
  | Encoder.Num _ | Encoder.Comma => true
  | _ => false
  end.


(** The byte the compositor stores for a source pixel of a slot, by the
    slot's pixel mode. *)
Definition slot_pixel (slot : FT.FT_GlyphSlot) : Z -> Z -> Z :=
  if FT.pixel_mode (FT.bitmap slot) =? FT.FT_PIXEL_MODE_GRAY
  then Compositor.gray_pixel (FT.bitmap slot)
  else Compositor.mono_pixel (FT.bitmap slot).

(** What the compositor copies for a glyph and where: the rendered slot
    and the glyph's final rectangle. *)
Definition blit_job (face : FT.FT_Face) (mono : bool) (final : list Stb.stbrp_rect)
    (e : Z * GlyphData) : option (FT.FT_GlyphSlot * Stb.stbrp_rect) :=
  match target e, rendered_slot face mono (glyphIndex (snd e)) with
  | Some i, Done slot => Some (slot, default Compositor.zero_rect (final !! i))
  | _, _ => None
  end.

Definition blit_jobs (face : FT.FT_Face) (mono : bool) (final : list Stb.stbrp_rect)
    (glyphs : glyph_map) : list (FT.FT_GlyphSlot * Stb.stbrp_rect) :=
  omap (blit_job face mono final) glyphs.

Definition run_job (atlasPitch : Z) (atlasBmp : list Z)
    (j : FT.FT_GlyphSlot * Stb.stbrp_rect) : outcome (list Z) :=
  Compositor.blit (slot_pixel (fst j)) (FT.rows (FT.bitmap (fst j)))
    (FT.width (FT.bitmap (fst j))) (snd j) atlasPitch atlasBmp.

(** The atlas pixels a job writes, whether they all lie in the atlas, and
    whether two jobs share none. *)
Definition covers (j : FT.FT_GlyphSlot * Stb.stbrp_rect) (X Y : Z) : Prop :=
  Stb.x (snd j) <= X < Stb.x (snd j) + FT.width (FT.bitmap (fst j)) /\
  Stb.y (snd j) <= Y < Stb.y (snd j) + FT.rows (FT.bitmap (fst j)).

Definition within (atlasW atlasH : Z) (j : FT.FT_GlyphSlot * Stb.stbrp_rect) : Prop :=
  0 <= Stb.x (snd j) /\ 0 <= Stb.y (snd j) /\
  Stb.x (snd j) + FT.width (FT.bitmap (fst j)) <= atlasW /\
  Stb.y (snd j) + FT.rows (FT.bitmap (fst j)) <= atlasH.

Definition apart (j1 j2 : FT.FT_GlyphSlot * Stb.stbrp_rect) : Prop :=
  Stb.x (snd j1) + FT.width (FT.bitmap (fst j1)) <= Stb.x (snd j2) \/
  Stb.x (snd j2) + FT.width (FT.bitmap (fst j2)) <= Stb.x (snd j1) \/
  Stb.y (snd j1) + FT.rows (FT.bitmap (fst j1)) <= Stb.y (snd j2) \/
  Stb.y (snd j2) + FT.rows (FT.bitmap (fst j2)) <= Stb.y (snd j1).

(** The pixels of a rectangle, and rectangles that share none. *)
Definition in_rect (r : Stb.stbrp_rect) (X Y : Z) : Prop :=
  Stb.x r <= X < Stb.x r + Stb.w r /\ Stb.y r <= Y < Stb.y r + Stb.h r.

Definition disjoint (r1 r2 : Stb.stbrp_rect) : Prop :=
  Stb.x r1 + Stb.w r1 <= Stb.x r2 \/ Stb.x r2 + Stb.w r2 <= Stb.x r1 \/
  Stb.y r1 + Stb.h r1 <= Stb.y r2 \/ Stb.y r2 + Stb.h r2 <= Stb.y r1.

(** * Properties *)

(** ** Machine integers *)

Lemma u32_small v : 0 <= v < 2 ^ 32 -> Cxx.u32 v = v.
Proof. intros H. unfold Cxx.u32. apply Z.mod_small. assumption. Qed.

Lemma i32_small v : - 2 ^ 31 <= v < 2 ^ 31 -> Cxx.i32 v = v.
Proof. intros H. unfold Cxx.i32. rewrite Z.mod_small; lia. Qed.

Lemma fits_int_iff v : Cxx.fits_int v = true <-> - 2 ^ 31 <= v < 2 ^ 31.
Proof. unfold Cxx.fits_int. rewrite andb_true_iff, Z.leb_le, Z.ltb_lt. tauto. Qed.

(** ** Outcomes and loops *)

Lemma bind_Done_inv {A B} (m : outcome A) (k : A -> outcome B) b :
  bind m k = Done b -> exists a, m = Done a /\ k a = Done b.
Proof. destruct m; simpl; intros H; try discriminate. eauto. Qed.

Lemma foldM_app {S A} (body : S -> A -> outcome S) l1 l2 s :
  foldM body (l1 ++ l2) s = bind (foldM body l1 s) (foldM body l2).
Proof.
  revert s. induction l1 as [|a l1 IH]; intros s; simpl; [reflexivity|].
  destruct (body s a); simpl; auto.
Qed.

Lemma for_range_Done {S} (body : S -> Z -> outcome S) s r s' :
  for_range body s r = Done s' ->
  snd r <> Cxx.UINT32_MAX /\ foldM body (seqZ (fst r) (snd r + 1 - fst r)) s = Done s'.
Proof.
  destruct r as [first last]. unfold for_range. simpl.
  destruct (Z.eqb_spec last Cxx.UINT32_MAX) as [->|Hne].
  - destruct (foldM body _ s); simpl; discriminate.
  - auto.
Qed.

Lemma for_ranges_Done {S} (body : S -> Z -> outcome S) rs s s' :
  for_ranges body rs s = Done s' ->
  Forall (fun r => snd r <> Cxx.UINT32_MAX) rs /\ foldM body (requested rs) s = Done s'.
Proof.
  unfold for_ranges, requested. revert s.
  induction rs as [|r rs IH]; intros s H; simpl in *.
  - split; [constructor | exact H].
  - apply bind_Done_inv in H as (s1 & H1 & H2).
    apply for_range_Done in H1 as [Hne H1].
    apply IH in H2 as [Hall H2].
    split; [constructor; assumption|].
    rewrite foldM_app, H1. exact H2.
Qed.

(** A body that never leaves the loop early makes the loop run through. *)
Lemma foldM_total {S A} (body : S -> A -> outcome S) l s :
  (forall s a, exists s', body s a = Done s') -> exists s', foldM body l s = Done s'.
Proof.
  intros Hb. revert s. induction l as [|a l IH]; intros s; simpl; [eauto|].
  destruct (Hb s a) as [s1 ->]. simpl. apply IH.
Qed.

(** ** Argument parsing *)

Lemma digit_guard_never_fires ch :
  (Cxx.char_val ch <? 48) && (Cxx.char_val ch >? 57) = false.
Proof.
  destruct (Z.ltb_spec (Cxx.char_val ch) 48); simpl; [|reflexivity].
  rewrite Z.gtb_ltb. apply Z.ltb_ge. lia.
Qed.

(** [ParseInt] has a result for every string it is given. *)
Lemma ParseInt_loop_accepts wrapT str i :
  exists n, Args.ParseInt_loop wrapT str i = Some n.
Proof.
  revert i. induction str as [|ch rest IH]; intros i; simpl; [eauto|].
  rewrite digit_guard_never_fires. apply IH.
Qed.

Lemma ParseInt_rejects_only_missing wrapT str_ :
  Args.ParseInt wrapT str_ = None <-> str_ = None.
Proof.
  destruct str_ as [str|]; simpl; [|tauto].
  destruct (ParseInt_loop_accepts wrapT str 0) as [n ->].
  split; discriminate.
Qed.

(** C8 (the code departs from the claim): [--size abc] is not rejected.
    The run that passes it goes through with size 5451, exits with status
    0 and writes both output files. *)
Theorem malformed_size_is_accepted :
  let argv := ["atlasgen"; "--font"; "f.ttf"; "--out"; "out";
               "--range"; "65"; "66"; "--size"; "abc"] in
  let env := Sample.env Sample.abc_face 1 true in
  Args.ParseInt Cxx.i32 (Some "abc") = Some 5451 /\
  (exists cfg, Args.parse_args (double_to_fixed env) argv = Done cfg /\
               Args.desiredSize cfg = 5451) /\
  Main.status (Main.main env 50 argv) = Done tt /\
  map fst (Main.written (Main.main env 50 argv)) = ["out/atlas.png"; "out/map.json"].
Proof.
  cbv zeta. split; [reflexivity|]. split.
  - eexists. split; vm_compute; reflexivity.
  - split; vm_compute; reflexivity.
Qed.

(** The flag loop never runs out of fuel: every turn consumes at least one
    argument. *)
Lemma Next_index it :
  Args.m_argc (snd (Args.Next it)) = Args.m_argc it /\
  Args.m_index it <= Args.m_index (snd (Args.Next it)) /\
  (fst (Args.Next it) <> None ->
   Args.m_index it < Args.m_index (snd (Args.Next it)) /\ Args.m_index it < Args.m_argc it).
Proof.
  unfold Args.Next. destruct (Z.geb_spec (Args.m_index it) (Args.m_argc it)); simpl.
  - repeat split; try lia; congruence.
  - repeat split; lia.
Qed.

Lemma flag_step_advances to_fixed it cfg r :
  Args.flag_step to_fixed it cfg = Some r ->
  match r with
  | Done (it', cfg') =>
      Args.m_argc it' = Args.m_argc it /\ Args.m_index it < Args.m_index it'
  | Exit _ _ => True
  | Hang | Undefined => False
  end.
Proof.
  unfold Args.flag_step.
  pose proof (Next_index it) as H0.
  destruct (Args.Next it) as [[flag|] it1]; [|discriminate]. simpl in H0.
  destruct H0 as (Hc0 & _ & H0). specialize (H0 ltac:(discriminate)).
  pose proof (Next_index it1) as H1.
  destruct (Args.Next it1) as [a it2]. simpl in H1. destruct H1 as (Hc1 & H1 & _).
  pose proof (Next_index it2) as H2.
  destruct (Args.Next it2) as [b it3]. simpl in H2. destruct H2 as (Hc2 & H2 & _).
  intros [= <-].
  repeat match goal with
         | |- context [if ?c then _ else _] => destruct c
         | |- context [match ?x with Some _ => _ | None => _ end] => destruct x
         end; simpl; auto; lia.
Qed.

Lemma flag_loop_never_hangs to_fixed fuel it cfg :
  Args.m_argc it - Args.m_index it <= Z.of_nat fuel ->
  Args.flag_loop to_fixed fuel it cfg <> Hang.
Proof.
  revert it cfg. induction fuel as [|fuel IH]; intros it cfg Hm; simpl;
    destruct (Args.flag_step to_fixed it cfg) as [r|] eqn:E; try discriminate.
  - exfalso. unfold Args.flag_step in E.
    pose proof (Next_index it) as H0.
    destruct (Args.Next it) as [[flag|] it1]; [|discriminate]. simpl in H0.
    destruct H0 as (_ & _ & H0). specialize (H0 ltac:(discriminate)). lia.
  - apply flag_step_advances in E. destruct r as [[it' cfg']| | |]; simpl;
      [|discriminate|contradiction|contradiction].
    apply IH. lia.
Qed.

(** The flag loop terminates: every turn consumes at least one argument,
    so argument parsing always ends, with a configuration or an exit. *)
Lemma parse_args_never_hangs to_fixed argv : Args.parse_args to_fixed argv <> Hang.
Proof.
  unfold Args.parse_args.
  pose proof (flag_loop_never_hangs to_fixed (length argv) (Args.mkArgIter argv)
                Args.initial_config) as H.
  destruct (Args.flag_loop _ _ _ _) as [cfg| | |]; simpl.
  - destruct (Args.fontPath cfg), (Args.outDir cfg); discriminate.
  - discriminate.
  - exfalso. apply H; [simpl; lia | reflexivity].
  - discriminate.
Qed.

(** ** Range resolution *)

Lemma discover_never_exits face fuel firstChar lastChar acc s msg :
  Resolver.discover face fuel firstChar lastChar acc <> Exit s msg.
Proof.
  revert firstChar lastChar acc.
  induction fuel as [|fuel IH]; intros firstChar lastChar acc; simpl;
    destruct (_ =? 0); try discriminate.
  destruct (negb _); apply IH.
Qed.

(** C10: with no explicit ranges, the run ends with "Font has no charmap"
    exactly when [FT_Get_First_Char] answers character code 0, and it ends
    with no other exit; so a face whose charmap maps code 0 to a real glyph
    is turned away. *)
Theorem no_charmap_iff_first_char_zero (fuel : nat) :
  (forall face,
     (Resolver.resolve face fuel [] = Exit (-1) "Font has no charmap"
      <-> fst (FT.FT_Get_First_Char face) = 0) /\
     (forall s msg, Resolver.resolve face fuel [] = Exit s msg ->
                    s = -1 /\ msg = "Font has no charmap")) /\
  (forall g rest load render m,
     g <> 0 ->
     Resolver.resolve (FT.face_of_charmap ((0, g) :: rest) load render m) fuel []
     = Exit (-1) "Font has no charmap").
Proof.
  split.
  - intros face. unfold Resolver.resolve.
    destruct (Z.eqb_spec (fst (FT.FT_Get_First_Char face)) 0) as [E|E].
    + split; [tauto|]. intros s msg [= <- <-]. auto.
    + split; [split; intros H|intros s msg H].
      * exfalso. eapply discover_never_exits, H.
      * contradiction.
      * exfalso. eapply discover_never_exits, H.
  - intros g rest load render m Hg. unfold Resolver.resolve. simpl.
    unfold FT.charmap_first, FT.charmap_index. simpl.
    destruct (Z.eqb_spec g 0); [contradiction|]. reflexivity.
Qed.

Lemma no_charmap_iff_first_char_zero_witness :
  1 <> 0 /\
  Resolver.resolve
    (FT.face_of_charmap [(0, 1); (65, 2)] (fun k => (0, Sample.slot 8 8 512))
       (fun s _ => (0, s)) Sample.metrics) 10 []
  = Exit (-1) "Font has no charmap".
Proof.
  split; [lia|].
  apply (proj2 (no_charmap_iff_first_char_zero 10)). lia.
Defined.

(** ** Packing *)

Lemma grow_stuck t : 0 <= t <= 4 -> Packer.grow t = t.
Proof.
  intros H.
  assert (t = 0 \/ t = 1 \/ t = 2 \/ t = 3 \/ t = 4) as Ht by lia.
  destruct Ht as [->|[->|[->|[->| ->]]]]; reflexivity.
Qed.

(** As long as both sides of the canvas are at most 4 and some rectangle
    is wider than the canvas, every retry sees the same canvas again. *)
Lemma pack_loop_stuck_width pack (Hpack : Stb.packer_ok pack) fuel targetW targetH nodes rects :
  0 <= targetW <= 4 ->
  0 <= targetH <= 4 ->
  Exists (fun d => targetW < fst d) (map Stb.dims rects) ->
  Packer.pack_loop pack fuel targetW targetH nodes rects = Hang.
Proof.
  intros Ht Hth. revert nodes rects.
  induction fuel as [|fuel IH]; intros nodes rects Hbig; simpl; [reflexivity|].
  destruct (pack targetW targetH nodes rects) as [ok rects'] eqn:E.
  pose proof (Stb.pack_dims pack Hpack targetW targetH nodes rects) as Hd.
  pose proof (Stb.pack_inside pack Hpack targetW targetH nodes rects) as Hin.
  rewrite E in Hd, Hin. simpl in Hd, Hin.
  destruct (Z.eqb_spec ok 0) as [->|Hok]; simpl.
  - rewrite (grow_stuck targetW Ht), (grow_stuck targetH Hth).
    rewrite (proj2 (fits_int_iff targetW)), (proj2 (fits_int_iff targetH)) by lia.
    simpl. apply IH. rewrite Hd. exact Hbig.
  - exfalso. specialize (Hin Hok).
    rewrite <- Hd in Hbig. apply Exists_exists in Hbig as (d & Hd1 & Hd2).
    apply list_elem_of_In, in_map_iff in Hd1 as (r & <- & Hr).
    rewrite Forall_forall in Hin.
    specialize (Hin r (proj2 (list_elem_of_In _ _) Hr)).
    unfold Stb.inside in Hin. simpl in Hd2. lia.
Qed.

Lemma row_packer_ok : Stb.packer_ok Stb.row_packer.
Proof.
  assert (Hdims : forall rs cx, map Stb.dims (Stb.place_row cx rs) = map Stb.dims rs).
  { induction rs as [|r rs IH]; intros cx; simpl; [reflexivity|].
    rewrite IH. reflexivity. }
  split.
  - intros cw ch n rs. unfold Stb.row_packer.
    destruct (Stb.row_fits _ _ _); simpl; [apply Hdims|].
    rewrite map_map. reflexivity.
  - intros cw ch n rs. unfold Stb.row_packer.
    destruct (Stb.row_fits cw ch (Stb.place_row 0 rs)) eqn:E; simpl; [intros _|congruence].
    unfold Stb.row_fits in E. rewrite forallb_forall in E.
    assert (Hy0 : forall rs cx, Forall (fun r => Stb.y r = 0) (Stb.place_row cx rs)).
    { induction rs0 as [|r rs0 IH]; intros cx; simpl; constructor; auto. }
    apply Forall_forall. intros r Hr.
    pose proof (proj1 (Forall_forall _ _) (Hy0 rs 0) r Hr) as Hyr.
    specialize (E r (proj1 (list_elem_of_In _ _) Hr)).
    apply andb_prop in E as [E Eh']. apply andb_prop in E as [E Ew'].
    apply andb_prop in E as [E Eh]. apply andb_prop in E as [Ex Ew].
    apply Z.leb_le in Ex, Ew, Eh. apply Z.ltb_lt in Ew', Eh'.
    simpl in Hyr. unfold Stb.inside. lia.
Qed.

(** C3 (the code departs from the claim): one glyph of 10 by 10 pixels
    gives one rectangle of 12 by 12 and a first canvas of 3 by 3.  The
    growth step maps 3 to 3, so whatever the packing primitive, the loop
    has not ended after any number of turns. *)
Theorem small_atlas_never_packs (pack : Stb.packer) (Hpack : Stb.packer_ok pack)
    (fuel : nat) :
  let glyph := Collector.glyph_of_slot 1 (Sample.slot 10 10 640) in
  Packer.grow 3 = 3 /\
  Packer.pack_atlas pack fuel 10 10 [Collector.padded_rect glyph] = Hang.
Proof.
  cbv zeta. split; [reflexivity|].
  unfold Packer.pack_atlas.
  rewrite pack_loop_stuck_width; [reflexivity | assumption | | | ].
  - vm_compute. split; discriminate.
  - vm_compute. split; discriminate.
  - constructor. vm_compute. reflexivity.
Qed.

Lemma small_atlas_never_packs_witness :
  Stb.packer_ok Stb.row_packer /\
  Packer.pack_atlas Stb.row_packer 1000 10 10
    [Collector.padded_rect (Collector.glyph_of_slot 1 (Sample.slot 10 10 640))] = Hang.
Proof.
  split; [exact row_packer_ok|].
  exact (proj2 (small_atlas_never_packs Stb.row_packer row_packer_ok 1000)).
Defined.

(** ** The glyph table *)

Lemma try_emplace_found k v m :
  snd (try_emplace k v m) = false ->
  fst (try_emplace k v m) = m /\ In k (map fst m).
Proof.
  induction m as [|[k' v'] m IH]; simpl; [discriminate|].
  destruct (Z.ltb_spec k k'); simpl; [discriminate|].
  destruct (Z.eqb_spec k k') as [->|Hne]; simpl; [auto|].
  destruct (try_emplace k v m) as [rest' b]; simpl in *.
  intros Hb. destruct (IH Hb) as [-> Hin]. auto.
Qed.

(** A fresh key goes between the smaller and the larger keys. *)
Lemma try_emplace_new k v m :
  StronglySorted Z.lt (map fst m) ->
  snd (try_emplace k v m) = true ->
  exists l1 l2,
    m = l1 ++ l2 /\
    fst (try_emplace k v m) = l1 ++ (k, v) :: l2 /\
    Forall (fun e => fst e < k) l1 /\
    Forall (fun e => k < fst e) l2.
Proof.
  induction m as [|[k' v'] m IH]; simpl; intros Hs Hb.
  - exists [], []. repeat split; constructor.
  - apply StronglySorted_inv in Hs as [Hs Hlt].
    destruct (Z.ltb_spec k k'); simpl in *.
    + exists [], ((k', v') :: m). repeat split; [constructor|].
      constructor; [assumption|].
      rewrite Forall_forall in Hlt. apply Forall_forall. intros e He.
      assert (k' < fst e); [|lia].
      apply Hlt, list_elem_of_In, in_map, list_elem_of_In, He.
    + destruct (Z.eqb_spec k k') as [->|Hne]; simpl in *; [discriminate|].
      destruct (try_emplace k v m) as [rest' b] eqn:E; simpl in *.
      destruct (IH Hs Hb) as (l1 & l2 & -> & -> & H1 & H2).
      exists ((k', v') :: l1), l2. repeat split; [|assumption].
      constructor; [simpl; lia | assumption].
Qed.

Lemma assign_fresh k v v' l1 l2 :
  Forall (fun e => fst e < k) l1 ->
  Forall (fun e => k < fst e) l2 ->
  assign k v' (l1 ++ (k, v) :: l2) = l1 ++ (k, v') :: l2.
Proof.
  intros H1 H2. unfold assign.
  assert (Hid : forall l, Forall (fun e => fst e <> k) l ->
                          map (fun e : Z * GlyphData => if fst e =? k then (k, v') else e) l = l).
  { induction l as [|e l IH]; intros Hl; simpl; [reflexivity|].
    apply Forall_cons in Hl as [He Hl]. rewrite IH by assumption.
    destruct (Z.eqb_spec (fst e) k); [contradiction | reflexivity]. }
  rewrite map_app. simpl. rewrite Z.eqb_refl.
  rewrite !Hid; [reflexivity | |].
  - eapply Forall_impl; [exact H2|]. simpl. intros; lia.
  - eapply Forall_impl; [exact H1|]. simpl. intros; lia.
Qed.

Lemma sorted_insert_middle k (l1 l2 : glyph_map) v :
  StronglySorted Z.lt (map fst (l1 ++ l2)) ->
  Forall (fun e => fst e < k) l1 ->
  Forall (fun e => k < fst e) l2 ->
  StronglySorted Z.lt (map fst (l1 ++ (k, v) :: l2)).
Proof.
  rewrite !map_app. simpl. rewrite !StronglySorted_app.
  intros (Hx & Hs1 & Hs2) H1 H2. repeat split; [|assumption|].
  - intros x1 x2 Hx1 Hx2.
    apply list_elem_of_In, in_map_iff in Hx1 as (e1 & <- & He1).
    rewrite Forall_forall in H1. specialize (H1 e1 (proj2 (list_elem_of_In _ _) He1)).
    apply elem_of_cons in Hx2 as [->|Hx2]; [assumption|].
    apply list_elem_of_In, in_map_iff in Hx2 as (e2 & <- & He2).
    rewrite Forall_forall in H2. specialize (H2 e2 (proj2 (list_elem_of_In _ _) He2)). lia.
  - constructor; [assumption|].
    apply Forall_forall. intros x Hx'.
    apply list_elem_of_In, in_map_iff in Hx' as (e2 & <- & He2).
    rewrite Forall_forall in H2. apply H2, list_elem_of_In, He2.
Qed.

(** ** First-met order *)

Lemma index_of_app_in k l l' : In k l -> index_of k (l ++ l') = index_of k l.
Proof.
  induction l as [|a l IH]; simpl; [tauto|].
  intros [->|H]; [rewrite Z.eqb_refl; reflexivity|].
  destruct (k =? a); [reflexivity|]. rewrite IH; auto.
Qed.

Lemma index_of_app_fresh k l : ~ In k l -> index_of k (l ++ [k]) = length l.
Proof.
  induction l as [|a l IH]; simpl; intros H.
  - rewrite Z.eqb_refl. reflexivity.
  - destruct (Z.eqb_spec k a) as [->|Hne]; [tauto|]. rewrite IH; tauto.
Qed.

Lemma index_of_lt k l : In k l -> (index_of k l < length l)%nat.
Proof.
  induction l as [|a l IH]; simpl; [tauto|].
  intros H. destruct (Z.eqb_spec k a) as [->|Hne]; [lia|].
  destruct H as [->|H]; [congruence|]. specialize (IH H). lia.
Qed.

Lemma index_of_lookup k l : In k l -> l !! index_of k l = Some k.
Proof.
  induction l as [|a l IH]; simpl; [tauto|].
  intros H. destruct (Z.eqb_spec k a) as [->|Hne]; [reflexivity|].
  destruct H as [->|H]; [congruence|]. simpl. auto.
Qed.

Lemma index_of_at (l : list Z) i k : NoDup l -> l !! i = Some k -> index_of k l = i.
Proof.
  intros Hnd Hi.
  assert (Hin : In k l) by (apply list_elem_of_In, list_elem_of_lookup; eauto).
  eapply NoDup_lookup; [exact Hnd | apply index_of_lookup, Hin | exact Hi].
Qed.

Lemma note_NoDup seen k : NoDup seen -> NoDup (note seen k).
Proof.
  intros H. unfold note. case_bool_decide; [assumption|].
  apply NoDup_app. repeat split; [assumption| |apply NoDup_singleton].
  intros x Hx Hx'. apply list_elem_of_singleton in Hx'. subst. contradiction.
Qed.

Lemma note_elem seen k x : x ∈ note seen k <-> x ∈ seen \/ x = k.
Proof.
  unfold note. case_bool_decide.
  - split; [auto|]. intros [H'| ->]; assumption.
  - rewrite elem_of_app, list_elem_of_singleton. tauto.
Qed.

Lemma fold_note_NoDup ks seen : NoDup seen -> NoDup (fold_left note ks seen).
Proof.
  revert seen. induction ks as [|k ks IH]; intros seen H; simpl; [assumption|].
  apply IH, note_NoDup, H.
Qed.

Lemma fold_note_elem ks seen x :
  x ∈ fold_left note ks seen <-> x ∈ seen \/ x ∈ ks.
Proof.
  revert seen. induction ks as [|k ks IH]; intros seen; simpl.
  - rewrite elem_of_nil. tauto.
  - rewrite IH, note_elem, elem_of_cons. tauto.
Qed.

Lemma first_seen_elem ks x : x ∈ first_seen ks <-> x ∈ ks.
Proof. unfold first_seen. rewrite fold_note_elem, elem_of_nil. tauto. Qed.

(** ** Glyph collection *)

Lemma collected_initial face : collected face [] Collector.initial.
Proof. split; simpl; try constructor; tauto. Qed.

Lemma rect_slot_snoc_old face seen k k' :
  In k' seen -> rect_slot face (seen ++ [k]) k' = rect_slot face seen k'.
Proof.
  intros Hin. unfold rect_slot, packed_order.
  destruct (Collector.has_area (record_of face k')) eqn:Ha; [|reflexivity].
  rewrite List.filter_app, index_of_app_in; [reflexivity|].
  apply filter_In. auto.
Qed.

Lemma collect_cp_collected face seen st cp st' :
  collected face seen st ->
  Collector.collect_cp face st cp = Done st' ->
  collected face (note seen (FT.FT_Get_Char_Index face cp)) st'.
Proof.
  intros [Hs Hk Hnd Hr Hrec]. unfold Collector.collect_cp.
  set (k := FT.FT_Get_Char_Index face cp).
  destruct (try_emplace k zero_glyph (Collector.glyphs st)) as [glyphs' ins] eqn:E.
  destruct ins; simpl.
  - (* a glyph index not met before *)
    pose proof (try_emplace_new k zero_glyph _ Hs) as Hnew.
    rewrite E in Hnew. destruct (Hnew eq_refl) as (l1 & l2 & Hm & Hg & H1 & H2).
    simpl in Hg. subst glyphs'.
    assert (Hfresh : ~ In k seen).
    { rewrite <- Hk, Hm, map_app, in_app_iff, !in_map_iff.
      rewrite Forall_forall in H1, H2.
      intros [(e & He & Hin)|(e & He & Hin)].
      - specialize (H1 e (proj2 (list_elem_of_In _ _) Hin)). lia.
      - specialize (H2 e (proj2 (list_elem_of_In _ _) Hin)). lia. }
    assert (Hnote : note seen k = seen ++ [k]).
    { unfold note. rewrite bool_decide_eq_false_2; [reflexivity|].
      rewrite list_elem_of_In. assumption. }
    rewrite Hnote.
    destruct (FT.FT_Load_Glyph face k) as [err slot] eqn:El.
    destruct (CheckFtErr err) as [[]| | |] eqn:Ec; simpl; try discriminate.
    assert (Hrecord : Collector.glyph_of_slot k slot = record_of face k).
    { unfold record_of. rewrite El. reflexivity. }
    rewrite Hrecord.
    assert (Hold : Forall (fun e => snd e = Collector.set_rectIndex (record_of face (fst e))
                                             (rect_slot face (seen ++ [k]) (fst e)))
                          (l1 ++ l2)).
    { apply Forall_forall. intros e He. rewrite <- Hm in He.
      rewrite Forall_forall in Hrec.
      rewrite rect_slot_snoc_old; [apply Hrec, He|].
      apply Hk, in_map, list_elem_of_In, He. }
    assert (Hkeys : forall v k0, In k0 (map fst (l1 ++ (k, v) :: l2)) <-> In k0 (seen ++ [k])).
    { intros v k0. rewrite map_app, !in_app_iff. simpl.
      rewrite <- Hk, Hm, map_app, in_app_iff. intuition auto. }
    assert (Hsorted : forall v, StronglySorted Z.lt (map fst (l1 ++ (k, v) :: l2))).
    { intros v. apply sorted_insert_middle; [rewrite <- Hm|..]; assumption. }
    assert (Hnd' : NoDup (seen ++ [k])) by (rewrite <- Hnote; apply note_NoDup, Hnd).
    destruct (Collector.has_area (record_of face k)) eqn:Ha; intros [= <-];
      rewrite assign_fresh by assumption; split; simpl; auto.
    + unfold packed_order. rewrite List.filter_app. simpl. rewrite Ha.
      rewrite map_app. simpl. rewrite Hr. reflexivity.
    + apply Forall_app in Hold as [Ho1 Ho2]. apply Forall_app. split; [assumption|].
      constructor; [|assumption]. simpl. f_equal.
      unfold rect_slot. rewrite Ha. unfold packed_order.
      rewrite List.filter_app. simpl. rewrite Ha.
      rewrite index_of_app_fresh.
      * rewrite length_app, Hr, length_map. simpl. unfold packed_order. lia.
      * rewrite filter_In. tauto.
    + unfold packed_order. rewrite List.filter_app. simpl. rewrite Ha.
      rewrite app_nil_r. exact Hr.
    + apply Forall_app in Hold as [Ho1 Ho2]. apply Forall_app. split; [assumption|].
      constructor; [|assumption]. simpl.
      unfold rect_slot. rewrite Ha. reflexivity.
  - (* already stored *)
    intros [= <-].
    pose proof (try_emplace_found k zero_glyph (Collector.glyphs st)) as Hf.
    rewrite E in Hf. destruct (Hf eq_refl) as [_ Hin].
    assert (Hnote : note seen k = seen).
    { unfold note. rewrite bool_decide_eq_true_2; [reflexivity|].
      apply list_elem_of_In, Hk, Hin. }
    rewrite Hnote. split; assumption.
Qed.

Lemma foldM_collect_collected face cps seen st st' :
  collected face seen st ->
  foldM (Collector.collect_cp face) cps st = Done st' ->
  collected face (fold_left note (map (FT.FT_Get_Char_Index face) cps) seen) st'.
Proof.
  revert seen st. induction cps as [|cp cps IH]; intros seen st Hinv H; simpl in *.
  - injection H as <-. assumption.
  - apply bind_Done_inv in H as (st1 & H1 & H2).
    eapply IH; [|exact H2]. eapply collect_cp_collected; eassumption.
Qed.

(** The state [collect] ends in, for the glyph indices of the requested
    codepoints in first-met order. *)
Lemma collect_collected face cpRanges col :
  Collector.collect face cpRanges = Done col ->
  collected face (first_seen (map (FT.FT_Get_Char_Index face) (requested cpRanges))) col.
Proof.
  intros H. apply for_ranges_Done in H as [_ H].
  eapply foldM_collect_collected; [apply collected_initial | exact H].
Qed.

Lemma collected_entry face seen st e :
  collected face seen st -> In e (Collector.glyphs st) ->
  In (fst e) seen /\
  snd e = Collector.set_rectIndex (record_of face (fst e)) (rect_slot face seen (fst e)).
Proof.
  intros Hc He. split.
  - apply (col_keys _ _ _ Hc), in_map, He.
  - pose proof (col_records _ _ _ Hc) as Hrec. rewrite Forall_forall in Hrec.
    apply Hrec, list_elem_of_In, He.
Qed.

Lemma has_area_set_rectIndex g i :
  Collector.has_area (Collector.set_rectIndex g i) = Collector.has_area g.
Proof. reflexivity. Qed.

Lemma padded_rect_set_rectIndex g i :
  Collector.padded_rect (Collector.set_rectIndex g i) = Collector.padded_rect g.
Proof. reflexivity. Qed.

Lemma packed_order_NoDup face seen : NoDup seen -> NoDup (packed_order face seen).
Proof.
  intros H. unfold packed_order. apply NoDup_ListNoDup, List.NoDup_filter, NoDup_ListNoDup, H.
Qed.

(** A glyph with area points at its own padded rectangle; one without
    area points nowhere. *)
Lemma collected_rect_of_glyph face seen st e :
  collected face seen st -> In e (Collector.glyphs st) ->
  if Collector.has_area (snd e)
  then rectIndex (snd e) = Z.of_nat (index_of (fst e) (packed_order face seen)) /\
       Collector.rects st !! index_of (fst e) (packed_order face seen)
       = Some (Collector.padded_rect (snd e))
  else rectIndex (snd e) = Cxx.NO_RECT.
Proof.
  intros Hc He. destruct (collected_entry _ _ _ _ Hc He) as [Hin Hrec].
  rewrite Hrec, has_area_set_rectIndex, padded_rect_set_rectIndex. simpl.
  unfold rect_slot.
  destruct (Collector.has_area (record_of face (fst e))) eqn:Ha; [|reflexivity].
  split; [reflexivity|].
  rewrite (col_rects _ _ _ Hc).
  change (map ?f ?l) with (f <$> l). rewrite list_lookup_fmap.
  rewrite index_of_lookup; [reflexivity|].
  unfold packed_order. apply filter_In. auto.
Qed.

(** Every rectangle belongs to exactly one glyph of the table. *)
Lemma collected_glyph_of_rect face seen st i :
  collected face seen st -> (i < length (Collector.rects st))%nat ->
  exists e, In e (Collector.glyphs st) /\
            Collector.has_area (snd e) = true /\
            rectIndex (snd e) = Z.of_nat i /\
            forall e', In e' (Collector.glyphs st) ->
                       Collector.has_area (snd e') = true ->
                       rectIndex (snd e') = Z.of_nat i -> e' = e.
Proof.
  intros Hc Hi. rewrite (col_rects _ _ _ Hc), length_map in Hi.
  destruct (lookup_lt_is_Some_2 _ _ Hi) as [k Hk].
  pose proof (packed_order_NoDup face seen (col_nodup _ _ _ Hc)) as Hnd.
  assert (Hkin : In k (packed_order face seen))
    by (apply list_elem_of_In, list_elem_of_lookup; eauto).
  pose proof Hkin as Hkin'. unfold packed_order in Hkin'.
  apply filter_In in Hkin' as [Hseen Ha].
  apply (col_keys _ _ _ Hc), in_map_iff in Hseen as (e & Hfst & He).
  exists e. split; [assumption|].
  pose proof (collected_rect_of_glyph _ _ _ _ Hc He) as Hre.
  destruct (collected_entry _ _ _ _ Hc He) as [_ Hrec].
  assert (Hae : Collector.has_area (snd e) = true).
  { rewrite Hrec, has_area_set_rectIndex, Hfst. exact Ha. }
  rewrite Hae in Hre. destruct Hre as [Hidx _].
  split; [assumption|]. split.
  - rewrite Hidx, Hfst. f_equal. apply index_of_at; assumption.
  - intros e' He' Hae' Hidx'.
    pose proof (collected_rect_of_glyph _ _ _ _ Hc He') as Hre'.
    destruct (collected_entry _ _ _ _ Hc He') as [Hin' Hrec'].
    rewrite Hae' in Hre'. destruct Hre' as [Hi' _].
    assert (Hk' : fst e' = k).
    { assert (Hin2 : In (fst e') (packed_order face seen)).
      { unfold packed_order. apply filter_In. split; [assumption|].
        rewrite Hrec', has_area_set_rectIndex in Hae'. exact Hae'. }
      pose proof (index_of_lookup _ _ Hin2) as Hl.
      rewrite Hi' in Hidx'. apply Nat2Z.inj in Hidx'. rewrite Hidx' in Hl. congruence. }
    destruct e as [ke ge], e' as [ke' ge']. simpl in *. subst. reflexivity.
Qed.

(** C9 (as amended): the rectangle list is in one-to-one correspondence
    with the glyph records that have area, through [rectIndex], and it is
    ordered by when each glyph index was first met while walking the
    requested codepoints, not by glyph index. *)
Theorem rects_one_to_one_in_first_met_order face cpRanges col :
  Collector.collect face cpRanges = Done col ->
  let seen := first_seen (map (FT.FT_Get_Char_Index face) (requested cpRanges)) in
  Collector.rects col
  = map (fun k => Collector.padded_rect (record_of face k)) (packed_order face seen) /\
  (forall e, In e (Collector.glyphs col) ->
     if Collector.has_area (snd e)
     then rectIndex (snd e) = Z.of_nat (index_of (fst e) (packed_order face seen)) /\
          Collector.rects col !! index_of (fst e) (packed_order face seen)
          = Some (Collector.padded_rect (snd e))
     else rectIndex (snd e) = Cxx.NO_RECT) /\
  (forall i, (i < length (Collector.rects col))%nat ->
     exists e, In e (Collector.glyphs col) /\
               Collector.has_area (snd e) = true /\
               rectIndex (snd e) = Z.of_nat i /\
               forall e', In e' (Collector.glyphs col) ->
                          Collector.has_area (snd e') = true ->
                          rectIndex (snd e') = Z.of_nat i -> e' = e).
Proof.
  intros H seen. pose proof (collect_collected _ _ _ H) as Hc. fold seen in Hc.
  split; [apply (col_rects _ _ _ Hc)|]. split.
  - intros e He. apply collected_rect_of_glyph; assumption.
  - intros i Hi. eapply collected_glyph_of_rect; eassumption.
Qed.

(** ** Bounds that come from the C types *)

Lemma seen_count_bounded (seen : list Z) :
  NoDup seen -> (forall k, In k seen -> 0 <= k < 2 ^ 32) ->
  Z.of_nat (length seen) <= 2 ^ 32.
Proof.
  intros Hnd Hr.
  assert (Hsub : seen ⊆+ seqZ 0 (2 ^ 32)).
  { apply NoDup_submseteq; [assumption|].
    intros k Hk. apply elem_of_seqZ. apply list_elem_of_In, Hr in Hk. lia. }
  apply submseteq_length in Hsub. rewrite length_seqZ in Hsub. lia.
Qed.

Lemma seen_typed face cps k :
  face_typed face ->
  In k (first_seen (map (FT.FT_Get_Char_Index face) cps)) -> 0 <= k < 2 ^ 32.
Proof.
  intros Ht Hk. apply list_elem_of_In, first_seen_elem, list_elem_of_In, in_map_iff in Hk
    as (cp & <- & _).
  apply (index_typed _ Ht).
Qed.

Lemma packed_order_length face seen :
  (length (packed_order face seen) <= length seen)%nat.
Proof. unfold packed_order. apply List.filter_length_le. Qed.

(** ** Compositing *)

Lemma composite_rects face mono pitch glyphs rects bmp rects' bmp' :
  foldM (Compositor.composite_glyph face mono pitch) glyphs (rects, bmp) = Done (rects', bmp') ->
  rects' = fold_left (fun rs i => alter Compositor.remove_padding i rs) (omap target glyphs) rects.
Proof.
  revert rects bmp. induction glyphs as [|e glyphs IH]; intros rects bmp H; simpl in *.
  - congruence.
  - apply bind_Done_inv in H as ([rects1 bmp1] & H1 & H2).
    apply IH in H2. rewrite H2. clear H2 IH.
    unfold Compositor.composite_glyph in H1. unfold target at 2.
    destruct (rectIndex (snd e) =? Cxx.NO_RECT); [injection H1 as <- <-; reflexivity|].
    simpl. f_equal.
    destruct (FT.FT_Load_Glyph face (glyphIndex (snd e))) as [err slot].
    destruct (CheckFtErr err); simpl in H1; try discriminate.
    destruct (FT.format_is_bitmap slot); simpl in H1.
    + repeat (destruct (_ =? _) in H1); simpl in H1;
        first [discriminate
              | apply bind_Done_inv in H1 as (b & _ & H1); injection H1 as <- <-;
                reflexivity].
    + destruct (FT.FT_Render_Glyph face slot _) as [err' slot'].
      destruct (CheckFtErr err'); simpl in H1; try discriminate.
      repeat (destruct (_ =? _) in H1); simpl in H1;
        first [discriminate
              | apply bind_Done_inv in H1 as (b & _ & H1); injection H1 as <- <-;
                reflexivity].
Qed.

Lemma composite_Done face mono glyphs rects atlasW atlasH r :
  Compositor.composite face mono glyphs rects atlasW atlasH = Done r ->
  Cxx.fits_int (atlasW * atlasH) = true /\
  foldM (Compositor.composite_glyph face mono (Cxx.u64 atlasW)) glyphs
    (rects, replicate (Z.to_nat (Cxx.u64 (atlasW * atlasH))) 0) = Done r.
Proof.
  unfold Compositor.composite. destruct (Cxx.fits_int _); [auto | discriminate].
Qed.

Lemma alter_each_lookup {A} (f : A -> A) (idxs : list nat) (l : list A) j :
  NoDup idxs ->
  fold_left (fun rs i => alter f i rs) idxs l !! j
  = if bool_decide (j ∈ idxs) then f <$> l !! j else l !! j.
Proof.
  revert l. induction idxs as [|i idxs IH]; intros l Hnd; simpl; [reflexivity|].
  apply NoDup_cons in Hnd as [Hi Hnd]. rewrite IH by assumption.
  destruct (decide (j = i)) as [->|Hne].
  - rewrite (bool_decide_eq_false_2 (i ∈ idxs)) by assumption.
    rewrite bool_decide_eq_true_2 by left. apply list_lookup_alter_eq.
  - rewrite list_lookup_alter_ne by congruence.
    destruct (decide (j ∈ idxs)) as [Hin|Hnin].
    + rewrite !bool_decide_eq_true_2; [reflexivity | right | ]; assumption.
    + rewrite !bool_decide_eq_false_2; [reflexivity | | assumption].
      rewrite elem_of_cons. tauto.
Qed.

Lemma alter_each_all {A} (f : A -> A) (idxs : list nat) (l : list A) :
  NoDup idxs -> (forall j, (j < length l)%nat -> j ∈ idxs) ->
  fold_left (fun rs i => alter f i rs) idxs l = map f l.
Proof.
  intros Hnd Hall. apply list_eq. intros j.
  rewrite alter_each_lookup by assumption.
  change (map f l) with (f <$> l). rewrite list_lookup_fmap.
  destruct (decide (j < length l)%nat) as [Hlt|Hge].
  - rewrite bool_decide_eq_true_2 by auto. reflexivity.
  - rewrite (lookup_ge_None_2 l j) by lia. destruct (bool_decide _); reflexivity.
Qed.

Section CollectedTargets.
Context (face : FT.FT_Face) (seen : list Z) (st : Collector.state).
Hypothesis Hc : collected face seen st.
Hypothesis Hsmall : Z.of_nat (length seen) <= 2 ^ 32.

Lemma target_collected e :
  In e (Collector.glyphs st) ->
  target e = if Collector.has_area (snd e)
             then Some (index_of (fst e) (packed_order face seen)) else None.
Proof.
  intros He. pose proof (collected_rect_of_glyph _ _ _ _ Hc He) as Hr.
  destruct (collected_entry _ _ _ _ Hc He) as [Hin Hrec].
  unfold target. destruct (Collector.has_area (snd e)) eqn:Ha.
  - destruct Hr as [Hr _]. rewrite Hr.
    assert (index_of (fst e) (packed_order face seen) < length (packed_order face seen))%nat.
    { apply index_of_lt. unfold packed_order. apply filter_In. split; [assumption|].
      rewrite Hrec, has_area_set_rectIndex in Ha. exact Ha. }
    pose proof (packed_order_length face seen).
    destruct (Z.eqb_spec (Z.of_nat (index_of (fst e) (packed_order face seen))) Cxx.NO_RECT)
      as [E|E].
    + unfold Cxx.NO_RECT in E. lia.
    + rewrite Nat2Z.id. reflexivity.
  - rewrite Hr, Z.eqb_refl. reflexivity.
Qed.

Lemma targets_NoDup_part (l : glyph_map) :
  StronglySorted Z.lt (map fst l) ->
  (forall e, In e l -> In e (Collector.glyphs st)) ->
  NoDup (omap target l).
Proof.
  induction l as [|e l IH]; intros Hs Hsub; simpl; [constructor|].
  apply StronglySorted_inv in Hs as [Hs Hlt].
  specialize (IH Hs (fun e' H => Hsub e' (or_intror H))).
  destruct (target e) as [i|] eqn:Et; [|assumption].
  constructor; [|assumption].
  intros Hin. apply list_elem_of_omap in Hin as (e' & He' & Et').
  apply list_elem_of_In in He'.
  rewrite target_collected in Et, Et' by auto using in_eq, in_cons.
  destruct (Collector.has_area (snd e)) eqn:Ha; [|discriminate].
  destruct (Collector.has_area (snd e')) eqn:Ha'; [|discriminate].
  injection Et as <-. injection Et' as Et'.
  assert (Hmem : forall e0, In e0 (Collector.glyphs st) -> Collector.has_area (snd e0) = true ->
                            In (fst e0) (packed_order face seen)).
  { intros e0 He0 Ha0. destruct (collected_entry _ _ _ _ Hc He0) as [Hin0 Hrec0].
    unfold packed_order. apply filter_In. split; [assumption|].
    rewrite Hrec0, has_area_set_rectIndex in Ha0. exact Ha0. }
  pose proof (index_of_lookup _ _ (Hmem e (Hsub e (in_eq _ _)) Ha)) as L1.
  pose proof (index_of_lookup _ _ (Hmem e' (Hsub e' (in_cons _ _ _ He')) Ha')) as L2.
  rewrite Et' in L2. assert (fst e' = fst e) as Heq by congruence.
  rewrite Forall_forall in Hlt.
  specialize (Hlt (fst e') (proj2 (list_elem_of_In _ _) (in_map fst _ _ He'))). lia.
Qed.

Lemma targets_NoDup : NoDup (omap target (Collector.glyphs st)).
Proof. apply targets_NoDup_part; [apply (col_sorted _ _ _ Hc) | auto]. Qed.

Lemma targets_cover j :
  (j < length (Collector.rects st))%nat -> j ∈ omap target (Collector.glyphs st).
Proof.
  intros Hj. destruct (collected_glyph_of_rect _ _ _ _ Hc Hj) as (e & He & Ha & Hi & _).
  apply list_elem_of_omap. exists e. split; [apply list_elem_of_In, He|].
  rewrite target_collected, Ha by assumption. f_equal.
  pose proof (collected_rect_of_glyph _ _ _ _ Hc He) as Hr. rewrite Ha in Hr.
  destruct Hr as [Hr _]. rewrite Hr in Hi. apply Nat2Z.inj in Hi. exact Hi.
Qed.

(** The compositor strips the padding of every rectangle, once. *)
Lemma composite_strips_padding mono pitch rects bmp rects' bmp' :
  length rects = length (Collector.rects st) ->
  foldM (Compositor.composite_glyph face mono pitch) (Collector.glyphs st) (rects, bmp)
  = Done (rects', bmp') ->
  rects' = map Compositor.remove_padding rects.
Proof.
  intros Hlen H. apply composite_rects in H. subst rects'.
  apply alter_each_all; [apply targets_NoDup|].
  intros j Hj. apply targets_cover. lia.
Qed.
End CollectedTargets.

(** ** Packing and the bounding box *)

Lemma pack_loop_Done pack (Hpack : Stb.packer_ok pack) fuel targetW targetH nodes rects packed :
  Packer.pack_loop pack fuel targetW targetH nodes rects = Done packed ->
  map Stb.dims packed = map Stb.dims rects /\
  exists cw ch, Forall (Stb.inside cw ch) packed.
Proof.
  revert targetW targetH nodes rects.
  induction fuel as [|fuel IH]; intros targetW targetH nodes rects H; simpl in H;
    [discriminate|].
  pose proof (Stb.pack_dims pack Hpack targetW targetH nodes rects) as Hd.
  pose proof (Stb.pack_inside pack Hpack targetW targetH nodes rects) as Hin.
  destruct (pack targetW targetH nodes rects) as [ok rects']. simpl in Hd, Hin.
  destruct (Z.eqb_spec ok 0) as [->|Hok]; simpl in H.
  - destruct (_ && _); [|discriminate].
    apply IH in H as [H1 H2]. split; [congruence | assumption].
  - injection H as <-. split; [assumption|]. eauto.
Qed.

Lemma fold_extend_spec rs box :
  let res := fold_left Packer.extend rs box in
  fst box <= fst res /\ snd box <= snd res /\
  Forall (fun r => Stb.x r + Stb.w r <= fst res /\ Stb.y r + Stb.h r <= snd res) rs /\
  (fst res = fst box \/ Exists (fun r => fst res = Stb.x r + Stb.w r) rs) /\
  (snd res = snd box \/ Exists (fun r => snd res = Stb.y r + Stb.h r) rs).
Proof.
  revert box. induction rs as [|r rs IH]; intros [a b]; simpl.
  - repeat split; auto using Forall_nil with lia.
  - specialize (IH (Packer.extend (a, b) r)).
    destruct IH as (H1 & H2 & H3 & H4 & H5). unfold Packer.extend in *. simpl in *.
    destruct (Z.gtb_spec (Stb.x r + Stb.w r) a), (Z.gtb_spec (Stb.y r + Stb.h r) b);
      simpl in *;
      (repeat split;
       [lia | lia | constructor; [lia | assumption]
       | destruct H4 as [H4|H4];
           [first [left; lia | right; constructor; lia] | right; constructor 2; exact H4]
       | destruct H5 as [H5|H5];
           [first [left; lia | right; constructor; lia] | right; constructor 2; exact H5]]).
Qed.

Lemma remove_padding_exact cw ch r :
  Stb.inside cw ch r -> 3 <= Stb.w r -> 3 <= Stb.h r ->
  Stb.x (Compositor.remove_padding r) = Stb.x r + 1 /\
  Stb.y (Compositor.remove_padding r) = Stb.y r + 1 /\
  Stb.w (Compositor.remove_padding r) = Stb.w r - 2 /\
  Stb.h (Compositor.remove_padding r) = Stb.h r - 2.
Proof.
  unfold Stb.inside, Compositor.remove_padding, Collector.RECT_PAD. simpl.
  intros (Hx & Hy & _ & _ & Hxw & Hyh) Hw Hh.
  repeat split; (rewrite u32_small, i32_small; lia).
Qed.

Lemma padded_rect_dims face k :
  face_typed face -> Collector.has_area (record_of face k) = true ->
  3 <= Stb.w (Collector.padded_rect (record_of face k)) /\
  3 <= Stb.h (Collector.padded_rect (record_of face k)).
Proof.
  intros Ht Ha. destruct (bitmap_typed _ Ht k) as [Hw Hh].
  unfold Collector.has_area, record_of in Ha. simpl in Ha.
  apply negb_true_iff, Z.eqb_neq in Ha.
  assert (FT.width (FT.bitmap (snd (FT.FT_Load_Glyph face k))) <> 0 /\
          FT.rows (FT.bitmap (snd (FT.FT_Load_Glyph face k))) <> 0) as [Hw0 Hh0].
  { split; intros E; rewrite E in Ha; apply Ha;
      [rewrite Z.mul_0_l | rewrite Z.mul_0_r]; reflexivity. }
  unfold Collector.padded_rect, record_of, Collector.RECT_PAD. simpl.
  rewrite !u32_small, !i32_small; lia.
Qed.

(** C4 (as amended): the atlas is the bounding box of the rectangles as
    the packer placed them, padding included.  Measured on the final
    placements, from which the compositor has stripped the padding, the
    atlas width is [max (x + w) + 1] and the height [max (y + h) + 1]; so
    every final rectangle ends one pixel short of the atlas edge or
    earlier. *)
Theorem atlas_is_padded_bounding_box
    pack face cpRanges fuel mono col packed atlasW atlasH final bmp :
  Stb.packer_ok pack ->
  face_typed face ->
  Collector.collect face cpRanges = Done col ->
  Packer.pack_atlas pack fuel (Collector.totalW col) (Collector.totalH col)
    (Collector.rects col) = Done (packed, (atlasW, atlasH)) ->
  Compositor.composite face mono (Collector.glyphs col) packed atlasW atlasH
    = Done (final, bmp) ->
  final <> [] ->
  final = map Compositor.remove_padding packed /\
  Exists (fun r => atlasW = Stb.x r + Stb.w r + 1) final /\
  Forall (fun r => Stb.x r + Stb.w r + 1 <= atlasW) final /\
  Exists (fun r => atlasH = Stb.y r + Stb.h r + 1) final /\
  Forall (fun r => Stb.y r + Stb.h r + 1 <= atlasH) final.
Proof.
  intros Hpack Ht Hcol Hp Hcomp Hne.
  pose proof (collect_collected _ _ _ Hcol) as Hc.
  set (seen := first_seen _) in Hc.
  assert (Hsmall : Z.of_nat (length seen) <= 2 ^ 32).
  { apply seen_count_bounded; [apply (col_nodup _ _ _ Hc)|].
    intros k Hk. eapply seen_typed; eassumption. }
  unfold Packer.pack_atlas in Hp.
  apply bind_Done_inv in Hp as (packed' & Hloop & Hbox).
  injection Hbox as -> Hbox.
  apply (pack_loop_Done _ Hpack) in Hloop as (Hdims & cw & ch & Hin).
  assert (Hlen : length packed = length (Collector.rects col)).
  { rewrite <- (length_map Stb.dims packed), Hdims, length_map. reflexivity. }
  assert (Hfinal : final = map Compositor.remove_padding packed).
  { pose proof (proj2 (composite_Done _ _ _ _ _ _ _ Hcomp)) as Hfold.
    eapply composite_strips_padding; eassumption. }
  split; [assumption|].
  (* every packed rectangle is at least 3 by 3 *)
  assert (Hbig : Forall (fun r => 3 <= Stb.w r /\ 3 <= Stb.h r) packed).
  { assert (Hd : Forall (fun d => 3 <= fst d /\ 3 <= snd d) (map Stb.dims packed)).
    { rewrite Hdims, (col_rects _ _ _ Hc), map_map.
      apply Forall_forall. intros d Hd.
      apply list_elem_of_In, in_map_iff in Hd as (k & <- & Hk).
      unfold packed_order in Hk. apply filter_In in Hk as [_ Ha].
      apply padded_rect_dims; assumption. }
    rewrite Forall_forall in Hd. apply Forall_forall. intros r Hr.
    apply (Hd (Stb.dims r)), list_elem_of_In, in_map, list_elem_of_In, Hr. }
  assert (Hexact : forall r, In r packed ->
            Stb.x (Compositor.remove_padding r) + Stb.w (Compositor.remove_padding r) + 1
            = Stb.x r + Stb.w r /\
            Stb.y (Compositor.remove_padding r) + Stb.h (Compositor.remove_padding r) + 1
            = Stb.y r + Stb.h r /\ 0 < Stb.x r + Stb.w r /\ 0 < Stb.y r + Stb.h r).
  { intros r Hr. apply list_elem_of_In in Hr.
    rewrite Forall_forall in Hin, Hbig.
    specialize (Hin r Hr). specialize (Hbig r Hr).
    destruct (remove_padding_exact cw ch r Hin) as (-> & -> & -> & ->); try tauto.
    unfold Stb.inside in Hin. lia. }
  pose proof (fold_extend_spec packed (0, 0)) as Hspec.
  unfold Packer.bounding_box in Hbox. rewrite Hbox in Hspec. simpl in Hspec.
  destruct Hspec as (_ & _ & Hall & HW & HH).
  assert (Hne' : packed <> []) by (intros ->; subst final; auto).
  destruct packed as [|r0 packed0]; [contradiction|].
  assert (Hr0 := Hexact r0 (in_eq _ _)).
  apply Forall_cons in Hall as Hall0. destruct Hall0 as [[Hw0 Hh0] _].
  destruct HW as [HW|HW]; [lia|]. destruct HH as [HH|HH]; [lia|].
  subst final. rewrite Forall_forall in Hall.
  repeat split.
  - apply Exists_exists in HW as (r & Hr & ->).
    apply Exists_exists. exists (Compositor.remove_padding r).
    split; [apply list_elem_of_In, in_map, list_elem_of_In, Hr|].
    destruct (Hexact r (proj1 (list_elem_of_In _ _) Hr)) as [-> _]. reflexivity.
  - apply Forall_forall. intros r' Hr'.
    apply list_elem_of_In, in_map_iff in Hr' as (r & <- & Hr).
    destruct (Hexact r Hr) as [-> _]. apply Hall, list_elem_of_In, Hr.
  - apply Exists_exists in HH as (r & Hr & ->).
    apply Exists_exists. exists (Compositor.remove_padding r).
    split; [apply list_elem_of_In, in_map, list_elem_of_In, Hr|].
    destruct (Hexact r (proj1 (list_elem_of_In _ _) Hr)) as (_ & -> & _). reflexivity.
  - apply Forall_forall. intros r' Hr'.
    apply list_elem_of_In, in_map_iff in Hr' as (r & <- & Hr).
    destruct (Hexact r Hr) as (_ & -> & _). apply Hall, list_elem_of_In, Hr.
Qed.

(** ** Encoding: the glyphs array *)

Lemma numbers_app a b : Reader.numbers (a ++ b) = Reader.numbers a ++ Reader.numbers b.
Proof. apply omap_app. Qed.

Lemma encode_glyph_numbers rects st e :
  Reader.numbers (Encoder.glyph_out (Encoder.encode_glyph rects st e))
  = Reader.numbers (Encoder.glyph_out st)
    ++ glyph_delta rects (Encoder.prevGlyph st) (Encoder.prevRectX st, Encoder.prevRectY st) (snd e).
Proof.
  unfold Encoder.encode_glyph.
  destruct (Encoder.rect_xy rects (snd e)) as [rx ry] eqn:E. simpl.
  rewrite numbers_app. unfold glyph_delta. rewrite E. simpl.
  destruct (negb _); [rewrite numbers_app, app_nil_r|]; reflexivity.
Qed.

Lemma encode_glyph_prev rects st e :
  Encoder.prevGlyph (Encoder.encode_glyph rects st e) = snd e /\
  (Encoder.prevRectX (Encoder.encode_glyph rects st e),
   Encoder.prevRectY (Encoder.encode_glyph rects st e)) = Encoder.rect_xy rects (snd e) /\
  Encoder.nextJsonId (Encoder.encode_glyph rects st e) = Encoder.nextJsonId st + 1 /\
  Encoder.glyphIdToJsonId (Encoder.encode_glyph rects st e)
  = <[glyphIndex (snd e) := Encoder.nextJsonId st]> (Encoder.glyphIdToJsonId st).
Proof.
  unfold Encoder.encode_glyph.
  destruct (Encoder.rect_xy rects (snd e)) as [rx ry]. simpl. auto.
Qed.

Lemma fold_encode_glyph_numbers rects glyphs st :
  Reader.numbers (Encoder.glyph_out (fold_left (Encoder.encode_glyph rects) glyphs st))
  = Reader.numbers (Encoder.glyph_out st)
    ++ glyph_deltas rects (Encoder.prevGlyph st) (Encoder.prevRectX st, Encoder.prevRectY st) glyphs.
Proof.
  revert st. induction glyphs as [|e glyphs IH]; intros st; simpl.
  - rewrite app_nil_r. reflexivity.
  - rewrite IH, encode_glyph_numbers.
    destruct (encode_glyph_prev rects st e) as (-> & -> & _). rewrite <- app_assoc. reflexivity.
Qed.

Lemma decode_glyph_deltas rects glyphs prev prevXY pe :
  Reader.e_width pe = width prev -> Reader.e_height pe = height prev ->
  Reader.e_leftBearing pe = leftBearing prev -> Reader.e_topBearing pe = topBearing prev ->
  (Reader.e_x pe, Reader.e_y pe) = prevXY ->
  Forall2 (entry_matches rects)
          (Reader.decode_glyphs pe (glyph_deltas rects prev prevXY glyphs)) (map snd glyphs).
Proof.
  revert prev prevXY pe. induction glyphs as [|e glyphs IH];
    intros prev prevXY pe Hw Hh Hl Ht Hxy; simpl; [constructor|].
  destruct (Encoder.rect_xy rects (snd e)) as [rx ry] eqn:E. subst prevXY. simpl.
  constructor.
  - unfold entry_matches. simpl. rewrite E. repeat split; try lia. f_equal; lia.
  - apply IH; simpl; try lia. f_equal; lia.
Qed.

Lemma decode_glyph_advances rects glyphs prev prevXY pe :
  Forall (fun e => (advance (snd e) mod 64 = 0)) glyphs ->
  advance prev mod 64 = 0 ->
  Reader.e_advance pe = Z.shiftr (advance prev) 6 ->
  map Reader.e_advance (Reader.decode_glyphs pe (glyph_deltas rects prev prevXY glyphs))
  = map (fun e => Z.shiftr (advance (snd e)) 6) glyphs.
Proof.
  revert prev prevXY pe. induction glyphs as [|e glyphs IH];
    intros prev prevXY pe Hall Hp Hpe; simpl; [reflexivity|].
  apply Forall_cons in Hall as [He Hall].
  assert (Hsum : Z.shiftr (advance prev) 6 + Z.shiftr (advance (snd e) - advance prev) 6
                 = Z.shiftr (advance (snd e)) 6).
  { rewrite !Z.shiftr_div_pow2 by lia. change (2 ^ 6) with 64.
    apply Z.mod_divide in He, Hp; try lia.
    destruct He as [a ->], Hp as [b ->].
    replace (a * 64 - b * 64) with ((a - b) * 64) by lia.
    rewrite !Z.div_mul by lia. lia. }
  f_equal.
  - rewrite Hpe. exact Hsum.
  - apply IH; try assumption. simpl. rewrite Hpe. exact Hsum.
Qed.


(** The glyphs array read back: one entry per table record, in table
    order, with the record's size, bearings and position. *)
Lemma read_glyphs_matches glyphs rects :
  Forall2 (entry_matches rects)
          (Reader.read_glyphs (Encoder.glyph_out (Encoder.encode_glyphs glyphs rects)))
          (map snd glyphs).
Proof.
  unfold Reader.read_glyphs, Encoder.encode_glyphs.
  rewrite fold_encode_glyph_numbers. simpl.
  apply decode_glyph_deltas; reflexivity.
Qed.

(** With advances in whole pixels the advance column reads back too. *)
Lemma read_glyphs_advance_whole_pixels glyphs rects :
  Forall (fun e => advance (snd e) mod 64 = 0) glyphs ->
  map Reader.e_advance (Reader.read_glyphs (Encoder.glyph_out (Encoder.encode_glyphs glyphs rects)))
  = map (fun e => Z.shiftr (advance (snd e)) 6) glyphs.
Proof.
  intros H. unfold Reader.read_glyphs, Encoder.encode_glyphs.
  rewrite fold_encode_glyph_numbers. simpl.
  apply decode_glyph_advances; [assumption | reflexivity | reflexivity].
Qed.

(** The glyphs array is a well-formed list of numbers. *)
Lemma more_numbers_app a b :
  Reader.more_numbers a = true -> Reader.more_numbers b = true ->
  Reader.more_numbers (a ++ b) = true.
Proof.
  intros Ha Hb.
  assert (H : (Reader.more_numbers a = true -> Reader.more_numbers (a ++ b) = true) /\
              (forall t, Reader.more_numbers (t :: a) = true ->
                         Reader.more_numbers (t :: a ++ b) = true)).
  { clear Ha. induction a as [|x a [IH1 IH2]].
    - split; [auto|]. intros t H. destruct t; discriminate.
    - split; [apply IH2|].
      intros t H. destruct t; try discriminate. destruct x; try discriminate.
      simpl in *. auto. }
  apply H, Ha.
Qed.

Lemma glyph_out_well_formed glyphs rects st :
  (Encoder.nextJsonId st = 0 /\ Encoder.glyph_out st = []) \/
  (0 < Encoder.nextJsonId st /\ Reader.number_list (Encoder.glyph_out st) = true /\
   Encoder.glyph_out st <> []) ->
  Reader.number_list (Encoder.glyph_out (fold_left (Encoder.encode_glyph rects) glyphs st)) = true.
Proof.
  revert st. induction glyphs as [|e glyphs IH]; intros st H; simpl.
  - destruct H as [[_ ->]|(_ & H & _)]; [reflexivity | assumption].
  - apply IH. right.
    destruct (encode_glyph_prev rects st e) as (_ & _ & -> & _).
    unfold Encoder.encode_glyph. destruct (Encoder.rect_xy rects (snd e)) as [rx ry]. simpl.
    destruct H as [[-> ->]|(Hpos & Hwf & Hne)].
    + simpl. split; [lia|]. split; [reflexivity | discriminate].
    + destruct (Z.eqb_spec (Encoder.nextJsonId st) 0) as [E|E]; [lia|]. simpl.
      split; [lia|]. split.
      * destruct (Encoder.glyph_out st) as [|t out]; [contradiction|].
        destruct t; try discriminate. simpl in *.
        rewrite <- app_assoc. apply more_numbers_app; [assumption | reflexivity].
      * destruct (Encoder.glyph_out st); [contradiction | discriminate].
Qed.

(** Whatever the glyph table holds, the glyphs array is a well-formed
    list of numbers: the separator test counts the entries written. *)
Lemma glyphs_array_well_formed glyphs rects :
  Reader.number_list (Encoder.glyph_out (Encoder.encode_glyphs glyphs rects)) = true.
Proof. apply glyph_out_well_formed. left. split; reflexivity. Qed.

(** ** Encoding: sequential ids *)

Lemma fold_encode_glyph_next rects glyphs st :
  Encoder.nextJsonId (fold_left (Encoder.encode_glyph rects) glyphs st)
  = Encoder.nextJsonId st + Z.of_nat (length glyphs).
Proof.
  revert st. induction glyphs as [|e glyphs IH]; intros st; simpl; [lia|].
  rewrite IH. destruct (encode_glyph_prev rects st e) as (_ & _ & -> & _). lia.
Qed.

(** A glyph's sequential id is its position in the table. *)
Lemma encode_glyphs_ids rects (glyphs : list (Z * GlyphData)) i e :
  NoDup (map (fun e => glyphIndex (snd e)) glyphs) ->
  glyphs !! i = Some e ->
  Encoder.json_id (Encoder.glyphIdToJsonId (Encoder.encode_glyphs glyphs rects))
                  (glyphIndex (snd e)) = Z.of_nat i.
Proof.
  unfold Encoder.encode_glyphs, Encoder.json_id.
  revert i e. induction glyphs as [|x glyphs IH] using rev_ind; intros i e Hnd Hi.
  - discriminate.
  - rewrite fold_left_app. simpl.
    destruct (encode_glyph_prev rects
                (fold_left (Encoder.encode_glyph rects) glyphs Encoder.glyph_initial) x)
      as (_ & _ & _ & ->).
    rewrite fold_encode_glyph_next. simpl.
    rewrite map_app in Hnd. apply NoDup_app in Hnd as (Hnd & Hdisj & _).
    destruct (decide (i < length glyphs)%nat) as [Hlt|Hge].
    + rewrite lookup_app_l in Hi by assumption.
      rewrite lookup_insert_ne; [apply IH; assumption|].
      intros Heq. apply (Hdisj (glyphIndex (snd e))).
      * apply list_elem_of_In, in_map_iff. exists e. split; [reflexivity|].
        apply list_elem_of_In, list_elem_of_lookup. eauto.
      * simpl. rewrite Heq. left.
    + rewrite lookup_app_r in Hi by lia.
      destruct (i - length glyphs)%nat as [|n] eqn:En; simpl in Hi; [|discriminate].
      injection Hi as <-. rewrite lookup_insert_eq. simpl. f_equal. lia.
Qed.

Lemma sorted_NoDup (l : list Z) : StronglySorted Z.lt l -> NoDup l.
Proof.
  induction 1 as [|a l Hs IH Hlt]; constructor; [|assumption].
  intros Hin. rewrite Forall_forall in Hlt. specialize (Hlt a Hin). lia.
Qed.

(** ** Encoding: the codepoints array *)

Lemma encode_cps_later face ids cps st st' :
  0 < Encoder.cp_i st ->
  foldM (Encoder.encode_cp face ids) cps st = Done st' ->
  Encoder.cp_out st'
  = Encoder.cp_out st
    ++ comma_pairs (Encoder.lastCp st) (Encoder.lastGlyphJsonId st) (kept_pairs face ids cps).
Proof.
  revert st. induction cps as [|cp cps IH]; intros st Hi H; simpl in H.
  - injection H as <-. simpl. rewrite app_nil_r. reflexivity.
  - unfold Encoder.encode_cp in H. unfold kept_pairs. simpl.
    destruct (Z.eqb_spec (FT.FT_Get_Char_Index face cp) 0) as [E|E]; simpl in H |- *.
    + apply IH in H; simpl; [|lia]. exact H.
    + apply IH in H; simpl; [|lia]. rewrite H. simpl.
      destruct (Z.eqb_spec (Encoder.cp_i st) 0); [lia|]. simpl.
      rewrite <- !app_assoc. reflexivity.
Qed.

Lemma numbers_comma_pairs pc pg l : Reader.numbers (comma_pairs pc pg l) = pair_deltas pc pg l.
Proof.
  revert pc pg. induction l as [|[c g] l IH]; intros pc pg; simpl; [reflexivity|].
  unfold Reader.numbers in *. simpl. rewrite IH. reflexivity.
Qed.

Lemma more_numbers_comma_pairs pc pg l : Reader.more_numbers (comma_pairs pc pg l) = true.
Proof.
  revert pc pg. induction l as [|[c g] l IH]; intros pc pg; simpl; auto.
Qed.

(** The whole array, from the first codepoint on. *)
Lemma encode_cps_first face ids cp cps cs :
  foldM (Encoder.encode_cp face ids) (cp :: cps) Encoder.cp_initial = Done cs ->
  Encoder.cp_out cs
  = if FT.FT_Get_Char_Index face cp =? 0
    then comma_pairs 0 0 (kept_pairs face ids cps)
    else Encoder.Num cp :: Encoder.Comma
         :: Encoder.Num (Encoder.json_id ids (FT.FT_Get_Char_Index face cp))
         :: comma_pairs cp (Cxx.u32 (Encoder.json_id ids (FT.FT_Get_Char_Index face cp)))
                        (kept_pairs face ids cps).
Proof.
  simpl. unfold Encoder.encode_cp at 1.
  destruct (FT.FT_Get_Char_Index face cp =? 0); simpl; intros H;
    apply encode_cps_later in H; simpl; try lia; rewrite H; simpl.
  - reflexivity.
  - rewrite !Z.sub_0_r. reflexivity.
Qed.

Lemma kept_pairs_cons face ids cp cps :
  kept_pairs face ids (cp :: cps)
  = if FT.FT_Get_Char_Index face cp =? 0 then kept_pairs face ids cps
    else (cp, Encoder.json_id ids (FT.FT_Get_Char_Index face cp)) :: kept_pairs face ids cps.
Proof.
  unfold kept_pairs. simpl. destruct (FT.FT_Get_Char_Index face cp =? 0); reflexivity.
Qed.

Lemma encode_cps_numbers face ids cps cs :
  foldM (Encoder.encode_cp face ids) cps Encoder.cp_initial = Done cs ->
  Reader.numbers (Encoder.cp_out cs) = pair_deltas 0 0 (kept_pairs face ids cps).
Proof.
  destruct cps as [|cp cps].
  - simpl. intros [= <-]. reflexivity.
  - intros H. rewrite (encode_cps_first face ids cp cps cs H), kept_pairs_cons.
    destruct (FT.FT_Get_Char_Index face cp =? 0); simpl.
    + apply numbers_comma_pairs.
    + unfold Reader.numbers. simpl. rewrite !Z.sub_0_r. do 2 f_equal.
      apply numbers_comma_pairs.
Qed.

Lemma decode_pair_deltas pc pg l :
  Forall (fun p => 0 <= snd p < 2 ^ 32) l ->
  Reader.decode_codepoints (pc, pg) (pair_deltas pc pg l) = l.
Proof.
  revert pc pg. induction l as [|[c g] l IH]; intros pc pg Hall; simpl; [reflexivity|].
  apply Forall_cons in Hall as [Hg Hall]. simpl in Hg.
  replace (pc + (c - pc)) with c by lia. replace (pg + (g - pg)) with g by lia.
  f_equal. rewrite <- (u32_small g) at 1 by assumption. apply IH, Hall.
Qed.

Lemma decode_pair_deltas_codepoints pc pg pg' l :
  map fst (Reader.decode_codepoints (pc, pg') (pair_deltas pc pg l)) = map fst l.
Proof.
  revert pc pg pg'. induction l as [|[c g] l IH]; intros pc pg pg'; simpl; [reflexivity|].
  f_equal; [lia|]. replace (pc + (c - pc)) with c by lia. apply IH.
Qed.

(** The codepoint column read back: the requested codepoints whose glyph
    index is not 0, in order. *)
Lemma read_codepoints_column face ids cps cs :
  foldM (Encoder.encode_cp face ids) cps Encoder.cp_initial = Done cs ->
  map fst (Reader.read_codepoints (Encoder.cp_out cs))
  = List.filter (fun cp => negb (FT.FT_Get_Char_Index face cp =? 0)) cps.
Proof.
  intros H. unfold Reader.read_codepoints. rewrite (encode_cps_numbers _ _ _ _ H).
  rewrite decode_pair_deltas_codepoints. unfold kept_pairs. rewrite map_map. simpl.
  apply map_id.
Qed.

Lemma read_codepoints_pairs face ids cps cs :
  (forall k, 0 <= Encoder.json_id ids k < 2 ^ 32) ->
  foldM (Encoder.encode_cp face ids) cps Encoder.cp_initial = Done cs ->
  Reader.read_codepoints (Encoder.cp_out cs) = kept_pairs face ids cps.
Proof.
  intros Hids H. unfold Reader.read_codepoints. rewrite (encode_cps_numbers _ _ _ _ H).
  apply decode_pair_deltas. apply Forall_forall. intros p Hp.
  apply list_elem_of_In, in_map_iff in Hp as (cp & <- & _). apply Hids.
Qed.

(** The codepoints array is a well-formed list of numbers exactly when the
    first requested codepoint is written or none is. *)
Lemma codepoints_array_well_formed_iff face ids cp cps cs :
  foldM (Encoder.encode_cp face ids) (cp :: cps) Encoder.cp_initial = Done cs ->
  Reader.number_list (Encoder.cp_out cs) = true <->
  FT.FT_Get_Char_Index face cp <> 0 \/ kept_pairs face ids cps = [].
Proof.
  intros H. rewrite (encode_cps_first face ids cp cps cs H).
  destruct (Z.eqb_spec (FT.FT_Get_Char_Index face cp) 0) as [E|E].
  - destruct (kept_pairs face ids cps) as [|[c g] l]; simpl.
    + tauto.
    + split; [discriminate|]. intros [?|?]; [contradiction | discriminate].
  - simpl. rewrite more_numbers_comma_pairs. tauto.
Qed.

Lemma fold_encode_glyph_ids_range rects glyphs st :
  0 <= Encoder.nextJsonId st ->
  (forall k v, Encoder.glyphIdToJsonId st !! k = Some v -> 0 <= v < Encoder.nextJsonId st) ->
  forall k v,
    Encoder.glyphIdToJsonId (fold_left (Encoder.encode_glyph rects) glyphs st) !! k = Some v ->
    0 <= v < Encoder.nextJsonId st + Z.of_nat (length glyphs).
Proof.
  revert st. induction glyphs as [|e glyphs IH]; intros st Hn Hst k v H; simpl in *.
  - specialize (Hst k v H). lia.
  - destruct (encode_glyph_prev rects st e) as (_ & _ & Hnext & Hids).
    apply IH in H.
    + rewrite Hnext in H. lia.
    + rewrite Hnext. lia.
    + intros k' v'. rewrite Hids, Hnext, lookup_insert.
      case_decide.
      * intros [= <-]. lia.
      * intros H'. specialize (Hst k' v' H'). lia.
Qed.

Lemma json_id_range rects glyphs k :
  0 <= Encoder.json_id (Encoder.glyphIdToJsonId (Encoder.encode_glyphs glyphs rects)) k
    < Z.max 1 (Z.of_nat (length glyphs)).
Proof.
  unfold Encoder.json_id, Encoder.encode_glyphs.
  destruct (_ !! k) as [v|] eqn:E; simpl; [|lia].
  apply fold_encode_glyph_ids_range in E; simpl in *; try lia.
  intros k' v'. rewrite lookup_empty. discriminate.
Qed.

Section CollectedIds.
Context (face : FT.FT_Face) (seen : list Z) (st : Collector.state).
Hypothesis Hc : collected face seen st.

Lemma collected_glyphIndex e : In e (Collector.glyphs st) -> glyphIndex (snd e) = fst e.
Proof.
  intros He. destruct (collected_entry _ _ _ _ Hc He) as [_ ->]. reflexivity.
Qed.

Lemma collected_glyphIndex_keys :
  map (fun e => glyphIndex (snd e)) (Collector.glyphs st) = map fst (Collector.glyphs st).
Proof. apply map_ext_in. intros e He. apply collected_glyphIndex, He. Qed.

Lemma collected_keys_NoDup : NoDup (map fst (Collector.glyphs st)).
Proof. apply sorted_NoDup, (col_sorted _ _ _ Hc). Qed.

Lemma collected_position k :
  In k seen ->
  exists i e, Collector.glyphs st !! i = Some e /\ fst e = k /\
              (forall j e', Collector.glyphs st !! j = Some e' -> fst e' = k -> j = i) /\
              forall rects,
                Encoder.json_id
                  (Encoder.glyphIdToJsonId (Encoder.encode_glyphs (Collector.glyphs st) rects)) k
                = Z.of_nat i.
Proof.
  intros Hk. apply (col_keys _ _ _ Hc), in_map_iff in Hk as (e & Hfst & He).
  apply list_elem_of_In, list_elem_of_lookup in He as [i Hi].
  exists i, e. repeat split; [assumption.. | |].
  - intros j e' Hj Hfst'.
    eapply NoDup_lookup; [apply collected_keys_NoDup | |].
    + change (map fst ?l) with (fst <$> l). rewrite list_lookup_fmap, Hj. simpl.
      rewrite Hfst'. reflexivity.
    + change (map fst ?l) with (fst <$> l). rewrite list_lookup_fmap, Hi. simpl.
      rewrite Hfst. reflexivity.
  - intros rects. rewrite <- Hfst, <- (collected_glyphIndex e).
    + apply encode_glyphs_ids; [|assumption].
      rewrite collected_glyphIndex_keys. apply collected_keys_NoDup.
    + apply list_elem_of_In, list_elem_of_lookup. eauto.
Qed.
End CollectedIds.

Lemma collected_count_bounded face cps st :
  face_typed face ->
  collected face (first_seen (map (FT.FT_Get_Char_Index face) cps)) st ->
  Z.of_nat (length (Collector.glyphs st)) <= 2 ^ 32.
Proof.
  intros Ht Hc. rewrite <- (length_map fst).
  apply seen_count_bounded; [eapply collected_keys_NoDup, Hc|].
  intros k Hk. apply (col_keys _ _ _ Hc) in Hk. eapply seen_typed; eassumption.
Qed.

(** ** The wire format, claim by claim *)

(** C1 (the code departs from the claim): with advances of 9.5 and 10
    pixels (608 and 640 in 26.6 fixed point) the advance column is written
    as 9, 0 and sums up to 9, 9, while the advances in whole pixels are
    9, 10.  The shift is applied to the difference, not to the values. *)
Theorem advance_column_does_not_round_trip :
  let face := Sample.face [(65, 1); (66, 2)] [(1, (30, 30, 608)); (2, (30, 30, 640))] in
  exists col,
    Collector.collect face [(65, 66)] = Done col /\
    let text := Encoder.glyph_out (Encoder.encode_glyphs (Collector.glyphs col)
                                                         (Collector.rects col)) in
    map (fun e => Z.shiftr (advance (snd e)) 6) (Collector.glyphs col) = [9; 10] /\
    map Reader.e_advance (Reader.read_glyphs text) = [9; 9].
Proof.
  cbv zeta. eexists. split; [vm_compute; reflexivity|].
  split; vm_compute; reflexivity.
Qed.


(** C7 (as amended): codepoints that share a glyph index share one
    record of the glyph table, hence one entry of the glyphs array.  When
    that index is not 0, both are written to the codepoints array with
    the entry's position as their sequential id; when it is 0, neither is
    written to the codepoints array. *)
Theorem shared_glyph_one_entry_same_id face cpRanges col rects cs a b :
  face_typed face ->
  Collector.collect face cpRanges = Done col ->
  Encoder.encode_codepoints face
    (Encoder.glyphIdToJsonId (Encoder.encode_glyphs (Collector.glyphs col) rects))
    cpRanges = Done cs ->
  In a (requested cpRanges) -> In b (requested cpRanges) -> a <> b ->
  FT.FT_Get_Char_Index face a = FT.FT_Get_Char_Index face b ->
  exists i e,
    Collector.glyphs col !! i = Some e /\
    fst e = FT.FT_Get_Char_Index face a /\
    (forall j e', Collector.glyphs col !! j = Some e' ->
                  fst e' = FT.FT_Get_Char_Index face a -> j = i) /\
    length (Reader.read_glyphs
              (Encoder.glyph_out (Encoder.encode_glyphs (Collector.glyphs col) rects)))
    = length (Collector.glyphs col) /\
    (FT.FT_Get_Char_Index face a <> 0 ->
       In (a, Z.of_nat i) (Reader.read_codepoints (Encoder.cp_out cs)) /\
       In (b, Z.of_nat i) (Reader.read_codepoints (Encoder.cp_out cs))) /\
    (FT.FT_Get_Char_Index face a = 0 ->
       ~ In a (map fst (Reader.read_codepoints (Encoder.cp_out cs))) /\
       ~ In b (map fst (Reader.read_codepoints (Encoder.cp_out cs)))).
Proof.
  intros Ht Hcol Henc Ha Hb _ Hsame.
  pose proof (collect_collected _ _ _ Hcol) as Hc.
  apply for_ranges_Done in Henc as [_ Henc].
  assert (Hseen : In (FT.FT_Get_Char_Index face a)
                     (first_seen (map (FT.FT_Get_Char_Index face) (requested cpRanges)))).
  { apply list_elem_of_In, first_seen_elem, list_elem_of_In, in_map, Ha. }
  destruct (collected_position _ _ _ Hc _ Hseen) as (i & e & Hi & Hfst & Huniq & Hid).
  exists i, e. split; [assumption|]. split; [assumption|]. split; [assumption|].
  split.
  { pose proof (read_glyphs_matches (Collector.glyphs col) rects) as HF.
    apply Forall2_length in HF. rewrite HF, length_map. reflexivity. }
  assert (Hpairs : Reader.read_codepoints (Encoder.cp_out cs)
                   = kept_pairs face
                       (Encoder.glyphIdToJsonId
                          (Encoder.encode_glyphs (Collector.glyphs col) rects))
                       (requested cpRanges)).
  { apply read_codepoints_pairs; [|exact Henc].
    intros k. pose proof (json_id_range rects (Collector.glyphs col) k).
    pose proof (collected_count_bounded _ _ _ Ht Hc). lia. }
  split.
  - intros Hnz. rewrite Hpairs. unfold kept_pairs.
    split; apply in_map_iff.
    + exists a. rewrite Hid. split; [reflexivity|].
      apply filter_In. split; [assumption|]. apply negb_true_iff, Z.eqb_neq, Hnz.
    + exists b. rewrite <- Hsame, Hid. split; [reflexivity|].
      apply filter_In. split; [assumption|]. rewrite <- Hsame.
      apply negb_true_iff, Z.eqb_neq, Hnz.
  - intros Hz. rewrite (read_codepoints_column _ _ _ _ Henc).
    split; rewrite filter_In; intros [_ Hk].
    + rewrite Hz in Hk. discriminate.
    + rewrite <- Hsame, Hz in Hk. discriminate.
Qed.

(** ** Exit statuses and output files *)

Lemma exits_nonzero_bind {A B} (m : outcome A) (k : A -> outcome B) :
  exits_nonzero m -> (forall a, exits_nonzero (k a)) -> exits_nonzero (bind m k).
Proof. destruct m; simpl; auto. Qed.

Lemma exits_nonzero_foldM {S A} (body : S -> A -> outcome S) l s :
  (forall s a, exits_nonzero (body s a)) -> exits_nonzero (foldM body l s).
Proof.
  intros Hb. revert s. induction l as [|a l IH]; intros s; simpl; [exact I|].
  apply exits_nonzero_bind; auto.
Qed.

Lemma exits_nonzero_for_ranges {S} (body : S -> Z -> outcome S) rs s :
  (forall s a, exits_nonzero (body s a)) -> exits_nonzero (for_ranges body rs s).
Proof.
  intros Hb. apply exits_nonzero_foldM. intros s' [first last]. unfold for_range.
  destruct (last =? Cxx.UINT32_MAX).
  - apply exits_nonzero_bind; [apply exits_nonzero_foldM, Hb | intros; exact I].
  - apply exits_nonzero_foldM, Hb.
Qed.

Lemma exits_nonzero_CheckFtErr err : exits_nonzero (CheckFtErr err).
Proof. unfold CheckFtErr. destruct (err =? 0); simpl; [exact I | discriminate]. Qed.

Lemma exits_nonzero_blit px rows width rect atlasPitch atlasBmp :
  exits_nonzero (Compositor.blit px rows width rect atlasPitch atlasBmp).
Proof.
  unfold Compositor.blit. apply exits_nonzero_foldM. intros bmp y.
  apply exits_nonzero_foldM. intros bmp' x. unfold Compositor.store.
  destruct (_ <? _); exact I.
Qed.

Ltac exits_step :=
  match goal with
  | |- exits_nonzero (bind _ _) => apply exits_nonzero_bind; [|intros]
  | |- exits_nonzero (CheckFtErr _) => apply exits_nonzero_CheckFtErr
  | |- exits_nonzero (Compositor.blit _ _ _ _ _ _) => apply exits_nonzero_blit
  | |- exits_nonzero (Done _) => exact I
  | |- exits_nonzero Hang => exact I
  | |- exits_nonzero Undefined => exact I
  | |- exits_nonzero (Exit (-1) _) => simpl; discriminate
  | |- exits_nonzero (match ?x with _ => _ end) => destruct x
  | |- exits_nonzero (let (_, _) := ?x in _) => destruct x
  end.

Lemma exits_nonzero_flag_step to_fixed it cfg r :
  Args.flag_step to_fixed it cfg = Some r -> exits_nonzero r.
Proof.
  unfold Args.flag_step. destruct (Args.Next it) as [[flag|] it1]; [|discriminate].
  intros [= <-]. repeat exits_step.
Qed.

Lemma exits_nonzero_flag_loop to_fixed fuel it cfg :
  exits_nonzero (Args.flag_loop to_fixed fuel it cfg).
Proof.
  revert it cfg. induction fuel as [|fuel IH]; intros it cfg; simpl;
    destruct (Args.flag_step to_fixed it cfg) as [r|] eqn:E; try exact I.
  apply exits_nonzero_bind; [eapply exits_nonzero_flag_step, E|].
  intros [it' cfg']. apply IH.
Qed.

Lemma exits_nonzero_parse_args to_fixed argv : exits_nonzero (Args.parse_args to_fixed argv).
Proof.
  unfold Args.parse_args. apply exits_nonzero_bind; [apply exits_nonzero_flag_loop|].
  intros cfg. repeat exits_step.
Qed.

Lemma exits_nonzero_axis_coords master axes coords :
  exits_nonzero (Main.axis_coords master axes coords).
Proof.
  revert axes coords. induction master as [|axis master IH]; intros axes coords; simpl;
    [exact I|].
  destruct (Main.find_axis _ _); destruct (_ || _); simpl; try discriminate; apply IH.
Qed.

Lemma exits_nonzero_set_axes env face axes : exits_nonzero (Main.set_axes env face axes).
Proof.
  unfold Main.set_axes. destruct axes; [exact I|].
  destruct (FT_Get_MM_Var env face) as [err master].
  apply exits_nonzero_bind; [apply exits_nonzero_CheckFtErr|]. intros _.
  destruct master; [simpl; discriminate|].
  apply exits_nonzero_bind; [apply exits_nonzero_axis_coords|].
  intros [axes' coords]. repeat exits_step.
Qed.

Lemma exits_nonzero_resolve face fuel cpRanges :
  exits_nonzero (Resolver.resolve face fuel cpRanges).
Proof.
  unfold Resolver.resolve. destruct cpRanges; [|exact I].
  destruct (_ =? 0); [simpl; discriminate|].
  destruct (Resolver.discover face fuel _ _ []) eqn:E; simpl; auto.
  exfalso. eapply discover_never_exits, E.
Qed.

Lemma exits_nonzero_collect face cpRanges : exits_nonzero (Collector.collect face cpRanges).
Proof.
  apply exits_nonzero_for_ranges. intros st cp. unfold Collector.collect_cp.
  destruct (try_emplace _ _ _) as [g ins]. destruct ins; simpl; [|exact I].
  destruct (FT.FT_Load_Glyph face _) as [err slot].
  apply exits_nonzero_bind; [apply exits_nonzero_CheckFtErr|]. intros _.
  destruct (Collector.has_area _); exact I.
Qed.

Lemma exits_nonzero_pack_loop pack fuel tw th n rects :
  exits_nonzero (Packer.pack_loop pack fuel tw th n rects).
Proof.
  revert tw th n rects. induction fuel as [|fuel IH]; intros; simpl; [exact I|].
  destruct (pack tw th n rects) as [ok rects']. destruct (negb _); [exact I|].
  destruct (_ && _); [apply IH | exact I].
Qed.

Lemma exits_nonzero_composite face mono glyphs rects w h :
  exits_nonzero (Compositor.composite face mono glyphs rects w h).
Proof.
  unfold Compositor.composite. destruct (Cxx.fits_int _); [|exact I].
  apply exits_nonzero_foldM. intros [rs bmp] e. unfold Compositor.composite_glyph.
  destruct (_ =? Cxx.NO_RECT); [exact I|].
  destruct (FT.FT_Load_Glyph face _) as [err slot].
  apply exits_nonzero_bind; [apply exits_nonzero_CheckFtErr|]. intros _.
  apply exits_nonzero_bind.
  - destruct (FT.format_is_bitmap slot); [exact I|].
    destruct (FT.FT_Render_Glyph face slot _) as [err' slot'].
    apply exits_nonzero_bind; [apply exits_nonzero_CheckFtErr | intros; exact I].
  - intros slot'. repeat exits_step.
Qed.

Lemma exits_nonzero_assemble env fuel argv : exits_nonzero (Main.assemble env fuel argv).
Proof.
  unfold Main.assemble.
  apply exits_nonzero_bind; [apply exits_nonzero_CheckFtErr|]. intros _.
  apply exits_nonzero_bind; [apply exits_nonzero_parse_args|]. intros cfg.
  destruct (FT_New_Face env _) as [err face].
  apply exits_nonzero_bind; [apply exits_nonzero_CheckFtErr|]. intros _.
  destruct (FT_Set_Pixel_Sizes env face _) as [err' face'].
  apply exits_nonzero_bind; [apply exits_nonzero_CheckFtErr|]. intros _.
  apply exits_nonzero_bind; [apply exits_nonzero_set_axes|]. intros face''.
  apply exits_nonzero_bind; [apply exits_nonzero_resolve|]. intros cpRanges.
  apply exits_nonzero_bind; [apply exits_nonzero_collect|]. intros col.
  apply exits_nonzero_bind.
  { unfold Packer.pack_atlas.
    apply exits_nonzero_bind; [apply exits_nonzero_pack_loop | intros; exact I]. }
  intros [rects [atlasW atlasH]].
  apply exits_nonzero_bind; [apply exits_nonzero_composite|].
  intros [rects' bmp]. exact I.
Qed.

(** The ranges of a finished assembly were walked by the collector. *)
Lemma assemble_collected env fuel argv a :
  Main.assemble env fuel argv = Done a ->
  exists col, Collector.collect (Main.a_face a) (Main.a_cpRanges a) = Done col /\
              Main.a_glyphs a = Collector.glyphs col.
Proof.
  unfold Main.assemble. intros H.
  apply bind_Done_inv in H as (_ & _ & H).
  apply bind_Done_inv in H as (cfg & _ & H).
  destruct (FT_New_Face env _) as [err face].
  apply bind_Done_inv in H as (_ & _ & H).
  destruct (FT_Set_Pixel_Sizes env face _) as [err' face'].
  apply bind_Done_inv in H as (_ & _ & H).
  apply bind_Done_inv in H as (face'' & _ & H).
  apply bind_Done_inv in H as (cpRanges & _ & H).
  apply bind_Done_inv in H as (col & Hcol & H).
  apply bind_Done_inv in H as ([rects [atlasW atlasH]] & _ & H).
  apply bind_Done_inv in H as ([rects' bmp] & _ & H).
  injection H as <-. simpl. eauto.
Qed.

Lemma encode_cp_total face ids st cp : exists st', Encoder.encode_cp face ids st cp = Done st'.
Proof. unfold Encoder.encode_cp. destruct (_ =? 0); eauto. Qed.

Lemma for_ranges_total {S} (body : S -> Z -> outcome S) rs s :
  Forall (fun r => snd r <> Cxx.UINT32_MAX) rs ->
  (forall s a, exists s', body s a = Done s') ->
  exists s', for_ranges body rs s = Done s'.
Proof.
  intros Hrs Hb. unfold for_ranges. revert s.
  induction Hrs as [|[first last] rs Hr Hrs IH]; intros s; simpl; [eauto|].
  simpl in Hr. destruct (Z.eqb_spec last Cxx.UINT32_MAX); [contradiction|].
  destruct (foldM_total body (seqZ first (last + 1 - first)) s Hb) as [s1 ->]. simpl.
  apply IH.
Qed.

Lemma encode_after_assemble env fuel argv a :
  Main.assemble env fuel argv = Done a ->
  exists text,
    Encoder.encode (Main.a_face a) (Main.a_glyphs a) (Main.a_rects a) (Main.a_cpRanges a)
    = Done text.
Proof.
  intros H. apply assemble_collected in H as (col & Hcol & _).
  apply for_ranges_Done in Hcol as [Hrs _].
  unfold Encoder.encode, Encoder.encode_codepoints.
  edestruct (for_ranges_total (Encoder.encode_cp (Main.a_face a)
               (Encoder.glyphIdToJsonId
                  (Encoder.encode_glyphs (Main.a_glyphs a) (Main.a_rects a))))
               (Main.a_cpRanges a) Encoder.cp_initial Hrs) as [cs ->].
  - intros. apply encode_cp_total.
  - simpl. eauto.
Qed.

(** C2 (as amended): what a run leaves behind, case by case.  A failure
    before the output stage ends the run with that stage's non-zero status
    and no file.  In the output stage, a directory that cannot be created
    ends the run with a non-zero status and no file; an atlas image that
    cannot be written ends it with status -1, no sidecar, and of the image
    only what the PNG library has left; a sidecar that cannot be opened
    ends it with status -1 and the image alone on disk; otherwise the run
    ends with status 0 and both files, the image first.  So a run that
    ends with status 0 has written both, and the sidecar is never written
    without the image in front of it. *)
Theorem outputs_written_image_first env fuel argv :
  let r := Main.main env fuel argv in
  (forall s msg, Main.assemble env fuel argv = Exit s msg ->
                 Main.status r = Exit s msg /\ s <> 0 /\ Main.written r = []) /\
  (forall a, Main.assemble env fuel argv = Done a ->
     let outAtlas := Main.atlas_path (Main.a_outDir a) in
     let outMap := Main.map_path (Main.a_outDir a) in
     let png := (outAtlas, Main.PngFile (Main.a_atlasW a) (Main.a_atlasH a)
                             (Main.a_atlasBmp a) (Main.a_atlasW a)) in
     let code := png_image_write_to_file env outAtlas (Main.a_atlasW a) (Main.a_atlasH a)
                   (Main.a_atlasBmp a) (Main.a_atlasW a) in
     (create_directory env (Main.a_outDir a) = false ->
        (exists s msg, Main.status r = Exit s msg /\ s <> 0) /\ Main.written r = []) /\
     (create_directory env (Main.a_outDir a) = true -> code <> 1 ->
        (exists msg, Main.status r = Exit (-1) msg) /\
        Main.written r = if png_failed_write_leaves_file env outAtlas
                         then [(outAtlas, Main.Remnant)] else []) /\
     (create_directory env (Main.a_outDir a) = true -> code = 1 ->
      fstream_open env outMap = false ->
        (exists msg, Main.status r = Exit (-1) msg) /\ Main.written r = [png]) /\
     (create_directory env (Main.a_outDir a) = true -> code = 1 ->
      fstream_open env outMap = true ->
        exists text,
          Encoder.encode (Main.a_face a) (Main.a_glyphs a) (Main.a_rects a)
            (Main.a_cpRanges a) = Done text /\
          Main.status r = Done tt /\
          Main.written r = [png; (outMap, Main.JsonFile text)])) /\
  (Main.status r = Done tt ->
     exists a png text,
       Main.assemble env fuel argv = Done a /\
       Main.written r = [(Main.atlas_path (Main.a_outDir a), png);
                         (Main.map_path (Main.a_outDir a), Main.JsonFile text)]) /\
  (forall p text, In (p, Main.JsonFile text) (Main.written r) ->
     exists q w h pixels stride rest,
       Main.written r = (q, Main.PngFile w h pixels stride) :: rest).
Proof.
  cbv zeta. unfold Main.main.
  pose proof (exits_nonzero_assemble env fuel argv) as Hnz.
  destruct (Main.assemble env fuel argv) as [a|s msg| |] eqn:Ha; cbn [Main.status Main.written].
  - destruct (encode_after_assemble _ _ _ _ Ha) as [text Htext].
    split; [discriminate|].
    unfold Main.write_outputs. rewrite Htext.
    destruct (create_directory env (Main.a_outDir a)) eqn:Hdir; cbn [negb].
    2: { split; [|split].
         - intros a' [= <-]. rewrite Hdir.
           split; [intros _|split; [|split]; discriminate].
           cbn [Main.status Main.written]. split; [|reflexivity].
           exists 134, EmptyString. split; [reflexivity | discriminate].
         - discriminate.
         - intros p t []. }
    destruct (Z.eqb_spec (png_image_write_to_file env (Main.atlas_path (Main.a_outDir a))
                            (Main.a_atlasW a) (Main.a_atlasH a) (Main.a_atlasBmp a)
                            (Main.a_atlasW a)) 1) as [Hcode|Hcode]; cbn [negb].
    2: { split; [|split].
         - intros a' [= <-]. rewrite Hdir.
           split; [discriminate|]. split; [|split; intros _ Hc; contradiction].
           intros _ _. cbn [Main.status Main.written]. split; [eauto | reflexivity].
         - discriminate.
         - intros p t Hin. cbn [Main.written] in Hin.
           destruct (png_failed_write_leaves_file env _); [|destruct Hin].
           destruct Hin as [Hin|[]]. discriminate Hin. }
    destruct (fstream_open env (Main.map_path (Main.a_outDir a))) eqn:Hopen; cbn [negb].
    + split; [|split].
      * intros a' [= <-]. rewrite Hdir, Hopen.
        split; [discriminate|]. split; [intros _ Hc; contradiction|].
        split; [discriminate|]. intros _ _ _. exists text. auto.
      * intros _. exists a. eexists _, text. split; reflexivity.
      * intros p t _. cbn [Main.written]. eauto 10.
    + split; [|split].
      * intros a' [= <-]. rewrite Hdir, Hopen.
        split; [discriminate|]. split; [intros _ Hc; contradiction|].
        split; [|discriminate]. intros _ _ _. cbn [Main.status Main.written].
        split; [eauto | reflexivity].
      * discriminate.
      * intros p t Hin. cbn [Main.written] in Hin. destruct Hin as [Hin|[]].
        discriminate Hin.
  - split; [|split; [discriminate|split; [discriminate | intros p t []]]].
    intros s' msg' [= <- <-]. auto.
  - split; [discriminate|]. split; [discriminate|].
    split; [discriminate | intros p t []].
  - split; [discriminate|]. split; [discriminate|].
    split; [discriminate | intros p t []].
Qed.

Lemma outputs_written_image_first_witness :
  let argv := ["atlasgen"; "--font"; "f.ttf"; "--out"; "out"; "--range"; "65"; "67"] in
  Main.written (Main.main (Sample.env Sample.abc_face 0 true) 50 argv) = [] /\
  map fst (Main.written (Main.main (Sample.env Sample.abc_face 1 false) 50 argv))
  = ["out/atlas.png"] /\
  map fst (Main.written (Main.main (Sample.env Sample.abc_face 1 true) 50 argv))
  = ["out/atlas.png"; "out/map.json"].
Proof.
  cbv zeta.
  split; [|split].
  - destruct (Main.assemble (Sample.env Sample.abc_face 0 true) 50
                ["atlasgen"; "--font"; "f.ttf"; "--out"; "out"; "--range"; "65"; "67"])
      as [a| | |] eqn:Ha; [|vm_compute in Ha; discriminate Ha..].
    destruct (proj1 (proj2 (outputs_written_image_first _ _ _)) a Ha)
      as (_ & Hpng & _).
    destruct (Hpng eq_refl ltac:(discriminate)) as [_ Hw].
    rewrite Hw. reflexivity.
  - destruct (Main.assemble (Sample.env Sample.abc_face 1 false) 50
                ["atlasgen"; "--font"; "f.ttf"; "--out"; "out"; "--range"; "65"; "67"])
      as [a| | |] eqn:Ha; [|vm_compute in Ha; discriminate Ha..].
    destruct (proj1 (proj2 (outputs_written_image_first _ _ _)) a Ha)
      as (_ & _ & Hmap & _).
    destruct (Hmap eq_refl eq_refl eq_refl) as [_ Hw].
    rewrite Hw. vm_compute in Ha. injection Ha as <-. reflexivity.
  - destruct (Main.assemble (Sample.env Sample.abc_face 1 true) 50
                ["atlasgen"; "--font"; "f.ttf"; "--out"; "out"; "--range"; "65"; "67"])
      as [a| | |] eqn:Ha; [|vm_compute in Ha; discriminate Ha..].
    destruct (proj1 (proj2 (outputs_written_image_first _ _ _)) a Ha)
      as (_ & _ & _ & Hboth).
    destruct (Hboth eq_refl eq_refl eq_refl) as (text & _ & _ & Hw).
    rewrite Hw. vm_compute in Ha. injection Ha as <-. reflexivity.
Defined.

(** ** Concrete runs *)

Lemma sample_face_typed cm shapes :
  Forall (fun e => 0 <= snd e < 2 ^ 32) cm ->
  Forall (fun s => 0 <= fst (fst (snd s)) < 2 ^ 31 - 2 /\
                   0 <= snd (fst (snd s)) < 2 ^ 31 - 2) shapes ->
  face_typed (Sample.face cm shapes).
Proof.
  intros Hcm Hsh. split.
  - intros cp. simpl. unfold FT.charmap_index.
    destruct (List.find _ cm) as [e|] eqn:E; [|lia].
    apply find_some in E as [E _]. rewrite Forall_forall in Hcm.
    apply Hcm, list_elem_of_In, E.
  - intros k. simpl. unfold Sample.shape_of.
    destruct (List.find _ shapes) as [[k' [[w h] adv]]|] eqn:E; simpl; [|lia].
    apply find_some in E as [E _]. rewrite Forall_forall in Hsh.
    apply list_elem_of_In, Hsh in E. simpl in E. lia.
Qed.

Lemma abc_face_typed : face_typed Sample.abc_face.
Proof.
  apply sample_face_typed; repeat constructor; simpl; lia.
Qed.

Lemma rects_one_to_one_in_first_met_order_witness :
  Collector.collect Sample.abc_face Sample.abc_ranges = Done Sample.abc_collected /\
  Collector.rects Sample.abc_collected
  = map (fun k => Collector.padded_rect (record_of Sample.abc_face k))
        (packed_order Sample.abc_face
           (first_seen (map (FT.FT_Get_Char_Index Sample.abc_face)
                            (requested Sample.abc_ranges)))).
Proof.
  split; [vm_compute; reflexivity|].
  apply (rects_one_to_one_in_first_met_order Sample.abc_face Sample.abc_ranges
           Sample.abc_collected).
  vm_compute. reflexivity.
Defined.

(** C9 (the claim as stated fails): 'A' resolves to glyph 7 and 'B' to
    glyph 3.  The table lists glyph 3 before glyph 7, the rectangle list
    holds the rectangle of glyph 7 before that of glyph 3. *)
Lemma rects_not_in_glyph_index_order :
  let face := Sample.face [(65, 7); (66, 3)] Sample.abc_shapes in
  exists col,
    Collector.collect face [(65, 66)] = Done col /\
    map fst (Collector.glyphs col) = [3; 7] /\
    map (fun e => rectIndex (snd e)) (Collector.glyphs col) = [1; 0] /\
    Collector.rects col
    <> map (fun e => Collector.padded_rect (snd e))
           (List.filter (fun e => Collector.has_area (snd e)) (Collector.glyphs col)).
Proof.
  cbv zeta. eexists. split; [vm_compute; reflexivity|].
  split; [vm_compute; reflexivity|]. split; [vm_compute; reflexivity|].
  vm_compute. discriminate.
Qed.

Lemma atlas_is_padded_bounding_box_witness :
  let col := Sample.abc_collected in
  let packed := fst Sample.abc_packed in
  let atlasW := fst (snd Sample.abc_packed) in
  let atlasH := snd (snd Sample.abc_packed) in
  let final := fst Sample.abc_composited in
  Stb.packer_ok Stb.row_packer /\
  face_typed Sample.abc_face /\
  Collector.collect Sample.abc_face Sample.abc_ranges = Done col /\
  Packer.pack_atlas Stb.row_packer 50 (Collector.totalW col) (Collector.totalH col)
    (Collector.rects col) = Done (packed, (atlasW, atlasH)) /\
  Compositor.composite Sample.abc_face false (Collector.glyphs col) packed atlasW atlasH
    = Done (final, snd Sample.abc_composited) /\
  final <> [] /\
  Exists (fun r => atlasW = Stb.x r + Stb.w r + 1) final /\
  Forall (fun r => Stb.y r + Stb.h r + 1 <= atlasH) final.
Proof.
  cbv zeta.
  assert (H1 : Collector.collect Sample.abc_face Sample.abc_ranges = Done Sample.abc_collected)
    by (vm_compute; reflexivity).
  assert (H2 : Packer.pack_atlas Stb.row_packer 50 (Collector.totalW Sample.abc_collected)
                 (Collector.totalH Sample.abc_collected) (Collector.rects Sample.abc_collected)
               = Done (fst Sample.abc_packed,
                       (fst (snd Sample.abc_packed), snd (snd Sample.abc_packed))))
    by (vm_compute; reflexivity).
  assert (H3 : Compositor.composite Sample.abc_face false (Collector.glyphs Sample.abc_collected)
                 (fst Sample.abc_packed) (fst (snd Sample.abc_packed))
                 (snd (snd Sample.abc_packed))
               = Done (fst Sample.abc_composited, snd Sample.abc_composited))
    by (vm_compute; reflexivity).
  assert (H4 : fst Sample.abc_composited <> []) by (vm_compute; discriminate).
  pose proof (atlas_is_padded_bounding_box _ _ _ _ _ _ _ _ _ _ _
                row_packer_ok abc_face_typed H1 H2 H3 H4) as (_ & HW & _ & _ & HH).
  split; [exact row_packer_ok|]. split; [exact abc_face_typed|].
  split; [exact H1|]. split; [exact H2|]. split; [exact H3|]. split; [exact H4|].
  split; assumption.
Defined.

(** C4 (the claim as stated fails): for the sample face the atlas is 29
    wide and 15 high, while the final rectangles end at 14 and 28
    horizontally and at 14 vertically. *)
Lemma atlas_exceeds_final_bounding_box :
  let argv := ["atlasgen"; "--font"; "f.ttf"; "--out"; "out"; "--range"; "65"; "67"] in
  exists a,
    Main.assemble (Sample.env Sample.abc_face 1 true) 50 argv = Done a /\
    Main.a_atlasW a = 29 /\ Main.a_atlasH a = 15 /\
    map (fun r => Stb.x r + Stb.w r) (Main.a_rects a) = [14; 28] /\
    map (fun r => Stb.y r + Stb.h r) (Main.a_rects a) = [14; 14] /\
    ~ Exists (fun r => Main.a_atlasW a = Stb.x r + Stb.w r) (Main.a_rects a) /\
    ~ Exists (fun r => Main.a_atlasH a = Stb.y r + Stb.h r) (Main.a_rects a).
Proof.
  cbv zeta. eexists. split; [vm_compute; reflexivity|].
  do 4 (split; [vm_compute; reflexivity|]).
  split; intros H; apply Exists_exists in H as (r & Hr & Heq);
    vm_compute in Hr; apply list_elem_of_In in Hr; simpl in Hr;
    destruct Hr as [<-|[<-|[]]]; vm_compute in Heq; discriminate.
Qed.

(** C2 (the claim as stated fails): when [map.json] cannot be opened the
    run exits with status -1 and [atlas.png] stays on disk alone. *)
Lemma atlas_left_without_sidecar :
  let argv := ["atlasgen"; "--font"; "f.ttf"; "--out"; "out"; "--range"; "65"; "67"] in
  let r := Main.main (Sample.env Sample.abc_face 1 false) 50 argv in
  Main.status r = Exit (-1) "Failed to write map to out/map.json" /\
  map fst (Main.written r) = ["out/atlas.png"] /\
  Main.written r <> [].
Proof.
  cbv zeta. split; [vm_compute; reflexivity|]. split; [vm_compute; reflexivity|].
  vm_compute. discriminate.
Qed.

(** C5 (the code departs from the claim): the range 64..67 starts with a
    codepoint that has no glyph.  The run ends with status 0 and the
    codepoints array of the sidecar opens with a comma. *)
Theorem skipped_first_codepoint_leaves_leading_comma :
  let argv := ["atlasgen"; "--font"; "f.ttf"; "--out"; "out"; "--range"; "64"; "67"] in
  let r := Main.main (Sample.env Sample.abc_face 1 true) 50 argv in
  Main.status r = Done tt /\
  exists png text,
    Main.written r = [("out/atlas.png", png); ("out/map.json", Main.JsonFile text)] /\
    Reader.array_of "codepoints" text
    = [Encoder.Comma; Encoder.Num 65; Encoder.Comma; Encoder.Num 1;
       Encoder.Comma; Encoder.Num 1; Encoder.Comma; Encoder.Num 1;
       Encoder.Comma; Encoder.Num 1; Encoder.Comma; Encoder.Num 0] /\
    Reader.number_list (Reader.array_of "codepoints" text) = false /\
    Reader.number_list (Reader.array_of "glyphs" text) = true.
Proof.
  cbv zeta. split; [vm_compute; reflexivity|].
  do 2 eexists. split; [vm_compute; reflexivity|].
  repeat split; vm_compute; reflexivity.
Qed.


Lemma shared_glyph_one_entry_same_id_witness :
  let rects := fst Sample.abc_composited in
  let ids := Encoder.glyphIdToJsonId
               (Encoder.encode_glyphs (Collector.glyphs Sample.abc_collected) rects) in
  face_typed Sample.abc_face /\
  Collector.collect Sample.abc_face Sample.abc_ranges = Done Sample.abc_collected /\
  Encoder.encode_codepoints Sample.abc_face ids Sample.abc_ranges = Done Sample.abc_codepoints /\
  In 66 (requested Sample.abc_ranges) /\ In 67 (requested Sample.abc_ranges) /\ 66 <> 67 /\
  FT.FT_Get_Char_Index Sample.abc_face 66 = FT.FT_Get_Char_Index Sample.abc_face 67 /\
  FT.FT_Get_Char_Index Sample.abc_face 66 <> 0 /\
  exists i,
    In (66, Z.of_nat i) (Reader.read_codepoints (Encoder.cp_out Sample.abc_codepoints)) /\
    In (67, Z.of_nat i) (Reader.read_codepoints (Encoder.cp_out Sample.abc_codepoints)).
Proof.
  cbv zeta.
  assert (H1 : Collector.collect Sample.abc_face Sample.abc_ranges = Done Sample.abc_collected)
    by (vm_compute; reflexivity).
  assert (H2 : Encoder.encode_codepoints Sample.abc_face
                 (Encoder.glyphIdToJsonId
                    (Encoder.encode_glyphs (Collector.glyphs Sample.abc_collected)
                       (fst Sample.abc_composited)))
                 Sample.abc_ranges = Done Sample.abc_codepoints)
    by (vm_compute; reflexivity).
  assert (H3 : In 66 (requested Sample.abc_ranges)) by (vm_compute; tauto).
  assert (H4 : In 67 (requested Sample.abc_ranges)) by (vm_compute; tauto).
  assert (H5 : 66 <> 67) by lia.
  assert (H6 : FT.FT_Get_Char_Index Sample.abc_face 66 = FT.FT_Get_Char_Index Sample.abc_face 67)
    by reflexivity.
  assert (H7 : FT.FT_Get_Char_Index Sample.abc_face 66 <> 0) by (vm_compute; discriminate).
  destruct (shared_glyph_one_entry_same_id _ _ _ _ _ _ _
              abc_face_typed H1 H2 H3 H4 H5 H6) as (i & e & _ & _ & _ & _ & Hab & _).
  split; [exact abc_face_typed|]. split; [exact H1|]. split; [exact H2|].
  split; [exact H3|]. split; [exact H4|]. split; [exact H5|]. split; [exact H6|].
  split; [exact H7|]. exists i. exact (Hab H7).
Defined.

(** C7 (the claim as stated fails): in the run over '?' to 'C', '?' and
    '@' both resolve to glyph index 0.  The run ends with status 0; the
    glyphs array holds three entries, one of them for glyph 0, and the
    codepoints array mentions neither '?' nor '@'. *)
Lemma codepoints_sharing_glyph_zero_are_dropped :
  let argv := ["atlasgen"; "--font"; "f.ttf"; "--out"; "out"; "--range"; "63"; "67"] in
  let r := Main.main (Sample.env Sample.abc_face 1 true) 50 argv in
  FT.FT_Get_Char_Index Sample.abc_face 63 = 0 /\
  FT.FT_Get_Char_Index Sample.abc_face 64 = 0 /\
  Main.status r = Done tt /\
  exists png text,
    Main.written r = [("out/atlas.png", png); ("out/map.json", Main.JsonFile text)] /\
    length (Reader.read_glyphs (Reader.array_of "glyphs" text)) = 3%nat /\
    Reader.read_codepoints (Reader.array_of "codepoints" text)
    = [(65, 1); (66, 2); (67, 2)] /\
    ~ exists id, In (63, id) (Reader.read_codepoints (Reader.array_of "codepoints" text)) /\
                 In (64, id) (Reader.read_codepoints (Reader.array_of "codepoints" text)).
Proof.
  cbv zeta. split; [reflexivity|]. split; [reflexivity|].
  split; [vm_compute; reflexivity|].
  do 2 eexists. split; [vm_compute; reflexivity|].
  split; [vm_compute; reflexivity|]. split; [vm_compute; reflexivity|].
  intros (id & H & _). vm_compute in H.
  destruct H as [H|[H|[H|[]]]]; discriminate H.
Qed.

(** ** The argument parsers on well-formed and other input *)

Lemma u32_mod_eq a b : a mod 2 ^ 32 = b mod 2 ^ 32 -> Cxx.u32 a = Cxx.u32 b.
Proof. auto. Qed.

Lemma u32_step i d : Cxx.u32 (Cxx.u32 (Cxx.u32 i * 10) + d) = Cxx.u32 (i * 10 + d).
Proof.
  unfold Cxx.u32.
  rewrite Zplus_mod_idemp_l. rewrite <- Zplus_mod_idemp_l.
  rewrite Zmult_mod_idemp_l. rewrite Zplus_mod_idemp_l. reflexivity.
Qed.

Lemma i32_u32 v : Cxx.u32 (Cxx.i32 v) = Cxx.u32 v.
Proof.
  unfold Cxx.i32, Cxx.u32.
  rewrite Zminus_mod_idemp_l.
  replace (v + 2 ^ 31 - 2 ^ 31) with v by lia. reflexivity.
Qed.

Lemma i32_of_u32 a b : Cxx.u32 a = Cxx.u32 b -> Cxx.i32 a = Cxx.i32 b.
Proof.
  unfold Cxx.i32, Cxx.u32. intros H.
  rewrite <- (Zplus_mod_idemp_l a), <- (Zplus_mod_idemp_l b), H. reflexivity.
Qed.

Lemma i32_step i d : Cxx.i32 (Cxx.i32 (Cxx.i32 i * 10) + d) = Cxx.i32 (i * 10 + d).
Proof.
  apply i32_of_u32. unfold Cxx.u32.
  rewrite <- Zplus_mod_idemp_l. fold (Cxx.u32 (Cxx.i32 (Cxx.i32 i * 10))).
  rewrite i32_u32. unfold Cxx.u32.
  rewrite <- Zmult_mod_idemp_l. fold (Cxx.u32 (Cxx.i32 i)). rewrite i32_u32. unfold Cxx.u32.
  rewrite Zmult_mod_idemp_l, Zplus_mod_idemp_l. reflexivity.
Qed.

Lemma u64_step i d : Cxx.u64 (Cxx.u64 (Cxx.u64 i * 10) + d) = Cxx.u64 (i * 10 + d).
Proof.
  unfold Cxx.u64.
  rewrite Zplus_mod_idemp_l. rewrite <- Zplus_mod_idemp_l.
  rewrite Zmult_mod_idemp_l. rewrite Zplus_mod_idemp_l. reflexivity.
Qed.

Lemma ParseInt_loop_u32 str i :
  Args.ParseInt_loop Cxx.u32 str (Cxx.u32 i) = Some (Cxx.u32 (positional str i)).
Proof.
  revert i. induction str as [|ch rest IH]; intros i; simpl; [reflexivity|].
  rewrite digit_guard_never_fires, u32_step. apply IH.
Qed.

Lemma ParseInt_loop_i32 str i :
  Args.ParseInt_loop Cxx.i32 str (Cxx.i32 i) = Some (Cxx.i32 (positional str i)).
Proof.
  revert i. induction str as [|ch rest IH]; intros i; simpl; [reflexivity|].
  rewrite digit_guard_never_fires, i32_step. apply IH.
Qed.

Lemma digit_value ch : Args.is_digit ch = true -> 0 <= Cxx.char_val ch - 48 <= 9.
Proof.
  unfold Args.is_digit. rewrite negb_true_iff, orb_false_iff.
  intros [H1 H2]. apply Z.ltb_ge in H1. rewrite Z.gtb_ltb in H2. apply Z.ltb_ge in H2. lia.
Qed.

Lemma positional_digits_bounds str acc :
  all_digits str = true -> 0 <= acc ->
  acc * 10 ^ Z.of_nat (String.length str) <= positional str acc
  < (acc + 1) * 10 ^ Z.of_nat (String.length str).
Proof.
  revert acc. induction str as [|ch rest IH]; intros acc Hd Hacc;
    cbn [positional all_digits String.length] in *.
  - simpl. lia.
  - apply andb_prop in Hd as [Hc Hr]. apply digit_value in Hc.
    specialize (IH (acc * 10 + (Cxx.char_val ch - 48)) Hr ltac:(lia)).
    rewrite Nat2Z.inj_succ, Z.pow_succ_r by lia.
    assert (0 < 10 ^ Z.of_nat (String.length rest)) by (apply Z.pow_pos_nonneg; lia).
    nia.
Qed.

(** [ParseInt] gives every string the positional value of its characters,
    wrapped to the result type: modulo [2^32] for a range bound, and as a
    two's complement [int] for the size.  A string of at most nine digits
    parses to the number it spells. *)
Theorem ParseInt_positional_value (str : string) :
  Args.ParseInt Cxx.u32 (Some str) = Some (Cxx.u32 (positional str 0)) /\
  Args.ParseInt Cxx.i32 (Some str) = Some (Cxx.i32 (positional str 0)) /\
  (all_digits str = true -> (String.length str <= 9)%nat ->
   0 <= positional str 0 < 10 ^ 9 /\
   Args.ParseInt Cxx.u32 (Some str) = Some (positional str 0) /\
   Args.ParseInt Cxx.i32 (Some str) = Some (positional str 0)).
Proof.
  assert (H1 : Args.ParseInt Cxx.u32 (Some str) = Some (Cxx.u32 (positional str 0)))
    by apply (ParseInt_loop_u32 str 0).
  assert (H2 : Args.ParseInt Cxx.i32 (Some str) = Some (Cxx.i32 (positional str 0)))
    by apply (ParseInt_loop_i32 str 0).
  split; [exact H1|]. split; [exact H2|].
  intros Hd Hlen.
  pose proof (positional_digits_bounds str 0 Hd ltac:(lia)) as Hb.
  assert (10 ^ Z.of_nat (String.length str) <= 10 ^ 9)
    by (apply Z.pow_le_mono_r; lia).
  assert (Hr : 0 <= positional str 0 < 10 ^ 9) by lia.
  split; [exact Hr|].
  rewrite H1, H2, u32_small, i32_small; [auto | lia | lia].
Qed.

Lemma ParseInt_positional_value_witness :
  all_digits "4096" = true /\ (String.length "4096" <= 9)%nat /\
  Args.ParseInt Cxx.u32 (Some "4096") = Some 4096.
Proof.
  split; [reflexivity|]. split; [simpl; lia|].
  pose proof (proj2 (proj2 (ParseInt_positional_value "4096")) eq_refl ltac:(simpl; lia))
    as (_ & H & _).
  exact H.
Defined.

Lemma ParseInt_u32_range a v : Args.ParseInt Cxx.u32 a = Some v -> 0 <= v < 2 ^ 32.
Proof.
  destruct a as [str|]; [|discriminate]. simpl.
  change 0 with (Cxx.u32 0) at 1. rewrite ParseInt_loop_u32. intros [= <-].
  unfold Cxx.u32. apply Z.mod_pos_bound. lia.
Qed.

Lemma ParseFloat_frac_digits b denom div :
  all_digits b = true ->
  Args.ParseFloat_frac b (Cxx.u64 denom) (Cxx.u64 div)
  = Some (Cxx.u64 (positional b denom), Cxx.u64 (div * 10 ^ Z.of_nat (String.length b))).
Proof.
  revert denom div. induction b as [|ch rest IH]; intros denom div Hd;
    cbn [positional all_digits String.length Args.ParseFloat_frac] in *.
  - simpl. rewrite Z.mul_1_r. reflexivity.
  - apply andb_prop in Hd as [Hc Hr]. rewrite Hc, u64_step.
    replace (Cxx.u64 (Cxx.u64 div * 10)) with (Cxx.u64 (div * 10))
      by (unfold Cxx.u64; rewrite Zmult_mod_idemp_l; reflexivity).
    rewrite IH by assumption.
    rewrite Nat2Z.inj_succ, Z.pow_succ_r by lia. do 3 f_equal. lia.
Qed.

Lemma ParseFloat_frac_accepts b denom div r :
  Args.ParseFloat_frac b denom div = Some r -> all_digits b = true.
Proof.
  revert denom div. induction b as [|ch rest IH]; intros denom div; simpl; [reflexivity|].
  destruct (Args.is_digit ch); [apply IH | discriminate].
Qed.

Lemma ParseFloat_int_digits a n :
  all_digits a = true ->
  Args.ParseFloat_int a (Cxx.u64 n)
  = Some {| Args.pf_num := Cxx.u64 (positional a n); Args.pf_denom := 0; Args.pf_div := 1 |}.
Proof.
  revert n. induction a as [|ch rest IH]; intros n Hd;
    cbn [positional all_digits Args.ParseFloat_int] in *; [reflexivity|].
  apply andb_prop in Hd as [Hc Hr]. rewrite Hc, u64_step. apply IH, Hr.
Qed.

Lemma ParseFloat_int_fraction a b n :
  all_digits a = true -> all_digits b = true ->
  Args.ParseFloat_int (String.append a (String "." b)) (Cxx.u64 n)
  = Some {| Args.pf_num := Cxx.u64 (positional a n);
            Args.pf_denom := Cxx.u64 (positional b 0);
            Args.pf_div := Cxx.u64 (10 ^ Z.of_nat (String.length b)) |}.
Proof.
  revert n. induction a as [|ch rest IH]; intros n Ha Hb;
    cbn [positional all_digits Args.ParseFloat_int String.append] in *.
  - pose proof (ParseFloat_frac_digits b 0 1 Hb) as H.
    change (Cxx.u64 0) with 0 in H. change (Cxx.u64 1) with 1 in H.
    change (Args.ParseFloat_int (String "." b) (Cxx.u64 n)
            = Some {| Args.pf_num := Cxx.u64 n;
                      Args.pf_denom := Cxx.u64 (positional b 0);
                      Args.pf_div := Cxx.u64 (10 ^ Z.of_nat (String.length b)) |}).
    cbn [Args.ParseFloat_int].
    change (Args.is_digit ".") with false. cbv iota.
    change (Ascii.eqb "." ".") with true. cbv iota.
    rewrite H, Z.mul_1_l. reflexivity.
  - apply andb_prop in Ha as [Hc Hr].
    change (Args.ParseFloat_int (String ch (String.append rest (String "." b))) (Cxx.u64 n)
            = Some {| Args.pf_num := Cxx.u64 (positional rest (n * 10 + (Cxx.char_val ch - 48)));
                      Args.pf_denom := Cxx.u64 (positional b 0);
                      Args.pf_div := Cxx.u64 (10 ^ Z.of_nat (String.length b)) |}).
    cbn [Args.ParseFloat_int]. rewrite Hc, u64_step. apply IH; assumption.
Qed.

Lemma ParseFloat_int_accepts s n p :
  Args.ParseFloat_int s n = Some p ->
  all_digits s = true \/
  exists a b, s = String.append a (String "." b) /\ all_digits a = true /\ all_digits b = true.
Proof.
  revert n. induction s as [|ch rest IH]; intros n; simpl; [auto|].
  destruct (Args.is_digit ch) eqn:Hc.
  - intros H. apply IH in H as [H|(a & b & -> & Ha & Hb)]; [left; exact H|].
    right. exists (String ch a), b. simpl. rewrite Hc. auto.
  - destruct (Ascii.eqb_spec ch "."%char) as [->|Hne]; [|discriminate].
    destruct (Args.ParseFloat_frac rest 0 1) as [[denom div]|] eqn:E; [|discriminate].
    intros _. right. exists EmptyString, rest. simpl.
    split; [reflexivity|]. split; [reflexivity|]. eapply ParseFloat_frac_accepts, E.
Qed.

(** [ParseFloat] accepts exactly the strings made of digits, optionally
    followed by one dot and more digits (either part may be empty), and
    returns the digit groups as numbers modulo [2^64] together with the
    power of ten of the fraction's length. *)
Theorem ParseFloat_accepts_decimal_notation :
  (forall a, all_digits a = true ->
     Args.ParseFloat (Some a)
     = Some {| Args.pf_num := Cxx.u64 (positional a 0); Args.pf_denom := 0;
               Args.pf_div := 1 |}) /\
  (forall a b, all_digits a = true -> all_digits b = true ->
     Args.ParseFloat (Some (String.append a (String "." b)))
     = Some {| Args.pf_num := Cxx.u64 (positional a 0);
               Args.pf_denom := Cxx.u64 (positional b 0);
               Args.pf_div := Cxx.u64 (10 ^ Z.of_nat (String.length b)) |}) /\
  (forall s p, Args.ParseFloat (Some s) = Some p ->
     all_digits s = true \/
     exists a b, s = String.append a (String "." b) /\
                 all_digits a = true /\ all_digits b = true).
Proof.
  split; [|split].
  - intros a Ha. apply (ParseFloat_int_digits a 0 Ha).
  - intros a b Ha Hb. apply (ParseFloat_int_fraction a b 0 Ha Hb).
  - intros s p. apply ParseFloat_int_accepts.
Qed.

Lemma ParseFloat_accepts_decimal_notation_witness :
  all_digits "400" = true /\ all_digits "25" = true /\
  Args.ParseFloat (Some "400.25")
  = Some {| Args.pf_num := 400; Args.pf_denom := 25; Args.pf_div := 100 |}.
Proof.
  split; [reflexivity|]. split; [reflexivity|].
  exact (proj1 (proj2 ParseFloat_accepts_decimal_notation) "400" "25" eq_refl eq_refl).
Defined.

Lemma pow10_wraps n : 64 <= n -> Cxx.u64 (10 ^ n) = 0.
Proof.
  intros Hn. unfold Cxx.u64.
  replace n with (64 + (n - 64)) by lia.
  rewrite Z.pow_add_r by lia.
  change 10 with (2 * 5) at 1. rewrite Z.pow_mul_l, <- Z.mul_assoc.
  rewrite Z.mul_comm. apply Z.mod_mul. lia.
Qed.

(** A fraction of 64 digits or more leaves the divisor of [ParseFloat] at
    0: [10^64] is a multiple of [2^64], and the [uint64_t] product wraps. *)
Theorem ParseFloat_long_fraction_zero_divisor (a b : string) :
  all_digits a = true -> all_digits b = true -> (64 <= String.length b)%nat ->
  exists p, Args.ParseFloat (Some (String.append a (String "." b))) = Some p /\
            Args.pf_div p = 0.
Proof.
  intros Ha Hb Hlen. eexists. split.
  - apply (ParseFloat_int_fraction a b 0 Ha Hb).
  - simpl. apply pow10_wraps. lia.
Qed.

Lemma ParseFloat_long_fraction_zero_divisor_witness :
  exists p,
    Args.ParseFloat
      (Some "1.0000000000000000000000000000000000000000000000000000000000000000")
    = Some p /\ Args.pf_div p = 0.
Proof.
  apply (ParseFloat_long_fraction_zero_divisor "1"
           "0000000000000000000000000000000000000000000000000000000000000000");
    [reflexivity | reflexivity | simpl; lia].
Defined.

(** ** What a parsed configuration satisfies *)

Lemma emplace_NoDup name v m : NoDup (map fst m) -> NoDup (map fst (Args.emplace name v m)).
Proof.
  intros H. unfold Args.emplace.
  destruct (existsb _ m) eqn:E; [assumption|].
  rewrite map_app. simpl. apply NoDup_app. split; [assumption|]. split; [|apply NoDup_singleton].
  intros x Hx Hx'. apply list_elem_of_singleton in Hx'. subst x.
  apply list_elem_of_In, in_map_iff in Hx as (kv & Hk & Hin).
  assert (existsb (fun kv => String.eqb (fst kv) name) m = true); [|congruence].
  apply existsb_exists. exists kv. split; [assumption|]. apply String.eqb_eq, Hk.
Qed.

Lemma i32_range v : - 2 ^ 31 <= Cxx.i32 v < 2 ^ 31.
Proof. unfold Cxx.i32. pose proof (Z.mod_pos_bound (v + 2 ^ 31) (2 ^ 32)). lia. Qed.

Lemma ParseInt_i32_range a v : Args.ParseInt Cxx.i32 a = Some v -> - 2 ^ 31 <= v < 2 ^ 31.
Proof.
  destruct a as [str|]; [|discriminate]. simpl.
  change 0 with (Cxx.i32 0) at 1. rewrite ParseInt_loop_i32. intros [= <-]. apply i32_range.
Qed.

Lemma flag_step_config_ok to_fixed it cfg it' cfg' :
  config_ok cfg ->
  Args.flag_step to_fixed it cfg = Some (Done (it', cfg')) -> config_ok cfg'.
Proof.
  intros (Hr & Ha & Hs). unfold Args.flag_step.
  destruct (Args.Next it) as [[flag|] it1]; [|discriminate].
  destruct (Args.Next it1) as [a it2]. destruct (Args.Next it2) as [b it3].
  destruct (Args.ParseInt Cxx.u32 a) as [first|] eqn:Ea;
  destruct (Args.ParseInt Cxx.u32 b) as [last|] eqn:Eb;
  destruct (Args.ParseInt Cxx.i32 a) as [size|] eqn:Es;
  try (apply ParseInt_u32_range in Ea); try (apply ParseInt_u32_range in Eb);
  try (apply ParseInt_i32_range in Es);
  intros [= H]; revert H;
  repeat match goal with
         | |- context [if ?c then _ else _] => destruct c eqn:?
         | |- context [match ?x with Some _ => _ | None => _ end] => destruct x
         end; try discriminate; intros [= <- <-]; unfold config_ok; simpl;
  (split; [|split]); auto using emplace_NoDup.
  all: try (apply Forall_app; split; [assumption|]; constructor; [|constructor]; simpl;
            match goal with H : (_ >=? _) = false |- _ => rewrite Z.geb_leb in H;
                                                          apply Z.leb_gt in H end; lia).
Qed.

Lemma flag_loop_config_ok to_fixed fuel it cfg cfg' :
  config_ok cfg -> Args.flag_loop to_fixed fuel it cfg = Done cfg' -> config_ok cfg'.
Proof.
  revert it cfg. induction fuel as [|fuel IH]; intros it cfg Hok; simpl;
    destruct (Args.flag_step to_fixed it cfg) as [r|] eqn:E; try discriminate;
    try (intros [= <-]; assumption).
  destruct r as [[it1 cfg1]| | |]; simpl; try discriminate.
  apply IH. eapply flag_step_config_ok; eassumption.
Qed.

(** A command line that is accepted has both paths set, only ranges with
    [0 <= first < last < 2^32], at most one value per axis name, and a size
    that is an [int]. *)
Theorem parse_args_accepted_config to_fixed argv cfg :
  Args.parse_args to_fixed argv = Done cfg ->
  Args.fontPath cfg <> None /\ Args.outDir cfg <> None /\
  Forall (fun r => 0 <= fst r /\ fst r < snd r /\ snd r < 2 ^ 32) (Args.cpRanges cfg) /\
  NoDup (map fst (Args.axes cfg)) /\
  - 2 ^ 31 <= Args.desiredSize cfg < 2 ^ 31.
Proof.
  unfold Args.parse_args. intros H.
  apply bind_Done_inv in H as (cfg0 & Hloop & H).
  apply flag_loop_config_ok in Hloop.
  - destruct (Args.fontPath cfg0) eqn:Ef, (Args.outDir cfg0) eqn:Eo; try discriminate.
    injection H as <-. rewrite Ef, Eo. destruct Hloop as (H1 & H2 & H3).
    repeat split; try discriminate; try assumption; lia.
  - unfold config_ok. simpl. repeat split; try constructor; lia.
Qed.

Lemma parse_args_accepted_config_witness :
  let argv := ["atlasgen"; "--font"; "f.ttf"; "--range"; "65"; "90"; "--out"; "out";
               "--axis"; "wght"; "400"; "--axis"; "wght"; "700"] in
  let cfg := {| Args.fontPath := Some "f.ttf"; Args.outDir := Some "out";
                Args.desiredSize := 16; Args.cpRanges := [(65, 90)];
                Args.axes := [("wght", 400 * 65536)]; Args.mono := false |} in
  Args.parse_args (fun p => Args.pf_num p * 65536) argv = Done cfg /\
  NoDup (map fst (Args.axes cfg)).
Proof.
  cbv zeta.
  assert (H : Args.parse_args (fun p => Args.pf_num p * 65536)
                ["atlasgen"; "--font"; "f.ttf"; "--range"; "65"; "90"; "--out"; "out";
                 "--axis"; "wght"; "400"; "--axis"; "wght"; "700"]
              = Done {| Args.fontPath := Some "f.ttf"; Args.outDir := Some "out";
                        Args.desiredSize := 16; Args.cpRanges := [(65, 90)];
                        Args.axes := [("wght", 400 * 65536)]; Args.mono := false |})
    by (vm_compute; reflexivity).
  split; [exact H|].
  exact (proj1 (proj2 (proj2 (proj2 (parse_args_accepted_config _ _ _ H))))).
Defined.

(** ** Variable-font axes *)

Lemma CheckFtErr_Done err u : CheckFtErr err = Done u -> err = 0.
Proof. unfold CheckFtErr. destruct (Z.eqb_spec err 0); [auto | discriminate]. Qed.

Lemma find_axis_erase_other n m axes :
  n <> m -> Main.find_axis n (Main.erase_axis m axes) = Main.find_axis n axes.
Proof.
  intros Hne. unfold Main.find_axis, Main.erase_axis.
  induction axes as [|[k v] axes IH]; simpl; [reflexivity|].
  destruct (String.eqb_spec k m) as [->|Hkm]; simpl.
  - destruct (String.eqb_spec m n); [congruence | exact IH].
  - destruct (String.eqb_spec k n); [reflexivity | exact IH].
Qed.

Lemma In_erase_axis m axes kv :
  In kv (Main.erase_axis m axes) <-> In kv axes /\ fst kv <> m.
Proof.
  unfold Main.erase_axis. rewrite filter_In, negb_true_iff.
  destruct (String.eqb_spec (fst kv) m); intuition congruence.
Qed.

Lemma find_axis_Some n axes v : Main.find_axis n axes = Some v -> In (n, v) axes.
Proof.
  unfold Main.find_axis. destruct (List.find _ axes) as [[k w]|] eqn:E; [|discriminate].
  intros [= <-]. apply find_some in E as [Hin Hk]. simpl in *.
  apply String.eqb_eq in Hk. subst. exact Hin.
Qed.

Lemma find_axis_None n axes : Main.find_axis n axes = None -> ~ In n (map fst axes).
Proof.
  unfold Main.find_axis. destruct (List.find _ axes) as [kv|] eqn:E; [discriminate|].
  intros _ Hin. apply in_map_iff in Hin as (kv & Hk & Hin).
  pose proof (find_none _ _ E kv Hin) as H. simpl in H.
  apply String.eqb_neq in H. contradiction.
Qed.

Lemma axis_coords_spec master axes coords axes' coords' :
  Main.axis_coords master axes coords = Done (axes', coords') ->
  exists cs,
    coords' = coords ++ cs /\
    Forall2 (fun a c => FT.minimum a <= c <= FT.maximum a) master cs /\
    (forall kv, In kv axes' <-> In kv axes /\ ~ In (fst kv) (map FT.name master)) /\
    (NoDup (map FT.name master) -> cs = map (axis_value axes) master).
Proof.
  revert axes coords. induction master as [|axis master IH]; intros axes coords H; simpl in H.
  - injection H as <- <-. exists []. rewrite app_nil_r.
    split; [reflexivity|]. split; [constructor|]. split; [simpl; tauto | reflexivity].
  - set (pick := match Main.find_axis (FT.name axis) axes with
                 | Some v => (v, Main.erase_axis (FT.name axis) axes)
                 | None => (FT.def axis, axes)
                 end) in H.
    assert (Hpick : fst pick = axis_value axes axis /\
                    (forall kv, In kv (snd pick) <-> In kv axes /\ fst kv <> FT.name axis) /\
                    (forall n, n <> FT.name axis ->
                               Main.find_axis n (snd pick) = Main.find_axis n axes)).
    { unfold pick, axis_value.
      destruct (Main.find_axis (FT.name axis) axes) eqn:E; simpl.
      - split; [reflexivity|]. split; [apply In_erase_axis|].
        intros n Hn. apply find_axis_erase_other, Hn.
      - split; [reflexivity|]. split; [|reflexivity].
        intros kv. split; [|tauto]. intros Hin. split; [assumption|].
        intros Heq. apply (find_axis_None _ _ E). rewrite <- Heq. apply in_map, Hin. }
    destruct pick as [coord axes1]. simpl in Hpick. destruct Hpick as (Hc & Hin1 & Hfind).
    destruct ((coord <? FT.minimum axis) || (coord >? FT.maximum axis)) eqn:Eb;
      [discriminate|].
    apply orb_false_iff in Eb as [E1 E2]. apply Z.ltb_ge in E1.
    rewrite Z.gtb_ltb in E2. apply Z.ltb_ge in E2.
    apply IH in H as (cs & -> & HF & Hin & Hval).
    exists (coord :: cs). rewrite <- app_assoc. split; [reflexivity|].
    split; [constructor; [lia | assumption]|]. split.
    + intros kv. rewrite Hin, Hin1. simpl. intuition congruence.
    + intros Hnd. simpl in Hnd. apply NoDup_cons in Hnd as [Hnotin Hnd].
      simpl. rewrite Hc. f_equal. rewrite (Hval Hnd).
      apply map_ext_in. intros a Ha. unfold axis_value. rewrite Hfind; [reflexivity|].
      intros Heq. apply Hnotin. rewrite <- Heq. apply list_elem_of_In, in_map, Ha.
Qed.

(** When axis values were requested and the stage goes through, FreeType
    is handed one coordinate per axis of the font, in the font's order,
    each within that axis' minimum and maximum; every requested name is an
    axis of the font; and (axis names of a font being distinct) each
    coordinate is the requested value or else the axis default. *)
Theorem set_axes_coordinates env face axes face' :
  axes <> [] ->
  Main.set_axes env face axes = Done face' ->
  exists master coords,
    FT_Get_MM_Var env face = (0, master) /\
    FT_Set_Var_Design_Coordinates env face coords = (0, face') /\
    Forall2 (fun a c => FT.minimum a <= c <= FT.maximum a) master coords /\
    (forall kv, In kv axes -> In (fst kv) (map FT.name master)) /\
    (NoDup (map FT.name master) -> coords = map (axis_value axes) master).
Proof.
  intros Hne H. unfold Main.set_axes in H.
  destruct axes as [|kv0 axes0]; [contradiction|].
  destruct (FT_Get_MM_Var env face) as [err master] eqn:Em.
  apply bind_Done_inv in H as (u & Herr & H). apply CheckFtErr_Done in Herr. subst err.
  destruct master as [|a0 master0]; [discriminate|].
  apply bind_Done_inv in H as ([axes' coords] & Hcoords & H).
  destruct axes' as [|kv1 axes1]; [|discriminate].
  destruct (FT_Set_Var_Design_Coordinates env face coords) as [err' face1] eqn:Es.
  apply bind_Done_inv in H as (u' & Herr' & H). apply CheckFtErr_Done in Herr'. subst err'.
  injection H as <-.
  apply axis_coords_spec in Hcoords as (cs & Hcs & HF & Hin & Hval). simpl in Hcs. subst cs.
  exists (a0 :: master0), coords. split; [reflexivity|]. split; [assumption|].
  split; [assumption|]. split; [|assumption].
  intros kv Hkv.
  destruct (in_dec string_dec (fst kv) (map FT.name (a0 :: master0))) as [Hi|Hni];
    [assumption|].
  exfalso. apply (proj2 (Hin kv)). auto.
Qed.

Lemma set_axes_coordinates_witness :
  let face := Sample.abc_face in
  let env := weight_width_env face in
  let axes := [("wght", 45875200)] in
  axes <> [] /\
  Main.set_axes env face axes = Done face /\
  exists coords,
    FT_Set_Var_Design_Coordinates env face coords = (0, face) /\
    coords = [45875200; 6553600].
Proof.
  cbv zeta.
  assert (Hne : [("wght", 45875200)] <> @nil (string * Z)) by discriminate.
  assert (H : Main.set_axes (weight_width_env Sample.abc_face) Sample.abc_face
                [("wght", 45875200)] = Done Sample.abc_face) by reflexivity.
  split; [exact Hne|]. split; [exact H|].
  destruct (set_axes_coordinates _ _ _ _ Hne H)
    as (master & coords & Hm & Hs & _ & _ & Hval).
  exists coords. split; [exact Hs|].
  injection Hm as <-. rewrite (Hval ltac:(apply NoDup_cons; split;
    [intros Hin; apply list_elem_of_In in Hin; simpl in Hin; destruct Hin as [Hin|[]];
     discriminate | apply NoDup_singleton])).
  reflexivity.
Defined.

(** ** The argument iterator *)

(** [Match] consumes an argument exactly when [Next] would return that
    argument; both then leave the iterator in the same place, and a failed
    [Match] leaves it where it was. *)
Theorem Match_consumes_what_Next_returns it str :
  (fst (Args.Match it str) = true <-> fst (Args.Next it) = Some str) /\
  (fst (Args.Match it str) = true -> snd (Args.Match it str) = snd (Args.Next it)) /\
  (fst (Args.Match it str) = false -> snd (Args.Match it str) = it).
Proof.
  unfold Args.Match, Args.Next.
  rewrite Z.geb_leb.
  destruct (Z.ltb_spec (Args.m_index it) (Args.m_argc it)) as [Hlt|Hge];
    destruct (Z.leb_spec (Args.m_argc it) (Args.m_index it)); try lia; simpl.
  - destruct (String.eqb_spec (Args.arg_at it (Args.m_index it)) str) as [->|Hne]; simpl.
    + split; [tauto|]. split; [reflexivity | discriminate].
    + split; [|split; [discriminate | reflexivity]].
      split; [discriminate | intros [= E]; contradiction].
  - split; [|split; [discriminate | reflexivity]].
    split; discriminate.
Qed.

Lemma Match_consumes_what_Next_returns_witness :
  let it := Args.mkArgIter ["atlasgen"; "--mono"] in
  fst (Args.Match it "--mono") = true /\
  snd (Args.Match it "--mono") = snd (Args.Next it).
Proof.
  cbv zeta.
  assert (H : fst (Args.Match (Args.mkArgIter ["atlasgen"; "--mono"]) "--mono") = true)
    by reflexivity.
  split; [exact H|].
  exact (proj1 (proj2 (Match_consumes_what_Next_returns _ _)) H).
Defined.

(** ** Repeated axis flags *)

Lemma find_axis_app_fresh name other v m :
  Main.find_axis other (m ++ [(name, v)])
  = match Main.find_axis other m with
    | Some w => Some w
    | None => if String.eqb name other then Some v else None
    end.
Proof.
  unfold Main.find_axis. induction m as [|[k w] m IH]; simpl.
  - destruct (String.eqb name other); reflexivity.
  - destruct (String.eqb k other); [reflexivity | exact IH].
Qed.

Lemma emplace_keeps name v other w m :
  Main.find_axis other m = Some w ->
  Main.find_axis other (Args.emplace name v m) = Some w.
Proof.
  intros H. unfold Args.emplace.
  destruct (existsb _ m); [exact H|]. rewrite find_axis_app_fresh, H. reflexivity.
Qed.

Lemma flag_step_keeps_axes to_fixed it cfg it' cfg' name v :
  Args.flag_step to_fixed it cfg = Some (Done (it', cfg')) ->
  Main.find_axis name (Args.axes cfg) = Some v ->
  Main.find_axis name (Args.axes cfg') = Some v.
Proof.
  unfold Args.flag_step. destruct (Args.Next it) as [[flag|] it1]; [|discriminate].
  intros H Hn. injection H as H.
  repeat match type of H with
         | (if ?c then _ else _) = _ => destruct c
         | match ?x with _ => _ end = _ => destruct x
         end;
    try discriminate; injection H as <- <-; cbn [Args.axes];
    auto using emplace_keeps.
Qed.

(** When [--axis] names an axis that an earlier flag has given a value,
    the flag loop of lines 132-179 leaves that value in place whatever
    flags follow: through the whole loop the first value given for a name
    is the one [main] goes on with. *)
Theorem repeated_axis_keeps_first_value to_fixed fuel it cfg cfg' name v :
  Main.find_axis name (Args.axes cfg) = Some v ->
  Args.flag_loop to_fixed fuel it cfg = Done cfg' ->
  Main.find_axis name (Args.axes cfg') = Some v.
Proof.
  revert it cfg. induction fuel as [|fuel IH]; intros it cfg Hn H; simpl in H;
    destruct (Args.flag_step to_fixed it cfg) as [r|] eqn:E;
    try discriminate; try (injection H as <-; exact Hn).
  apply bind_Done_inv in H as ([it1 cfg1] & -> & H).
  apply (IH it1 cfg1); [|exact H].
  eapply flag_step_keeps_axes; eassumption.
Qed.

Lemma repeated_axis_keeps_first_value_witness :
  let to_fixed := double_to_fixed (Sample.env Sample.abc_face 1 true) in
  let argv := ["atlasgen"; "--axis"; "wght"; "400"; "--font"; "f.ttf"; "--axis"; "wght";
               "700"; "--out"; "out"] in
  exists it cfg cfg',
    Args.flag_step to_fixed (Args.mkArgIter argv) Args.initial_config = Some (Done (it, cfg)) /\
    Main.find_axis "wght" (Args.axes cfg) = Some (400 * 65536) /\
    Args.parse_args to_fixed argv = Done cfg' /\
    Main.find_axis "wght" (Args.axes cfg') = Some (400 * 65536).
Proof.
  cbv zeta.
  set (to_fixed := double_to_fixed (Sample.env Sample.abc_face 1 true)).
  set (it := Args.mkArgIter ["atlasgen"; "--axis"; "wght"; "400"; "--font"; "f.ttf";
                             "--axis"; "wght"; "700"; "--out"; "out"]).
  destruct (Args.flag_step to_fixed it Args.initial_config) as [[[it1 cfg1]| | |]|] eqn:E1;
    try (vm_compute in E1; discriminate E1).
  assert (Hn : Main.find_axis "wght" (Args.axes cfg1) = Some (400 * 65536)).
  { vm_compute in E1. injection E1 as <- <-. vm_compute. reflexivity. }
  destruct (Args.flag_loop to_fixed 10 it1 cfg1) as [cfg'| | |] eqn:E2;
    try (vm_compute in E1; injection E1 as <- <-; vm_compute in E2; discriminate E2).
  exists it1, cfg1, cfg'. split; [reflexivity|]. split; [exact Hn|]. split.
  - vm_compute in E1. injection E1 as <- <-. vm_compute in E2. injection E2 as <-.
    vm_compute. reflexivity.
  - exact (repeated_axis_keeps_first_value to_fixed 10 it1 cfg1 cfg' "wght" _ Hn E2).
Defined.

(** ** Automatic ranges *)

Lemma last_cons {A} (a d : A) l : List.last (a :: l) d = List.last l a.
Proof.
  revert a d. induction l as [|b l IH]; intros a d; [reflexivity|].
  change (List.last (a :: b :: l) d) with (List.last (b :: l) d).
  rewrite (IH b d), (IH b a). reflexivity.
Qed.

Lemma seqZ_one m : seqZ m 1 = [m].
Proof. rewrite seqZ_cons by lia. rewrite seqZ_nil by lia. reflexivity. Qed.

Lemma discover_spec face fuel :
  (forall c, fst (FT.FT_Get_Next_Char face c) <> 0 ->
             c < fst (FT.FT_Get_Next_Char face c) < 2 ^ 32) ->
  forall f l acc,
    0 <= f <= l -> l < 2 ^ 32 ->
    fst (FT.FT_Get_Next_Char face (List.last (walk face fuel l) l)) = 0 ->
    exists r rs,
      Resolver.discover face fuel f l acc = Done (acc ++ r :: rs) /\
      fst r = f /\
      requested (r :: rs) = seqZ f (l + 1 - f) ++ walk face fuel l /\
      Forall (fun r => fst r <= snd r) (r :: rs) /\
      Sorted gap (r :: rs).
Proof.
  intros Hmono.
  assert (Hstop : forall fuel f l acc,
            0 <= f <= l -> l < 2 ^ 32 ->
            fst (FT.FT_Get_Next_Char face l) = 0 ->
            walk face fuel l = [] /\
            Resolver.discover face fuel f l acc = Done (acc ++ [(f, l)])).
  { intros k f l acc Hf Hl Hz. split.
    - destruct k; simpl; rewrite Hz; reflexivity.
    - destruct k; simpl; rewrite Hz; simpl; rewrite !u32_small by lia; reflexivity. }
  induction fuel as [|fuel IH]; intros f l acc Hf Hl Hend.
  - assert (Hz : fst (FT.FT_Get_Next_Char face l) = 0).
    { simpl in Hend. destruct (fst (FT.FT_Get_Next_Char face l) =? 0); exact Hend. }
    destruct (Hstop O f l acc Hf Hl Hz) as [Hw Hd].
    exists (f, l), []. rewrite Hd, Hw.
    split; [reflexivity|]. split; [reflexivity|]. split; [reflexivity|].
    split; [repeat constructor; simpl; lia | repeat constructor].
  - destruct (Z.eq_dec (fst (FT.FT_Get_Next_Char face l)) 0) as [Hz|Hnz].
    + destruct (Hstop (S fuel) f l acc Hf Hl Hz) as [Hw Hd].
      exists (f, l), []. rewrite Hd, Hw.
      split; [reflexivity|]. split; [reflexivity|]. split; [reflexivity|].
      split; [repeat constructor; simpl; lia | repeat constructor].
    + pose proof (Hmono l Hnz) as Hn.
      simpl in Hend |- *.
      set (n := fst (FT.FT_Get_Next_Char face l)) in *.
      apply Z.eqb_neq in Hnz. rewrite Hnz in Hend |- *.
      rewrite last_cons in Hend.
      destruct (Z.eqb_spec n (l + 1)) as [Hnext|Hjump]; simpl.
      * destruct (IH f n acc ltac:(lia) ltac:(lia) Hend)
          as (r & rs & Hd & Hr & Hreq & Hle & Hgap).
        exists r, rs. split; [exact Hd|]. split; [exact Hr|].
        split; [|split; assumption].
        rewrite Hreq. replace (n + 1 - f) with ((l + 1 - f) + 1) by lia.
        rewrite seqZ_app by lia. rewrite <- app_assoc. f_equal.
        replace (f + (l + 1 - f)) with n by lia. rewrite seqZ_one. reflexivity.
      * destruct (IH n n (acc ++ [(Cxx.u32 f, Cxx.u32 l)]) ltac:(lia) ltac:(lia) Hend)
          as (r & rs & Hd & Hr & Hreq & Hle & Hgap).
        rewrite !u32_small in Hd by lia. rewrite <- app_assoc in Hd. simpl in Hd.
        rewrite !u32_small by lia.
        exists (f, l), (r :: rs). split; [exact Hd|]. split; [reflexivity|].
        split; [|split].
        -- change (requested ((f, l) :: r :: rs))
             with (seqZ f (l + 1 - f) ++ requested (r :: rs)).
           rewrite Hreq. replace (n + 1 - n) with 1 by lia. rewrite seqZ_one.
           reflexivity.
        -- constructor; [simpl; lia | exact Hle].
        -- constructor; [exact Hgap|]. constructor. unfold gap. simpl. lia.
Qed.

(** Without [--range], and for a charmap whose walk hands out increasing
    32-bit codes and ends within the fuel, the ranges are the maximal runs
    of consecutive mapped codes: together they are exactly the first code
    followed by the codes of the walk, every range has [first <= last] (a
    lone code gives a one-codepoint range), and between two neighbouring
    ranges at least one code is missing. *)
Theorem resolve_discovers_charmap face fuel :
  let first := fst (FT.FT_Get_First_Char face) in
  (forall c, fst (FT.FT_Get_Next_Char face c) <> 0 ->
             c < fst (FT.FT_Get_Next_Char face c) < 2 ^ 32) ->
  0 < first < 2 ^ 32 ->
  fst (FT.FT_Get_Next_Char face (List.last (walk face fuel first) first)) = 0 ->
  exists rs,
    Resolver.resolve face fuel [] = Done rs /\
    requested rs = first :: walk face fuel first /\
    Forall (fun r => fst r <= snd r) rs /\
    Sorted gap rs.
Proof.
  intros first Hmono Hfirst Hend. unfold Resolver.resolve. fold first.
  destruct (Z.eqb_spec first 0) as [|_]; [lia|].
  destruct (discover_spec face fuel Hmono first first [] ltac:(lia) ltac:(lia) Hend)
    as (r & rs & Hd & _ & Hreq & Hle & Hgap).
  exists (r :: rs). split; [exact Hd|]. split; [|split; assumption].
  rewrite Hreq. replace (first + 1 - first) with 1 by lia. rewrite seqZ_one. reflexivity.
Qed.

Lemma resolve_discovers_charmap_witness :
  let face := Sample.face [(65, 3); (66, 7); (67, 7); (70, 2)] Sample.abc_shapes in
  (forall c, fst (FT.FT_Get_Next_Char face c) <> 0 ->
             c < fst (FT.FT_Get_Next_Char face c) < 2 ^ 32) /\
  0 < fst (FT.FT_Get_First_Char face) < 2 ^ 32 /\
  Resolver.resolve face 10 [] = Done [(65, 67); (70, 70)] /\
  requested [(65, 67); (70, 70)] = [65; 66; 67; 70].
Proof.
  cbv zeta.
  set (face := Sample.face [(65, 3); (66, 7); (67, 7); (70, 2)] Sample.abc_shapes).
  assert (Hmono : forall c, fst (FT.FT_Get_Next_Char face c) <> 0 ->
                            c < fst (FT.FT_Get_Next_Char face c) < 2 ^ 32).
  { intros c. unfold face, Sample.face, FT.face_of_charmap, FT.FT_Get_Next_Char,
      FT.charmap_next.
    cbn [List.find fst snd].
    repeat match goal with
           | |- context [?a >? c] => destruct (Z.gtb_spec a c); cbn [andb negb Z.eqb fst]
           end; intros Hn; cbn [fst] in *; lia. }
  assert (Hfirst : 0 < fst (FT.FT_Get_First_Char face) < 2 ^ 32) by (vm_compute; split; reflexivity).
  assert (Hend : fst (FT.FT_Get_Next_Char face
                        (List.last (walk face 10 (fst (FT.FT_Get_First_Char face)))
                                   (fst (FT.FT_Get_First_Char face)))) = 0)
    by (vm_compute; reflexivity).
  split; [exact Hmono|]. split; [exact Hfirst|].
  destruct (resolve_discovers_charmap face 10 Hmono Hfirst Hend) as (rs & Hd & Hreq & _).
  assert (Hrun : Resolver.resolve face 10 [] = Done [(65, 67); (70, 70)])
    by (vm_compute; reflexivity).
  split; [exact Hrun|].
  rewrite Hrun in Hd. injection Hd as <-. rewrite Hreq. vm_compute. reflexivity.
Defined.

(** ** When the collector completes, and what it adds up *)

Lemma for_ranges_requested {S} (body : S -> Z -> outcome S) rs s :
  Forall (fun r => snd r <> Cxx.UINT32_MAX) rs ->
  for_ranges body rs s = foldM body (requested rs) s.
Proof.
  unfold for_ranges. intros H. revert s.
  induction H as [|[f l] rs Hr _ IH]; intros s; [reflexivity|].
  change (requested ((f, l) :: rs)) with (seqZ f (l + 1 - f) ++ requested rs).
  rewrite foldM_app. simpl in Hr |- *.
  destruct (Z.eqb_spec l Cxx.UINT32_MAX); [contradiction|].
  destruct (foldM body (seqZ f (l + 1 - f)) s); simpl; auto.
Qed.

Lemma foldM_total_on {S A} (body : S -> A -> outcome S) l s :
  (forall a, In a l -> forall s, exists s', body s a = Done s') ->
  exists s', foldM body l s = Done s'.
Proof.
  revert s. induction l as [|a l IH]; intros s H; simpl; [eauto|].
  destruct (H a (or_introl eq_refl) s) as [s1 ->]. simpl.
  apply IH. intros b Hb. apply H. right. exact Hb.
Qed.

Lemma collect_cp_total face st cp :
  fst (FT.FT_Load_Glyph face (FT.FT_Get_Char_Index face cp)) = 0 ->
  exists st', Collector.collect_cp face st cp = Done st'.
Proof.
  intros H. unfold Collector.collect_cp.
  destruct (try_emplace _ _ _) as [glyphs' inserted].
  destruct inserted; simpl; [|eauto].
  destruct (FT.FT_Load_Glyph face _) as [err slot]. simpl in H. subst err. simpl.
  destruct (Collector.has_area _); eauto.
Qed.

Lemma try_emplace_new_fresh k v m :
  StronglySorted Z.lt (map fst m) ->
  snd (try_emplace k v m) = true -> ~ In k (map fst m).
Proof.
  intros Hs Hn. destruct (try_emplace_new k v m Hs Hn) as (l1 & l2 & -> & _ & H1 & H2).
  rewrite map_app, in_app_iff. intros [Hin|Hin]; apply in_map_iff in Hin as (e & He & Hin).
  - rewrite Forall_forall in H1. apply list_elem_of_In, H1 in Hin. lia.
  - rewrite Forall_forall in H2. apply list_elem_of_In, H2 in Hin. lia.
Qed.

Lemma note_old seen k : In k seen -> note seen k = seen.
Proof.
  intros H. unfold note. rewrite bool_decide_eq_true_2; [reflexivity|].
  apply list_elem_of_In, H.
Qed.

Lemma note_fresh seen k : ~ In k seen -> note seen k = seen ++ [k].
Proof.
  intros H. unfold note. rewrite bool_decide_eq_false_2; [reflexivity|].
  intros Hin. apply H, list_elem_of_In, Hin.
Qed.

Lemma packed_order_snoc face seen k :
  packed_order face (seen ++ [k])
  = packed_order face seen
    ++ (if Collector.has_area (record_of face k) then [k] else []).
Proof. unfold packed_order. rewrite List.filter_app. reflexivity. Qed.

Lemma sumZ_snoc l x : sumZ (l ++ [x]) = sumZ l + x.
Proof. unfold sumZ. induction l as [|a l IH]; simpl; [lia | rewrite IH; lia]. Qed.

Lemma width_sum_snoc face l k :
  width_sum face (l ++ [k]) = width_sum face l + width (record_of face k).
Proof. unfold width_sum. rewrite map_app. apply sumZ_snoc. Qed.

Lemma height_sum_snoc face l k :
  height_sum face (l ++ [k]) = height_sum face l + height (record_of face k).
Proof. unfold height_sum. rewrite map_app. apply sumZ_snoc. Qed.

Lemma u32_add_l a b : Cxx.u32 (Cxx.u32 a + b) = Cxx.u32 (a + b).
Proof. unfold Cxx.u32. apply Zplus_mod_idemp_l. Qed.

(** One codepoint: which glyphs have been loaded without error, and the
    running totals. *)
Lemma collect_cp_step face seen st cp st' :
  collected face seen st ->
  Collector.collect_cp face st cp = Done st' ->
  let k := FT.FT_Get_Char_Index face cp in
  ((forall j, In j seen -> fst (FT.FT_Load_Glyph face j) = 0) ->
   forall j, In j (note seen k) -> fst (FT.FT_Load_Glyph face j) = 0) /\
  (Collector.totalW st = Cxx.u32 (width_sum face (packed_order face seen)) ->
   Collector.totalW st' = Cxx.u32 (width_sum face (packed_order face (note seen k)))) /\
  (Collector.totalH st = Cxx.u32 (height_sum face (packed_order face seen)) ->
   Collector.totalH st' = Cxx.u32 (height_sum face (packed_order face (note seen k)))).
Proof.
  intros Hc H k. unfold Collector.collect_cp in H. fold k in H.
  destruct (try_emplace k zero_glyph (Collector.glyphs st)) as [glyphs' inserted] eqn:E.
  destruct inserted; simpl in H.
  - assert (Hfresh : ~ In k seen).
    { rewrite <- (col_keys _ _ _ Hc).
      apply (try_emplace_new_fresh k zero_glyph); [apply (col_sorted _ _ _ Hc)|].
      rewrite E. reflexivity. }
    rewrite (note_fresh _ _ Hfresh), packed_order_snoc.
    destruct (FT.FT_Load_Glyph face k) as [err slot] eqn:L.
    apply bind_Done_inv in H as (u & Herr & H). apply CheckFtErr_Done in Herr. subst err.
    assert (Hrec : Collector.glyph_of_slot k slot = record_of face k)
      by (unfold record_of; rewrite L; reflexivity).
    rewrite Hrec in H.
    split; [|split].
    + intros Hold j Hj. apply in_app_iff in Hj as [Hj|[<-|[]]]; [auto | rewrite L; reflexivity].
    + intros HW. destruct (Collector.has_area (record_of face k)); injection H as <-;
        cbn [Collector.totalW Collector.totalH].
      * rewrite width_sum_snoc, HW, u32_add_l, <- Hrec. reflexivity.
      * rewrite app_nil_r. exact HW.
    + intros HH. destruct (Collector.has_area (record_of face k)); injection H as <-;
        cbn [Collector.totalW Collector.totalH].
      * rewrite height_sum_snoc, HH, u32_add_l, <- Hrec. reflexivity.
      * rewrite app_nil_r. exact HH.
  - injection H as <-.
    assert (Hold : In k seen).
    { rewrite <- (col_keys _ _ _ Hc).
      apply (try_emplace_found k zero_glyph). rewrite E. reflexivity. }
    rewrite (note_old _ _ Hold). tauto.
Qed.

Lemma foldM_collect_steps face cps seen st st' :
  collected face seen st ->
  foldM (Collector.collect_cp face) cps st = Done st' ->
  let seen' := fold_left note (map (FT.FT_Get_Char_Index face) cps) seen in
  ((forall j, In j seen -> fst (FT.FT_Load_Glyph face j) = 0) ->
   forall j, In j seen' -> fst (FT.FT_Load_Glyph face j) = 0) /\
  (Collector.totalW st = Cxx.u32 (width_sum face (packed_order face seen)) ->
   Collector.totalW st' = Cxx.u32 (width_sum face (packed_order face seen'))) /\
  (Collector.totalH st = Cxx.u32 (height_sum face (packed_order face seen)) ->
   Collector.totalH st' = Cxx.u32 (height_sum face (packed_order face seen'))).
Proof.
  revert seen st. induction cps as [|cp cps IH]; intros seen st Hc H; simpl in H |- *.
  - injection H as <-. tauto.
  - apply bind_Done_inv in H as (st1 & H1 & H).
    pose proof (collect_cp_collected _ _ _ _ _ Hc H1) as Hc1.
    destruct (collect_cp_step _ _ _ _ _ Hc H1) as (A1 & B1 & C1).
    destruct (IH _ _ Hc1 H) as (A2 & B2 & C2).
    split; [|split]; auto.
Qed.

(** The collector completes exactly when no range ends at [UINT32_MAX]
    (the loop over such a range never ends) and [FT_Load_Glyph] reports no
    error for the glyph of any requested codepoint. *)
Theorem collect_completes_iff face cpRanges :
  (exists col, Collector.collect face cpRanges = Done col) <->
  Forall (fun r => snd r <> Cxx.UINT32_MAX) cpRanges /\
  forall cp, In cp (requested cpRanges) ->
             fst (FT.FT_Load_Glyph face (FT.FT_Get_Char_Index face cp)) = 0.
Proof.
  split.
  - intros [col H]. unfold Collector.collect in H.
    apply for_ranges_Done in H as [Hr H]. split; [exact Hr|].
    destruct (foldM_collect_steps _ _ _ _ _ (collected_initial face) H) as (Hload & _).
    intros cp Hcp. apply Hload; [intros j []|].
    apply list_elem_of_In. apply (first_seen_elem _ _).
    apply list_elem_of_In, in_map, Hcp.
  - intros [Hr Hload]. unfold Collector.collect.
    rewrite (for_ranges_requested _ _ _ Hr).
    apply foldM_total_on. intros cp Hcp st. apply collect_cp_total, Hload, Hcp.
Qed.

Lemma collect_completes_iff_witness :
  Collector.collect Sample.abc_face Sample.abc_ranges = Done Sample.abc_collected /\
  Forall (fun r => snd r <> Cxx.UINT32_MAX) Sample.abc_ranges.
Proof.
  assert (H : Collector.collect Sample.abc_face Sample.abc_ranges = Done Sample.abc_collected)
    by (vm_compute; reflexivity).
  split; [exact H|].
  exact (proj1 (proj1 (collect_completes_iff Sample.abc_face Sample.abc_ranges)
                      (ex_intro _ _ H))).
Defined.

(** [totalW] and [totalH] are the sums, modulo [2^32], of the widths and
    heights of the glyphs that got a rectangle; there are as many
    rectangles as such glyphs. *)
Theorem collect_totals face cpRanges col :
  Collector.collect face cpRanges = Done col ->
  let packed :=
    packed_order face (first_seen (map (FT.FT_Get_Char_Index face) (requested cpRanges))) in
  Collector.totalW col = Cxx.u32 (width_sum face packed) /\
  Collector.totalH col = Cxx.u32 (height_sum face packed) /\
  length (Collector.rects col) = length packed.
Proof.
  intros H packed. pose proof (collect_collected _ _ _ H) as Hc.
  unfold Collector.collect in H. apply for_ranges_Done in H as [_ H].
  destruct (foldM_collect_steps _ _ _ _ _ (collected_initial face) H) as (_ & HW & HH).
  split; [apply HW; reflexivity|]. split; [apply HH; reflexivity|].
  rewrite (col_rects _ _ _ Hc), length_map. reflexivity.
Qed.

Lemma collect_totals_witness :
  Collector.collect Sample.abc_face Sample.abc_ranges = Done Sample.abc_collected /\
  Collector.totalW Sample.abc_collected = 25 /\
  Collector.totalH Sample.abc_collected = 26.
Proof.
  assert (H : Collector.collect Sample.abc_face Sample.abc_ranges = Done Sample.abc_collected)
    by (vm_compute; reflexivity).
  split; [exact H|].
  destruct (collect_totals _ _ _ H) as (HW & HH & _).
  split; [rewrite HW | rewrite HH]; vm_compute; reflexivity.
Defined.

(** The glyph table is keyed and ordered by glyph index, one record per
    index the requested codepoints map to; every record carries its key as
    [glyphIndex] and the bitmap size, bearings and advance that
    [FT_Load_Glyph] reports for it. *)
Theorem glyph_table_sorted_with_face_metrics face cpRanges col :
  Collector.collect face cpRanges = Done col ->
  StronglySorted Z.lt (map fst (Collector.glyphs col)) /\
  Forall (fun e =>
            let slot := snd (FT.FT_Load_Glyph face (fst e)) in
            glyphIndex (snd e) = fst e /\
            width (snd e) = FT.width (FT.bitmap slot) /\
            height (snd e) = FT.rows (FT.bitmap slot) /\
            leftBearing (snd e) = FT.bitmap_left slot /\
            topBearing (snd e) = FT.bitmap_top slot /\
            advance (snd e) = FT.advance_x slot)
         (Collector.glyphs col).
Proof.
  intros H. pose proof (collect_collected _ _ _ H) as Hc.
  split; [apply (col_sorted _ _ _ Hc)|].
  apply Forall_forall. intros e He. apply list_elem_of_In in He.
  destruct (collected_entry _ _ _ _ Hc He) as [_ ->]. cbv zeta. simpl. tauto.
Qed.

Lemma glyph_table_sorted_with_face_metrics_witness :
  Collector.collect Sample.abc_face Sample.abc_ranges = Done Sample.abc_collected /\
  map fst (Collector.glyphs Sample.abc_collected) = [0; 3; 7] /\
  StronglySorted Z.lt (map fst (Collector.glyphs Sample.abc_collected)).
Proof.
  assert (H : Collector.collect Sample.abc_face Sample.abc_ranges = Done Sample.abc_collected)
    by (vm_compute; reflexivity).
  split; [exact H|]. split; [vm_compute; reflexivity|].
  exact (proj1 (glyph_table_sorted_with_face_metrics _ _ _ H)).
Defined.

(** ** Growth of the packing canvas *)

Lemma round24_error n : 0 < n -> 2 ^ 24 * (n - Packer.round24 n) <= n.
Proof.
  intros Hn. unfold Packer.round24.
  destruct (Z.leb_spec (Z.log2 n - 23) 0) as [|He]; [lia|].
  set (e := Z.log2 n - 23) in *.
  pose proof (Z.log2_spec n Hn) as [Hlo _].
  replace (Z.log2 n) with ((e - 1) + 24) in Hlo by lia.
  rewrite Z.pow_add_r in Hlo by lia.
  assert (He2 : 2 ^ e = 2 * 2 ^ (e - 1)).
  { replace e with (Z.succ (e - 1)) at 1 by lia. apply Z.pow_succ_r. lia. }
  assert (Hp : 0 < 2 ^ (e - 1)) by (apply Z.pow_pos_nonneg; lia).
  pose proof (Z.div_mod n (2 ^ e) ltac:(lia)) as Hdm.
  pose proof (Z.mod_pos_bound n (2 ^ e) ltac:(lia)) as Hr.
  assert (Hq : 0 <= n / 2 ^ e) by (apply Z.div_pos; lia).
  set (q := n / 2 ^ e) in *. set (r := n mod 2 ^ e) in *. set (P := 2 ^ (e - 1)) in *.
  rewrite He2 in *.
  destruct ((r >? P) || ((r =? P) && Z.odd q)) eqn:Hc.
  - nia.
  - apply orb_false_iff in Hc as [Hc _]. rewrite Z.gtb_ltb in Hc. apply Z.ltb_ge in Hc. nia.
Qed.

Lemma round24_pos n : 0 < n -> 0 < Packer.round24 n.
Proof. intros Hn. pose proof (round24_error n Hn). lia. Qed.

Lemma grow_bigger t : 5 <= t -> t < Packer.grow t.
Proof.
  intros Ht. destruct (Z.eq_dec t 5) as [->|Hne]; [vm_compute; reflexivity|].
  unfold Packer.grow, Packer.RP_GROWTH_num.
  pose proof (round24_error t ltac:(lia)) as Ha.
  pose proof (round24_pos t ltac:(lia)) as Hapos.
  set (a := Packer.round24 t) in *.
  pose proof (round24_error (a * 10066330) ltac:(lia)) as Hb.
  set (b := Packer.round24 (a * 10066330)) in *.
  apply Z.lt_le_trans with (t + 1); [lia|].
  apply Z.div_le_lower_bound; lia.
Qed.

Lemma round24_error_up n : 0 < n -> 2 ^ 24 * (Packer.round24 n - n) <= n.
Proof.
  intros Hn. unfold Packer.round24.
  destruct (Z.leb_spec (Z.log2 n - 23) 0) as [|He]; [lia|].
  set (e := Z.log2 n - 23) in *.
  pose proof (Z.log2_spec n Hn) as [Hlo _].
  replace (Z.log2 n) with ((e - 1) + 24) in Hlo by lia.
  rewrite Z.pow_add_r in Hlo by lia.
  assert (He2 : 2 ^ e = 2 * 2 ^ (e - 1)).
  { replace e with (Z.succ (e - 1)) at 1 by lia. apply Z.pow_succ_r. lia. }
  assert (Hp : 0 < 2 ^ (e - 1)) by (apply Z.pow_pos_nonneg; lia).
  pose proof (Z.div_mod n (2 ^ e) ltac:(lia)) as Hdm.
  pose proof (Z.mod_pos_bound n (2 ^ e) ltac:(lia)) as Hr.
  assert (Hq : 0 <= n / 2 ^ e) by (apply Z.div_pos; lia).
  set (q := n / 2 ^ e) in *. set (r := n mod 2 ^ e) in *. set (P := 2 ^ (e - 1)) in *.
  rewrite He2 in *.
  destruct ((r >? P) || ((r =? P) && Z.odd q)) eqn:Hc.
  - apply orb_true_iff in Hc as [Hc|Hc].
    + rewrite Z.gtb_ltb in Hc. apply Z.ltb_lt in Hc. nia.
    + apply andb_true_iff in Hc as [Hc _]. apply Z.eqb_eq in Hc. nia.
  - nia.
Qed.

Lemma grow_in_int t : 0 <= t <= 1789569000 -> 0 <= Packer.grow t < 2 ^ 31.
Proof.
  intros Ht. destruct (Z.eq_dec t 0) as [->|Hne]; [vm_compute; split; [discriminate | reflexivity]|].
  unfold Packer.grow, Packer.RP_GROWTH_num.
  pose proof (round24_error_up t ltac:(lia)) as Ha.
  pose proof (round24_pos t ltac:(lia)) as Hapos.
  set (a := Packer.round24 t) in *.
  pose proof (round24_error_up (a * 10066330) ltac:(lia)) as Hb.
  pose proof (round24_pos (a * 10066330) ltac:(lia)) as Hbpos.
  set (b := Packer.round24 (a * 10066330)) in *.
  split; [apply Z.div_pos; lia|].
  apply Z.div_lt_upper_bound; lia.
Qed.

(** On an [int] side of up to 1789569000 pixels the growth step is
    defined: the truncated float product fits an [int] again, it never
    shrinks the side, and from 5 pixels on it enlarges the side by at least
    one pixel.  (Sides up to 4 stay as they are; a few hundred thousand
    pixels further up, at 1789569707, the product is [2^31], which no [int]
    holds.) *)
Theorem grow_increases t :
  0 <= t <= 1789569000 ->
  t <= Packer.grow t /\ Packer.grow t < 2 ^ 31 /\
  Cxx.fits_int (Packer.grow t) = true /\
  (5 <= t -> t < Packer.grow t).
Proof.
  intros Ht. pose proof (grow_in_int t Ht) as Hin.
  assert (Hle : t <= Packer.grow t).
  { destruct (Z_lt_le_dec t 5) as [Hs|Hl].
    - rewrite grow_stuck by lia. lia.
    - pose proof (grow_bigger t Hl). lia. }
  split; [exact Hle|]. split; [lia|]. split; [apply fits_int_iff; lia|].
  apply grow_bigger.
Qed.

Lemma grow_increases_witness :
  0 <= 100 <= 1789569000 /\ 5 <= 100 /\ 100 < Packer.grow 100 /\ Packer.grow 100 < 2 ^ 31.
Proof.
  assert (H : 0 <= 100 <= 1789569000) by lia.
  assert (H5 : 5 <= 100) by lia.
  destruct (grow_increases 100 H) as (_ & Hlt & _ & Hgt).
  split; [exact H|]. split; [exact H5|]. split; [exact (Hgt H5) | exact Hlt].
Defined.




(** ** A selection without any non-empty glyph *)

Lemma pack_loop_stuck_empty pack fuel :
  Stb.packer_ok pack -> fst (pack 0 0 0 []) = 0 ->
  Packer.pack_loop pack fuel 0 0 0 [] = Hang.
Proof.
  intros Hpack Hz. induction fuel as [|fuel IH]; [reflexivity|].
  simpl. pose proof (Stb.pack_dims pack Hpack 0 0 0 []) as Hd.
  destruct (pack 0 0 0 []) as [ok rs']. simpl in Hz, Hd. subst ok. simpl.
  destruct rs'; [|discriminate]. exact IH.
Qed.

(** When no requested glyph has an area there is nothing to pack: both
    totals are 0, the packer is asked once for a 0x0 canvas, and the atlas
    is 0x0 if it reports success on the empty list; if it reports failure
    the loop retries the same 0x0 canvas forever. *)
Theorem empty_selection_atlas pack fuel face cpRanges col :
  Stb.packer_ok pack ->
  Collector.collect face cpRanges = Done col ->
  Collector.rects col = [] ->
  Collector.totalW col = 0 /\ Collector.totalH col = 0 /\
  Packer.pack_atlas pack (S fuel) (Collector.totalW col) (Collector.totalH col)
    (Collector.rects col)
  = if fst (pack 0 0 0 []) =? 0 then Hang else Done ([], (0, 0)).
Proof.
  intros Hpack Hcol Hempty.
  pose proof (collect_collected _ _ _ Hcol) as Hc.
  pose proof (col_rects _ _ _ Hc) as Hlen.
  rewrite Hempty in Hlen. symmetry in Hlen. apply map_eq_nil in Hlen.
  pose proof Hcol as Hfold. unfold Collector.collect in Hfold.
  apply for_ranges_Done in Hfold as [_ Hfold].
  destruct (foldM_collect_steps _ _ _ _ _ (collected_initial face) Hfold) as (_ & HW & HH).
  specialize (HW eq_refl). specialize (HH eq_refl).
  unfold first_seen in Hlen. rewrite Hlen in HW, HH. change (Cxx.u32 _) with 0 in HW, HH.
  split; [exact HW|]. split; [exact HH|].
  rewrite HW, HH, Hempty. unfold Packer.pack_atlas.
  change (Z.sqrt 0) with 0. change (Cxx.u64 (0 * 2)) with 0.
  destruct (Z.eqb_spec (fst (pack 0 0 0 [])) 0) as [Hz|Hnz].
  - rewrite (pack_loop_stuck_empty pack (S fuel) Hpack Hz). reflexivity.
  - simpl. pose proof (Stb.pack_dims pack Hpack 0 0 0 []) as Hd.
    destruct (pack 0 0 0 []) as [ok rs']. simpl in Hnz, Hd.
    destruct rs'; [|discriminate].
    apply Z.eqb_neq in Hnz. rewrite Hnz. reflexivity.
Qed.

Lemma empty_selection_atlas_witness :
  let face := Sample.face [(32, 1)] [] in
  exists col,
    Collector.collect face [(32, 33)] = Done col /\
    Collector.rects col = [] /\
    Packer.pack_atlas Stb.row_packer 1 (Collector.totalW col) (Collector.totalH col)
      (Collector.rects col) = Done ([], (0, 0)).
Proof.
  cbv zeta.
  destruct (Collector.collect (Sample.face [(32, 1)] []) [(32, 33)]) as [col| | |] eqn:Hcol;
    [|vm_compute in Hcol; discriminate Hcol..].
  assert (Hempty : Collector.rects col = [])
    by (vm_compute in Hcol; injection Hcol as <-; reflexivity).
  exists col. split; [reflexivity|]. split; [exact Hempty|].
  rewrite (proj2 (proj2 (empty_selection_atlas Stb.row_packer O _ _ _ row_packer_ok
                           Hcol Hempty))).
  reflexivity.
Defined.

(** ** Compositing *)

Lemma fold_insert_spec {K A} (f : K -> nat) (v : K -> A) ks bmp :
  let out := fold_left (fun b k => <[f k := v k]> b) ks bmp in
  length out = length bmp /\
  (forall i, (forall k, In k ks -> f k <> i) -> out !! i = bmp !! i) /\
  (forall k, In k ks -> (forall k', In k' ks -> f k' = f k -> k' = k) ->
             (f k < length bmp)%nat -> out !! f k = Some (v k)).
Proof.
  revert bmp. induction ks as [|a ks IH]; intros bmp; simpl.
  - split; [reflexivity|]. split; [reflexivity | intros k []].
  - destruct (IH (<[f a := v a]> bmp)) as (Hlen & Hout & Hin).
    rewrite length_insert in Hlen, Hin.
    split; [exact Hlen|]. split.
    + intros i Hi. rewrite Hout by (intros k Hk; apply Hi; auto).
      apply list_lookup_insert_ne, Hi. auto.
    + intros k Hk Hinj Hlt.
      assert (Hlater : In k ks -> fold_left (fun b k => <[f k := v k]> b) ks
                                    (<[f a := v a]> bmp) !! f k = Some (v k)).
      { intros Hk'. apply Hin; auto. }
      destruct Hk as [->|Hk]; [|auto].
      destruct (decide (Exists (fun k' => f k' = f k) ks)) as [Hex|Hnex].
      * apply Exists_exists in Hex as (k' & Hk' & Heq). apply list_elem_of_In in Hk'.
        assert (k' = k) by (apply Hinj; auto). subst k'. auto.
      * rewrite Hout.
        -- apply list_lookup_insert_eq. exact Hlt.
        -- intros k' Hk' Heq. apply Hnex, Exists_exists. exists k'.
           split; [apply list_elem_of_In, Hk' | exact Heq].
Qed.

Lemma foldM_map {S A B} (body : S -> B -> outcome S) (f : A -> B) l s :
  foldM body (map f l) s = foldM (fun s a => body s (f a)) l s.
Proof.
  revert s. induction l as [|a l IH]; intros s; simpl; [reflexivity|].
  destruct (body s (f a)); simpl; auto.
Qed.

Lemma foldM_nested {B} (g : B -> Z -> Z -> outcome B) ys xs b :
  foldM (fun b y => foldM (fun b x => g b x y) xs b) ys b
  = foldM (fun b p => g b (snd p) (fst p)) (list_prod ys xs) b.
Proof.
  revert b. induction ys as [|y ys IH]; intros b; simpl; [reflexivity|].
  rewrite foldM_app, foldM_map. cbn [fst snd].
  destruct (foldM (fun b x => g b x y) xs b); simpl; auto.
Qed.

Lemma foldM_store_Done {K} (f v : K -> Z) ks bmp out :
  foldM (fun b k => Compositor.store (f k) (v k) b) ks bmp = Done out ->
  out = fold_left (fun b k => <[Z.to_nat (f k) := v k]> b) ks bmp /\
  Forall (fun k => f k < Z.of_nat (length bmp)) ks.
Proof.
  revert bmp. induction ks as [|a ks IH]; intros bmp H; simpl in H.
  - injection H as <-. split; [reflexivity | constructor].
  - apply bind_Done_inv in H as (b1 & H1 & H). unfold Compositor.store in H1.
    destruct (Z.ltb_spec (f a) (Z.of_nat (length bmp))) as [Hlt|]; [|discriminate].
    injection H1 as <-. apply IH in H as [-> HF]. rewrite length_insert in HF.
    split; [reflexivity | constructor; assumption].
Qed.

Lemma blit_flat px rows width rect atlasPitch atlasBmp :
  Compositor.blit px rows width rect atlasPitch atlasBmp
  = foldM (fun b p =>
      Compositor.store (Compositor.dst_index rect atlasPitch (snd p) (fst p))
        (px (snd p) (fst p)) b)
      (list_prod (seqZ 0 rows) (seqZ 0 width)) atlasBmp.
Proof.
  unfold Compositor.blit.
  apply (foldM_nested (fun b x y =>
           Compositor.store (Compositor.dst_index rect atlasPitch x y) (px x y) b)).
Qed.


Lemma in_seqZ_prod p rows width :
  In p (list_prod (seqZ 0 rows) (seqZ 0 width)) <->
  0 <= fst p < rows /\ 0 <= snd p < width.
Proof.
  destruct p as [y x]. rewrite in_prod_iff, <- !list_elem_of_In, !elem_of_seqZ. simpl. lia.
Qed.

Lemma atlas_index_inj atlasPitch X Y X' Y' :
  0 <= X < atlasPitch -> 0 <= X' < atlasPitch -> 0 <= Y -> 0 <= Y' ->
  atlas_index atlasPitch X Y = atlas_index atlasPitch X' Y' -> X = X' /\ Y = Y'.
Proof.
  unfold atlas_index. intros HX HX' HY HY' H.
  apply Z2Nat.inj in H; [|nia|nia].
  assert (Y = Y') by nia. subst. lia.
Qed.

(** While the sums and the product stay within their types, the position
    of a store is the plain row-major position. *)
Lemma dst_index_plain rect atlasPitch x y :
  0 <= x -> 0 <= y -> 0 <= Stb.x rect -> 0 <= Stb.y rect ->
  x + Stb.x rect < 2 ^ 32 -> y + Stb.y rect < 2 ^ 32 -> 0 <= atlasPitch < 2 ^ 32 ->
  Compositor.dst_index rect atlasPitch x y
  = (x + Stb.x rect) + (y + Stb.y rect) * atlasPitch.
Proof.
  intros. unfold Compositor.dst_index, Cxx.u64. rewrite !u32_small by lia.
  rewrite (Z.mod_small ((y + Stb.y rect) * atlasPitch)) by nia.
  apply Z.mod_small. nia.
Qed.

Lemma blit_spec px rows width rect atlasPitch atlasBmp out :
  Compositor.blit px rows width rect atlasPitch atlasBmp = Done out ->
  0 <= Stb.x rect -> 0 <= Stb.y rect ->
  Stb.x rect + width <= atlasPitch -> atlasPitch < 2 ^ 32 ->
  Stb.y rect + rows < 2 ^ 32 ->
  length out = length atlasBmp /\
  (forall x y, 0 <= x < width -> 0 <= y < rows ->
     out !! atlas_index atlasPitch (x + Stb.x rect) (y + Stb.y rect) = Some (px x y)) /\
  (forall X Y, 0 <= X < atlasPitch -> 0 <= Y ->
     ~ (Stb.x rect <= X < Stb.x rect + width /\ Stb.y rect <= Y < Stb.y rect + rows) ->
     out !! atlas_index atlasPitch X Y = atlasBmp !! atlas_index atlasPitch X Y).
Proof.
  intros H Hx Hy Hw Hp Hh. rewrite blit_flat in H.
  apply (foldM_store_Done
           (fun p => Compositor.dst_index rect atlasPitch (snd p) (fst p))
           (fun p => px (snd p) (fst p))) in H as [-> HF].
  set (f := fun p : Z * Z =>
              Z.to_nat (Compositor.dst_index rect atlasPitch (snd p) (fst p))).
  set (v := fun p : Z * Z => px (snd p) (fst p)).
  destruct (fold_insert_spec f v (list_prod (seqZ 0 rows) (seqZ 0 width)) atlasBmp)
    as (Hlen & Hout & Hin).
  assert (Hf : forall p, In p (list_prod (seqZ 0 rows) (seqZ 0 width)) ->
                 f p = atlas_index atlasPitch (snd p + Stb.x rect) (fst p + Stb.y rect)).
  { intros [y x] Hp'. apply in_seqZ_prod in Hp'. simpl in Hp'. unfold f, atlas_index.
    cbn [fst snd]. rewrite dst_index_plain by lia. reflexivity. }
  split; [exact Hlen|]. split.
  - intros x y Hxr Hyr.
    assert (Hp' : In (y, x) (list_prod (seqZ 0 rows) (seqZ 0 width)))
      by (apply in_seqZ_prod; simpl; lia).
    pose proof (Hf (y, x) Hp') as E. cbn [fst snd] in E. rewrite <- E.
    apply (Hin (y, x) Hp').
    + intros [y' x'] Hq Heq. rewrite (Hf _ Hq), (Hf _ Hp') in Heq.
      apply in_seqZ_prod in Hq. simpl in Hq, Heq.
      apply atlas_index_inj in Heq; [|lia..]. f_equal; lia.
    + rewrite Forall_forall in HF. specialize (HF (y, x) (proj2 (list_elem_of_In _ _) Hp')).
      unfold f. cbn [fst snd] in HF |- *.
      pose proof (dst_index_plain rect atlasPitch x y) as Hd.
      rewrite Hd in HF |- * by lia.
      assert (0 <= (y + Stb.y rect) * atlasPitch) by nia. lia.
  - intros X Y HX HY Hout'. apply Hout.
    intros [y x] Hq Heq. rewrite (Hf _ Hq) in Heq.
    apply in_seqZ_prod in Hq. simpl in Hq, Heq.
    apply atlas_index_inj in Heq; [|lia..].
    apply Hout'. lia.
Qed.

Lemma composite_glyph_Done face mono atlasPitch rects bmp e rects1 bmp1 :
  Compositor.composite_glyph face mono atlasPitch (rects, bmp) e = Done (rects1, bmp1) ->
  match target e with
  | None => rects1 = rects /\ bmp1 = bmp
  | Some i =>
      exists slot,
        rendered_slot face mono (glyphIndex (snd e)) = Done slot /\
        (FT.pixel_mode (FT.bitmap slot) = FT.FT_PIXEL_MODE_GRAY \/
         FT.pixel_mode (FT.bitmap slot) = FT.FT_PIXEL_MODE_MONO) /\
        rects1 = alter Compositor.remove_padding i rects /\
        run_job atlasPitch bmp (slot, default Compositor.zero_rect (rects1 !! i))
        = Done bmp1
  end.
Proof.
  unfold Compositor.composite_glyph, target, rendered_slot, run_job, slot_pixel.
  destruct (rectIndex (snd e) =? Cxx.NO_RECT); [intros [= <- <-]; auto|].
  destruct (FT.FT_Load_Glyph face (glyphIndex (snd e))) as [err slot].
  intros H. apply bind_Done_inv in H as (u & -> & H). cbn [bind].
  apply bind_Done_inv in H as (s & Hs & H). rewrite Hs. cbv zeta in H.
  exists s. split; [reflexivity|]. cbn [fst snd].
  destruct (Z.eqb_spec (FT.pixel_mode (FT.bitmap s)) FT.FT_PIXEL_MODE_GRAY) as [Eg|Eg].
  { apply bind_Done_inv in H as (b & Hb & H). injection H as <- <-. auto. }
  destruct (Z.eqb_spec (FT.pixel_mode (FT.bitmap s)) FT.FT_PIXEL_MODE_MONO) as [Em|Em].
  { apply bind_Done_inv in H as (b & Hb & H). injection H as <- <-. auto. }
  destruct (_ || _); discriminate.
Qed.

Lemma mono_pixel_bit bm x y :
  Compositor.mono_pixel bm x y
  = if Z.testbit (Compositor.byte_at (FT.buffer bm) (x / 8 + y * Z.abs (FT.pitch bm)))
                 (7 - x mod 8)
    then 255 else 0.
Proof.
  unfold Compositor.mono_pixel.
  set (b := Compositor.byte_at _ _). set (k := 7 - x mod 8).
  change 1 with (Z.ones 1) at 1. rewrite Z.land_ones by lia.
  change (2 ^ 1) with 2. rewrite <- Z.bit0_mod, Z.shiftr_spec by lia.
  rewrite Z.add_0_l. destruct (Z.testbit b k); reflexivity.
Qed.

(** One turn of the compositor's loop on a glyph that is delivered as a
    1-bit bitmap: once the turn is through, and with the glyph's rectangle
    (padding removed) inside a row of the atlas, the atlas pixel at offset
    [(x, y)] from the rectangle's corner is 255 when bit [7 - x mod 8] of
    byte [x / 8] of row [y] of the bitmap is set (most significant bit
    first) and 0 otherwise. *)
Theorem mono_glyph_copied_msb_first
    face mono atlasPitch rects bmp e rects1 bmp1 slot :
  Compositor.composite_glyph face mono atlasPitch (rects, bmp) e = Done (rects1, bmp1) ->
  rectIndex (snd e) <> Cxx.NO_RECT ->
  rendered_slot face mono (glyphIndex (snd e)) = Done slot ->
  FT.pixel_mode (FT.bitmap slot) = FT.FT_PIXEL_MODE_MONO ->
  let bm := FT.bitmap slot in
  let rect := default Compositor.zero_rect (rects1 !! Z.to_nat (rectIndex (snd e))) in
  0 <= Stb.x rect -> 0 <= Stb.y rect ->
  Stb.x rect + FT.width bm <= atlasPitch -> atlasPitch < 2 ^ 32 ->
  Stb.y rect + FT.rows bm < 2 ^ 32 ->
  forall x y, 0 <= x < FT.width bm -> 0 <= y < FT.rows bm ->
    bmp1 !! atlas_index atlasPitch (x + Stb.x rect) (y + Stb.y rect)
    = Some (if Z.testbit
                 (Compositor.byte_at (FT.buffer bm) (x / 8 + y * Z.abs (FT.pitch bm)))
                 (7 - x mod 8)
            then 255 else 0).
Proof.
  intros H Hri Hs Hmode bm rect Hx Hy Hw Hp Hh x y Hxr Hyr. subst bm rect.
  apply composite_glyph_Done in H. unfold target in H.
  destruct (Z.eqb_spec (rectIndex (snd e)) Cxx.NO_RECT) as [|_]; [contradiction|].
  destruct H as (slot' & Hs' & _ & _ & Hjob).
  assert (slot' = slot) by congruence. subst slot'.
  unfold run_job in Hjob. cbn [fst snd] in Hjob.
  destruct (blit_spec _ _ _ _ _ _ _ Hjob Hx Hy Hw Hp Hh) as (_ & Hin & _).
  rewrite (Hin x y Hxr Hyr). f_equal.
  unfold slot_pixel. rewrite Hmode. simpl. apply mono_pixel_bit.
Qed.

Lemma mono_glyph_copied_msb_first_witness :
  let col := Sample.mono_collected in
  let bmp := snd Sample.mono_composited in
  Collector.collect Sample.mono_face Sample.mono_ranges = Done col /\
  Packer.pack_atlas Stb.row_packer 50 (Collector.totalW col) (Collector.totalH col)
    (Collector.rects col) = Done Sample.mono_packed /\
  Compositor.composite Sample.mono_face true (Collector.glyphs col) (fst Sample.mono_packed)
    (fst (snd Sample.mono_packed)) (snd (snd Sample.mono_packed))
  = Done Sample.mono_composited /\
  snd Sample.mono_packed = (27, 27) /\
  bmp !! atlas_index 27 1 1 = Some 255 /\
  bmp !! atlas_index 27 2 1 = Some 0 /\
  bmp !! atlas_index 27 25 25 = Some 255.
Proof.
  cbv zeta.
  set (e := (1, {| rectIndex := 0; glyphIndex := 1; width := 25; height := 25;
                   leftBearing := 0; topBearing := 25; advance := 1600 |})).
  set (slot := snd (Sample.render_columns (Sample.outline 25 25 1600) FT.FT_RENDER_MODE_MONO)).
  assert (H : Compositor.composite_glyph Sample.mono_face true 27
                (fst Sample.mono_packed, replicate 729 0) e
              = Done (fst Sample.mono_composited, snd Sample.mono_composited))
    by (vm_compute; reflexivity).
  assert (Hri : rectIndex (snd e) <> Cxx.NO_RECT) by (vm_compute; discriminate).
  assert (Hs : rendered_slot Sample.mono_face true (glyphIndex (snd e)) = Done slot)
    by (vm_compute; reflexivity).
  assert (Hmode : FT.pixel_mode (FT.bitmap slot) = FT.FT_PIXEL_MODE_MONO) by reflexivity.
  assert (Hr : default Compositor.zero_rect
                 (fst Sample.mono_composited !! Z.to_nat (rectIndex (snd e)))
               = {| Stb.id := 0; Stb.w := 25; Stb.h := 25; Stb.x := 1; Stb.y := 1;
                    Stb.was_packed := 1 |}) by (vm_compute; reflexivity).
  pose proof (mono_glyph_copied_msb_first _ _ _ _ _ _ _ _ _ H Hri Hs Hmode) as Hpx.
  cbv zeta in Hpx. rewrite Hr in Hpx.
  cbn [Stb.x Stb.y] in Hpx.
  assert (Hw : FT.width (FT.bitmap slot) = 25) by reflexivity.
  assert (Hh : FT.rows (FT.bitmap slot) = 25) by reflexivity.
  rewrite Hw, Hh in Hpx.
  specialize (Hpx ltac:(lia) ltac:(lia) ltac:(lia) ltac:(lia) ltac:(lia)).
  split; [vm_compute; reflexivity|]. split; [vm_compute; reflexivity|].
  split; [vm_compute; reflexivity|]. split; [reflexivity|].
  split; [|split].
  - exact (Hpx 0 0 ltac:(lia) ltac:(lia)).
  - exact (Hpx 1 0 ltac:(lia) ltac:(lia)).
  - exact (Hpx 24 24 ltac:(lia) ltac:(lia)).
Defined.




(** ** Every glyph's rectangle, from collection to the atlas *)

Lemma lookup_map {A B} (f : A -> B) (l : list A) i : map f l !! i = f <$> l !! i.
Proof. exact (list_lookup_fmap f l i). Qed.

(** Through collection, packing and compositing, a glyph with an area
    ends up with a rectangle of exactly its bitmap's width and height,
    placed inside the atlas with a margin of at least one pixel on every
    side. *)
Theorem glyph_rectangle_inside_atlas
    pack face cpRanges fuel mono col packed atlasW atlasH final bmp e :
  Stb.packer_ok pack ->
  face_typed face ->
  Collector.collect face cpRanges = Done col ->
  Packer.pack_atlas pack fuel (Collector.totalW col) (Collector.totalH col)
    (Collector.rects col) = Done (packed, (atlasW, atlasH)) ->
  Compositor.composite face mono (Collector.glyphs col) packed atlasW atlasH
    = Done (final, bmp) ->
  In e (Collector.glyphs col) ->
  Collector.has_area (snd e) = true ->
  exists r,
    final !! Z.to_nat (rectIndex (snd e)) = Some r /\
    Stb.w r = width (snd e) /\ Stb.h r = height (snd e) /\
    1 <= Stb.x r /\ 1 <= Stb.y r /\
    Stb.x r + Stb.w r + 1 <= atlasW /\ Stb.y r + Stb.h r + 1 <= atlasH.
Proof.
  intros Hpack Ht Hcol Hp Hcomp He Ha.
  pose proof (collect_collected _ _ _ Hcol) as Hc.
  set (seen := first_seen _) in Hc.
  assert (Hsmall : Z.of_nat (length seen) <= 2 ^ 32).
  { apply seen_count_bounded; [apply (col_nodup _ _ _ Hc)|].
    intros k Hk. eapply seen_typed; eassumption. }
  unfold Packer.pack_atlas in Hp.
  apply bind_Done_inv in Hp as (packed' & Hloop & Hbox).
  injection Hbox as -> Hbox.
  apply (pack_loop_Done _ Hpack) in Hloop as (Hdims & cw & ch & Hin).
  assert (Hlen : length packed = length (Collector.rects col)).
  { rewrite <- (length_map Stb.dims packed), Hdims, length_map. reflexivity. }
  assert (Hfinal : final = map Compositor.remove_padding packed).
  { pose proof (proj2 (composite_Done _ _ _ _ _ _ _ Hcomp)) as Hfold.
    eapply composite_strips_padding; eassumption. }
  pose proof (collected_rect_of_glyph _ _ _ _ Hc He) as Hrect. rewrite Ha in Hrect.
  destruct Hrect as [Hri Hlk]. set (i := index_of (fst e) (packed_order face seen)) in *.
  destruct (collected_entry _ _ _ _ Hc He) as [_ Hrec].
  assert (Ha' : Collector.has_area (record_of face (fst e)) = true).
  { rewrite Hrec, has_area_set_rectIndex in Ha. exact Ha. }
  destruct (padded_rect_dims face (fst e) Ht Ha') as [Hw3 Hh3].
  destruct (bitmap_typed _ Ht (fst e)) as [Hwt Hht].
  assert (Hpw : Stb.w (Collector.padded_rect (snd e)) = width (snd e) + 2 /\
                Stb.h (Collector.padded_rect (snd e)) = height (snd e) + 2).
  { rewrite Hrec. unfold Collector.padded_rect, record_of, Collector.RECT_PAD. simpl.
    rewrite !u32_small, !i32_small; lia. }
  rewrite Hrec, padded_rect_set_rectIndex in Hpw, Hlk.
  rewrite Hrec in Hri |- *. cbn [rectIndex width height Collector.set_rectIndex] in Hri, Hpw |- *.
  rewrite Hri, Nat2Z.id.
  (* the packed rectangle in that place *)
  assert (Hd : map Stb.dims packed !! i
               = Some (Stb.dims (Collector.padded_rect (record_of face (fst e))))).
  { rewrite Hdims, lookup_map, Hlk. reflexivity. }
  rewrite lookup_map in Hd. destruct (packed !! i) as [p|] eqn:Hpi; [|discriminate].
  simpl in Hd.
  assert (Hd' : Stb.dims p = Stb.dims (Collector.padded_rect (record_of face (fst e))))
    by congruence.
  clear Hd. rename Hd' into Hd.
  assert (Hpwd : Stb.w p = Stb.w (Collector.padded_rect (record_of face (fst e))))
    by exact (f_equal fst Hd).
  assert (Hphd : Stb.h p = Stb.h (Collector.padded_rect (record_of face (fst e))))
    by exact (f_equal snd Hd).
  rewrite Forall_forall in Hin.
  pose proof (Hin p (list_elem_of_lookup_2 _ _ _ Hpi)) as Hinp.
  destruct (remove_padding_exact cw ch p Hinp ltac:(lia) ltac:(lia)) as (Ex & Ey & Ew & Eh).
  pose proof (fold_extend_spec packed (0, 0)) as Hspec.
  unfold Packer.bounding_box in Hbox. rewrite Hbox in Hspec. simpl in Hspec.
  destruct Hspec as (_ & _ & Hall & _). rewrite Forall_forall in Hall.
  pose proof (Hall p (list_elem_of_lookup_2 _ _ _ Hpi)) as [Hxw Hyh].
  exists (Compositor.remove_padding p).
  rewrite Hfinal, lookup_map, Hpi. split; [reflexivity|].
  unfold Stb.inside in Hinp. rewrite Ex, Ey, Ew, Eh. lia.
Qed.

Lemma glyph_rectangle_inside_atlas_witness :
  let col := Sample.abc_collected in
  let final := fst Sample.abc_composited in
  let e := (7, {| rectIndex := 1; glyphIndex := 7; width := 12; height := 13;
                  leftBearing := 0; topBearing := 13; advance := 768 |}) in
  In e (Collector.glyphs col) /\ Collector.has_area (snd e) = true /\
  exists r, final !! 1%nat = Some r /\ Stb.w r = 12 /\ Stb.h r = 13 /\ 1 <= Stb.x r.
Proof.
  cbv zeta.
  set (e := (7, {| rectIndex := 1; glyphIndex := 7; width := 12; height := 13;
                   leftBearing := 0; topBearing := 13; advance := 768 |})).
  assert (Hcol : Collector.collect Sample.abc_face Sample.abc_ranges
                 = Done Sample.abc_collected) by (vm_compute; reflexivity).
  assert (Hp : Packer.pack_atlas Stb.row_packer 50 (Collector.totalW Sample.abc_collected)
                 (Collector.totalH Sample.abc_collected)
                 (Collector.rects Sample.abc_collected)
               = Done (fst Sample.abc_packed,
                       (fst (snd Sample.abc_packed), snd (snd Sample.abc_packed))))
    by (vm_compute; reflexivity).
  assert (Hcomp : Compositor.composite Sample.abc_face false
                    (Collector.glyphs Sample.abc_collected) (fst Sample.abc_packed)
                    (fst (snd Sample.abc_packed)) (snd (snd Sample.abc_packed))
                  = Done (fst Sample.abc_composited, snd Sample.abc_composited))
    by (vm_compute; reflexivity).
  assert (He : In e (Collector.glyphs Sample.abc_collected))
    by (vm_compute; right; right; left; reflexivity).
  assert (Ha : Collector.has_area (snd e) = true) by (vm_compute; reflexivity).
  split; [exact He|]. split; [exact Ha|].
  destruct (glyph_rectangle_inside_atlas _ _ _ _ _ _ _ _ _ _ _ e row_packer_ok
              abc_face_typed Hcol Hp Hcomp He Ha) as (r & Hr & Hw & Hh & Hx & _).
  exists r. split; [exact Hr|]. split; [exact Hw|]. split; [exact Hh | exact Hx].
Defined.

(** ** The document around the two arrays *)

Lemma until_rbracket_plain l rest :
  forallb plain l = true ->
  Reader.until_rbracket (l ++ Encoder.RBracket :: rest) = l.
Proof.
  induction l as [|t l IH]; simpl; [reflexivity|].
  intros H. apply andb_true_iff in H as [Ht Hl].
  destruct t; try discriminate; rewrite (IH Hl); reflexivity.
Qed.

Lemma array_of_plain key l rest :
  forallb plain l = true -> Reader.array_of key (l ++ rest) = Reader.array_of key rest.
Proof.
  induction l as [|t l IH]; simpl; [reflexivity|].
  intros H. apply andb_true_iff in H as [Ht Hl].
  destruct t; try discriminate; exact (IH Hl).
Qed.

Lemma forallb_plain_app a b :
  forallb plain (a ++ b) = forallb plain a && forallb plain b.
Proof. apply forallb_app. Qed.

Lemma encode_glyph_plain rects st e :
  forallb plain (Encoder.glyph_out st) = true ->
  forallb plain (Encoder.glyph_out (Encoder.encode_glyph rects st e)) = true.
Proof.
  intros H. unfold Encoder.encode_glyph.
  destruct (Encoder.rect_xy rects (snd e)) as [rx ry]. cbn [Encoder.glyph_out].
  rewrite forallb_plain_app. apply andb_true_iff. split; [|reflexivity].
  destruct (negb _); [|exact H].
  rewrite forallb_plain_app, H. reflexivity.
Qed.

Lemma encode_glyphs_plain glyphs rects :
  forallb plain (Encoder.glyph_out (Encoder.encode_glyphs glyphs rects)) = true.
Proof.
  unfold Encoder.encode_glyphs.
  assert (H : forallb plain (Encoder.glyph_out Encoder.glyph_initial) = true) by reflexivity.
  revert H. generalize Encoder.glyph_initial.
  induction glyphs as [|e glyphs IH]; intros st H; simpl; [exact H|].
  apply IH, encode_glyph_plain, H.
Qed.

Lemma encode_cps_plain face ids cps st st' :
  forallb plain (Encoder.cp_out st) = true ->
  foldM (Encoder.encode_cp face ids) cps st = Done st' ->
  forallb plain (Encoder.cp_out st') = true.
Proof.
  revert st. induction cps as [|cp cps IH]; intros st H Hf; simpl in Hf.
  - injection Hf as <-. exact H.
  - apply bind_Done_inv in Hf as (st1 & H1 & Hf). apply (IH st1); [|exact Hf].
    unfold Encoder.encode_cp in H1.
    destruct (_ =? 0); injection H1 as <-; cbn [Encoder.cp_out]; [exact H|].
    rewrite forallb_plain_app. apply andb_true_iff. split; [|reflexivity].
    destruct (negb _); [|exact H].
    rewrite forallb_plain_app, H. reflexivity.
Qed.

(** In the document written to [map.json], the array after ["glyphs"] is
    what the glyph loop wrote and the array after ["codepoints"] is what
    the codepoint loop wrote; read back with running sums, the glyphs
    array gives every glyph's width, height, bearings and position, and
    the codepoints array gives the requested codepoints that have a
    glyph. *)
Theorem document_arrays_read_back face glyphs rects cpRanges text :
  Encoder.encode face glyphs rects cpRanges = Done text ->
  exists cs,
    Encoder.encode_codepoints face
      (Encoder.glyphIdToJsonId (Encoder.encode_glyphs glyphs rects)) cpRanges = Done cs /\
    Reader.array_of "glyphs" text = Encoder.glyph_out (Encoder.encode_glyphs glyphs rects) /\
    Reader.array_of "codepoints" text = Encoder.cp_out cs /\
    Forall2 (entry_matches rects)
      (Reader.read_glyphs (Reader.array_of "glyphs" text)) (map snd glyphs) /\
    map fst (Reader.read_codepoints (Reader.array_of "codepoints" text))
    = List.filter (fun cp => negb (FT.FT_Get_Char_Index face cp =? 0)) (requested cpRanges).
Proof.
  unfold Encoder.encode. intros H.
  apply bind_Done_inv in H as (cs & Hcs & H).
  exists cs. split; [exact Hcs|].
  pose proof (encode_glyphs_plain glyphs rects) as Hg.
  unfold Encoder.encode_codepoints in Hcs. apply for_ranges_Done in Hcs as [_ Hcs].
  pose proof (encode_cps_plain _ _ _ Encoder.cp_initial _ eq_refl Hcs) as Hc.
  assert (HG : Reader.array_of "glyphs" text
               = Encoder.glyph_out (Encoder.encode_glyphs glyphs rects)).
  { injection H as <-. cbn. apply until_rbracket_plain, Hg. }
  assert (HC : Reader.array_of "codepoints" text = Encoder.cp_out cs).
  { injection H as <-. cbn. rewrite (array_of_plain _ _ _ Hg). cbn.
    apply until_rbracket_plain, Hc. }
  rewrite HG, HC. split; [reflexivity|]. split; [reflexivity|].
  split; [apply read_glyphs_matches|].
  apply (read_codepoints_column _ _ _ _ Hcs).
Qed.

Lemma document_arrays_read_back_witness :
  let face := Sample.abc_face in
  let glyphs := Collector.glyphs Sample.abc_collected in
  let rects := fst Sample.abc_composited in
  exists text,
    Encoder.encode face glyphs rects Sample.abc_ranges = Done text /\
    map fst (Reader.read_codepoints (Reader.array_of "codepoints" text)) = [65; 66; 67].
Proof.
  cbv zeta.
  destruct (Encoder.encode Sample.abc_face (Collector.glyphs Sample.abc_collected)
              (fst Sample.abc_composited) Sample.abc_ranges) as [text| | |] eqn:H;
    [|vm_compute in H; discriminate H..].
  exists text. split; [reflexivity|].
  destruct (document_arrays_read_back _ _ _ _ _ H) as (cs & _ & _ & _ & _ & Hcp).
  rewrite Hcp. vm_compute. reflexivity.
Defined.

(** ** The arrays on concrete runs *)

Lemma codepoints_array_well_formed_iff_witness :
  let ids := Encoder.glyphIdToJsonId
               (Encoder.encode_glyphs (Collector.glyphs Sample.abc_collected)
                  (fst Sample.abc_composited)) in
  foldM (Encoder.encode_cp Sample.abc_face ids) [64; 65; 66; 67] Encoder.cp_initial
  = Done Sample.abc_codepoints /\
  Reader.number_list (Encoder.cp_out Sample.abc_codepoints) = false.
Proof.
  cbv zeta.
  assert (H : foldM (Encoder.encode_cp Sample.abc_face
                       (Encoder.glyphIdToJsonId
                          (Encoder.encode_glyphs (Collector.glyphs Sample.abc_collected)
                             (fst Sample.abc_composited))))
                [64; 65; 66; 67] Encoder.cp_initial = Done Sample.abc_codepoints)
    by (vm_compute; reflexivity).
  split; [exact H|].
  destruct (Reader.number_list (Encoder.cp_out Sample.abc_codepoints)) eqn:E; [|reflexivity].
  apply (codepoints_array_well_formed_iff _ _ _ _ _ H) in E.
  exfalso. destruct E as [E|E]; [apply E; reflexivity | vm_compute in E; discriminate E].
Defined.

Lemma read_glyphs_advance_whole_pixels_witness :
  let glyphs := Collector.glyphs Sample.abc_collected in
  Forall (fun e => advance (snd e) mod 64 = 0) glyphs /\
  map Reader.e_advance
    (Reader.read_glyphs
       (Encoder.glyph_out (Encoder.encode_glyphs glyphs (fst Sample.abc_composited))))
  = [0; 13; 12].
Proof.
  cbv zeta.
  assert (H : Forall (fun e => advance (snd e) mod 64 = 0)
                (Collector.glyphs Sample.abc_collected))
    by (vm_compute; repeat constructor).
  split; [exact H|].
  rewrite (read_glyphs_advance_whole_pixels _ (fst Sample.abc_composited) H).
  vm_compute. reflexivity.
Defined.

(** ** The atlas image *)

Lemma composite_as_jobs face mono atlasPitch glyphs rects bmp final bmp' :
  foldM (Compositor.composite_glyph face mono atlasPitch) glyphs (rects, bmp)
  = Done (final, bmp') ->
  NoDup (omap target glyphs) ->
  foldM (run_job atlasPitch) (blit_jobs face mono final glyphs) bmp = Done bmp'.
Proof.
  revert rects bmp. induction glyphs as [|e glyphs IH]; intros rects bmp H Hnd; simpl in H.
  - injection H as <- <-. reflexivity.
  - apply bind_Done_inv in H as ([rects1 bmp1] & H1 & H2).
    apply composite_glyph_Done in H1.
    unfold blit_jobs. cbn [omap list_omap]. unfold blit_job at 1.
    cbn [omap list_omap] in Hnd.
    destruct (target e) as [i|].
    + destruct H1 as (slot & -> & _ & Hr & Hb).
      apply NoDup_cons in Hnd as [Hi Hnd].
      assert (Hfin : final !! i = rects1 !! i).
      { rewrite (composite_rects _ _ _ _ _ _ _ _ H2), alter_each_lookup by exact Hnd.
        rewrite bool_decide_eq_false_2 by exact Hi. reflexivity. }
      rewrite Hfin. cbn [foldM]. rewrite Hb. cbn [bind]. apply (IH _ _ H2 Hnd).
    + destruct H1 as [-> ->]. apply (IH _ _ H2 Hnd).
Qed.

Lemma jobs_outside atlasW atlasH js b out X Y :
  foldM (run_job atlasW) js b = Done out ->
  Forall (within atlasW atlasH) js ->
  atlasW < 2 ^ 32 -> atlasH < 2 ^ 32 ->
  0 <= X < atlasW -> 0 <= Y ->
  Forall (fun j => ~ covers j X Y) js ->
  out !! atlas_index atlasW X Y = b !! atlas_index atlasW X Y.
Proof.
  intros H Hw HW HH HX HY. revert b H.
  induction Hw as [|j js Hj _ IH]; intros b H Hout; simpl in H.
  - injection H as <-. reflexivity.
  - apply bind_Done_inv in H as (b1 & H1 & H).
    pose proof (Forall_inv Hout) as Hoj. pose proof (Forall_inv_tail Hout) as Hout'.
    rewrite (IH _ H Hout').
    destruct Hj as (Hx & Hy & Hxw & Hyh). unfold run_job in H1.
    refine (proj2 (proj2 (blit_spec _ _ _ _ _ _ _ H1 Hx Hy Hxw HW _)) X Y HX HY _).
    + lia.
    + unfold covers in Hoj. lia.
Qed.

Lemma jobs_inside atlasW atlasH js b out :
  foldM (run_job atlasW) js b = Done out ->
  Forall (within atlasW atlasH) js ->
  ForallOrdPairs apart js ->
  atlasW < 2 ^ 32 -> atlasH < 2 ^ 32 ->
  forall j, In j js ->
  forall x y, 0 <= x < FT.width (FT.bitmap (fst j)) -> 0 <= y < FT.rows (FT.bitmap (fst j)) ->
    out !! atlas_index atlasW (x + Stb.x (snd j)) (y + Stb.y (snd j))
    = Some (slot_pixel (fst j) x y).
Proof.
  intros H Hw Hap HW HH. revert b H Hw.
  induction Hap as [|j0 js Hj0 Hap IH]; intros b H Hw j Hin x y Hx Hy; [destruct Hin|].
  pose proof (Forall_inv Hw) as Hw0. pose proof (Forall_inv_tail Hw) as Hw'.
  simpl in H. apply bind_Done_inv in H as (b1 & H1 & H).
  destruct Hin as [<-|Hin].
  - destruct Hw0 as (Hx0 & Hy0 & Hxw & Hyh).
    rewrite (jobs_outside atlasW atlasH js b1 out _ _ H Hw' HW HH); [|lia|lia|].
    + unfold run_job in H1.
      refine (proj1 (proj2 (blit_spec _ _ _ _ _ _ _ H1 Hx0 Hy0 Hxw HW _)) x y Hx Hy). lia.
    + rewrite Forall_forall in Hj0 |- *. intros j' Hj'. specialize (Hj0 j' Hj').
      unfold apart in Hj0. unfold covers. lia.
  - apply (IH _ H Hw' j Hin x y Hx Hy).
Qed.

Lemma disjoint_sym a b : disjoint a b -> disjoint b a.
Proof. unfold disjoint. lia. Qed.

Lemma lookup_disjoint l i j a b :
  ForallOrdPairs disjoint l -> l !! i = Some a -> l !! j = Some b -> i <> j -> disjoint a b.
Proof.
  intros H. revert i j. induction H as [|r l Hr _ IH]; intros i j Hi Hj Hne.
  - destruct i; discriminate.
  - rewrite Forall_forall in Hr. destruct i as [|i], j as [|j]; simpl in Hi, Hj.
    + congruence.
    + injection Hi as <-. apply Hr. eapply list_elem_of_lookup_2, Hj.
    + injection Hj as <-. apply disjoint_sym, Hr. eapply list_elem_of_lookup_2, Hi.
    + apply (IH i j Hi Hj). congruence.
Qed.

Lemma omap_pairs_apart {A B} (R : B -> B -> Prop) (f : A -> option B) (t : A -> option nat)
    (l : list A) :
  NoDup (omap t l) ->
  (forall a ja, f a = Some ja -> exists i, t a = Some i) ->
  (forall a b ja jb ia ib, In a l -> In b l -> f a = Some ja -> f b = Some jb ->
     t a = Some ia -> t b = Some ib -> ia <> ib -> R ja jb) ->
  ForallOrdPairs R (omap f l).
Proof.
  intros Hnd Hft. induction l as [|a l IH]; intros HR; cbn [omap list_omap] in *.
  - constructor.
  - assert (Hnd' : NoDup (omap t l)).
    { destruct (t a); [apply NoDup_cons in Hnd as [_ Hnd]|]; exact Hnd. }
    specialize (IH Hnd' (fun a b ja jb ia ib Ha Hb =>
                           HR a b ja jb ia ib (or_intror Ha) (or_intror Hb))).
    destruct (f a) as [ja|] eqn:Efa; [|exact IH].
    constructor; [|exact IH].
    destruct (Hft a ja Efa) as [ia Eta]. rewrite Eta in Hnd.
    apply NoDup_cons in Hnd as [Hia _].
    apply Forall_forall. intros jb Hjb.
    apply list_elem_of_omap in Hjb as (b & Hb & Efb).
    destruct (Hft b jb Efb) as [ib Etb].
    apply (HR a b ja jb ia ib); auto using in_eq.
    + right. apply list_elem_of_In, Hb.
    + intros ->. apply Hia, list_elem_of_omap. exists b. auto.
Qed.

(** What packing yields: an atlas whose sides are [int]s and not
    negative, around rectangles of the sizes asked for. *)
Lemma pack_atlas_Done pack fuel totalW totalH rects packed atlasW atlasH :
  Stb.packer_ok pack ->
  Packer.pack_atlas pack fuel totalW totalH rects = Done (packed, (atlasW, atlasH)) ->
  map Stb.dims packed = map Stb.dims rects /\
  (exists cw ch, Forall (Stb.inside cw ch) packed) /\
  Forall (fun r => Stb.x r + Stb.w r <= atlasW /\ Stb.y r + Stb.h r <= atlasH) packed /\
  0 <= atlasW < 2 ^ 31 /\ 0 <= atlasH < 2 ^ 31.
Proof.
  intros Hpack Hp. unfold Packer.pack_atlas in Hp.
  apply bind_Done_inv in Hp as (packed' & Hloop & Hbox).
  injection Hbox as -> Hbox.
  apply (pack_loop_Done _ Hpack) in Hloop as (Hdims & cw & ch & Hin).
  pose proof (fold_extend_spec packed (0, 0)) as Hspec.
  unfold Packer.bounding_box in Hbox. rewrite Hbox in Hspec. simpl in Hspec.
  destruct Hspec as (HW0 & HH0 & Hall & HW & HH).
  split; [exact Hdims|]. split; [eauto|]. split; [exact Hall|].
  rewrite Forall_forall in Hin. split.
  - destruct HW as [->|HW]; [lia|]. apply Exists_exists in HW as (r & Hr & ->).
    specialize (Hin r Hr). unfold Stb.inside in Hin. lia.
  - destruct HH as [->|HH]; [lia|]. apply Exists_exists in HH as (r & Hr & ->).
    specialize (Hin r Hr). unfold Stb.inside in Hin. lia.
Qed.

(** The rectangle of a glyph with an area, before and after the padding
    is taken off. *)
Lemma placed_rectangle
    pack face cpRanges fuel mono col packed atlasW atlasH final bmp e :
  Stb.packer_ok pack ->
  face_typed face ->
  Collector.collect face cpRanges = Done col ->
  Packer.pack_atlas pack fuel (Collector.totalW col) (Collector.totalH col)
    (Collector.rects col) = Done (packed, (atlasW, atlasH)) ->
  Compositor.composite face mono (Collector.glyphs col) packed atlasW atlasH
    = Done (final, bmp) ->
  In e (Collector.glyphs col) ->
  Collector.has_area (snd e) = true ->
  exists p,
    target e = Some (Z.to_nat (rectIndex (snd e))) /\
    packed !! Z.to_nat (rectIndex (snd e)) = Some p /\
    final !! Z.to_nat (rectIndex (snd e)) = Some (Compositor.remove_padding p) /\
    Stb.x (Compositor.remove_padding p) = Stb.x p + 1 /\
    Stb.y (Compositor.remove_padding p) = Stb.y p + 1 /\
    Stb.w (Compositor.remove_padding p) = width (snd e) /\
    Stb.h (Compositor.remove_padding p) = height (snd e) /\
    Stb.w p = width (snd e) + 2 /\ Stb.h p = height (snd e) + 2 /\
    0 <= Stb.x p /\ 0 <= Stb.y p /\
    Stb.x p + Stb.w p <= atlasW /\ Stb.y p + Stb.h p <= atlasH.
Proof.
  intros Hpack Ht Hcol Hp Hcomp He Ha.
  pose proof (collect_collected _ _ _ Hcol) as Hc.
  set (seen := first_seen _) in Hc.
  assert (Hsmall : Z.of_nat (length seen) <= 2 ^ 32).
  { apply seen_count_bounded; [apply (col_nodup _ _ _ Hc)|].
    intros k Hk. eapply seen_typed; eassumption. }
  destruct (pack_atlas_Done _ _ _ _ _ _ _ _ Hpack Hp)
    as (Hdims & (cw & ch & Hin) & Hall & _ & _).
  assert (Hlen : length packed = length (Collector.rects col)).
  { rewrite <- (length_map Stb.dims packed), Hdims, length_map. reflexivity. }
  assert (Hfinal : final = map Compositor.remove_padding packed).
  { pose proof (proj2 (composite_Done _ _ _ _ _ _ _ Hcomp)) as Hfold.
    eapply composite_strips_padding; eassumption. }
  pose proof (target_collected face seen col Hc Hsmall e He) as Htar. rewrite Ha in Htar.
  pose proof (collected_rect_of_glyph _ _ _ _ Hc He) as Hrect. rewrite Ha in Hrect.
  destruct Hrect as [Hri Hlk]. set (i := index_of (fst e) (packed_order face seen)) in *.
  assert (Hi : Z.to_nat (rectIndex (snd e)) = i) by (rewrite Hri; apply Nat2Z.id).
  rewrite Hi.
  destruct (collected_entry _ _ _ _ Hc He) as [_ Hrec].
  assert (Ha' : Collector.has_area (record_of face (fst e)) = true).
  { rewrite Hrec, has_area_set_rectIndex in Ha. exact Ha. }
  destruct (padded_rect_dims face (fst e) Ht Ha') as [Hw3 Hh3].
  destruct (bitmap_typed _ Ht (fst e)) as [Hwt Hht].
  assert (Epad : Collector.padded_rect (snd e)
                 = Collector.padded_rect (record_of face (fst e))).
  { rewrite Hrec. apply padded_rect_set_rectIndex. }
  assert (Hpw : Stb.w (Collector.padded_rect (snd e)) = width (snd e) + 2 /\
                Stb.h (Collector.padded_rect (snd e)) = height (snd e) + 2).
  { rewrite Hrec. unfold Collector.padded_rect, record_of, Collector.RECT_PAD. simpl.
    rewrite !u32_small, !i32_small; lia. }
  assert (Hd : map Stb.dims packed !! i = Some (Stb.dims (Collector.padded_rect (snd e)))).
  { rewrite Hdims, lookup_map, Hlk. reflexivity. }
  rewrite lookup_map in Hd. destruct (packed !! i) as [p|] eqn:Hpi; [|discriminate].
  simpl in Hd.
  assert (Hd' : Stb.dims p = Stb.dims (Collector.padded_rect (snd e))) by congruence.
  assert (Hpwd : Stb.w p = Stb.w (Collector.padded_rect (snd e))) by exact (f_equal fst Hd').
  assert (Hphd : Stb.h p = Stb.h (Collector.padded_rect (snd e))) by exact (f_equal snd Hd').
  rewrite <- Epad in Hw3, Hh3.
  rewrite Forall_forall in Hin.
  pose proof (Hin p (list_elem_of_lookup_2 _ _ _ Hpi)) as Hinp.
  destruct (remove_padding_exact cw ch p Hinp ltac:(lia) ltac:(lia)) as (Ex & Ey & Ew & Eh).
  rewrite Forall_forall in Hall.
  pose proof (Hall p (list_elem_of_lookup_2 _ _ _ Hpi)) as [Hxw Hyh].
  exists p. split; [exact Htar|]. split; [reflexivity|].
  split; [rewrite Hfinal, lookup_map, Hpi; reflexivity|].
  unfold Stb.inside in Hinp. lia.
Qed.

(** The atlas image of a run, pixel by pixel.  When the packer places the
    rectangles without overlap and the slot that is copied for a glyph
    with a rectangle is not larger than the bitmap the glyph was measured
    with, a run that gets through collection, packing and compositing
    leaves each copied bitmap in the atlas with its top left corner at the
    corner of the glyph's final rectangle, and 0 in every pixel outside
    all final rectangles. *)
Theorem atlas_shows_every_glyph
    pack face cpRanges fuel mono col packed atlasW atlasH final bmp :
  Stb.packer_ok pack ->
  face_typed face ->
  Collector.collect face cpRanges = Done col ->
  Packer.pack_atlas pack fuel (Collector.totalW col) (Collector.totalH col)
    (Collector.rects col) = Done (packed, (atlasW, atlasH)) ->
  Compositor.composite face mono (Collector.glyphs col) packed atlasW atlasH
    = Done (final, bmp) ->
  ForallOrdPairs disjoint packed ->
  (forall e slot, In e (Collector.glyphs col) ->
     Collector.has_area (snd e) = true ->
     rendered_slot face mono (glyphIndex (snd e)) = Done slot ->
     FT.width (FT.bitmap slot) <= width (snd e) /\
     FT.rows (FT.bitmap slot) <= height (snd e)) ->
  (forall e slot r, In e (Collector.glyphs col) ->
     Collector.has_area (snd e) = true ->
     rendered_slot face mono (glyphIndex (snd e)) = Done slot ->
     final !! Z.to_nat (rectIndex (snd e)) = Some r ->
     forall x y, 0 <= x < FT.width (FT.bitmap slot) -> 0 <= y < FT.rows (FT.bitmap slot) ->
       bmp !! atlas_index atlasW (x + Stb.x r) (y + Stb.y r) = Some (slot_pixel slot x y)) /\
  (forall X Y, 0 <= X < atlasW -> 0 <= Y < atlasH ->
     Forall (fun r => ~ in_rect r X Y) final ->
     bmp !! atlas_index atlasW X Y = Some 0).
Proof.
  intros Hpack Ht Hcol Hp Hcomp Hdis Hren.
  pose proof (collect_collected _ _ _ Hcol) as Hc.
  set (seen := first_seen _) in Hc.
  assert (Hsmall : Z.of_nat (length seen) <= 2 ^ 32).
  { apply seen_count_bounded; [apply (col_nodup _ _ _ Hc)|].
    intros k Hk. eapply seen_typed; eassumption. }
  pose proof (targets_NoDup face seen col Hc Hsmall) as Hnd.
  destruct (pack_atlas_Done _ _ _ _ _ _ _ _ Hpack Hp) as (_ & _ & _ & HW & HH).
  pose proof (fun e => placed_rectangle _ _ _ _ _ _ _ _ _ _ _ e Hpack Ht Hcol Hp Hcomp)
    as Hpl.
  destruct (composite_Done _ _ _ _ _ _ _ Hcomp) as [Hfit Hfold].
  apply fits_int_iff in Hfit.
  assert (EW : Cxx.u64 atlasW = atlasW) by (unfold Cxx.u64; apply Z.mod_small; lia).
  assert (EWH : Cxx.u64 (atlasW * atlasH) = atlasW * atlasH)
    by (unfold Cxx.u64; apply Z.mod_small; nia).
  rewrite EW, EWH in Hfold.
  apply composite_as_jobs in Hfold; [|exact Hnd].
  set (jobs := blit_jobs face mono final (Collector.glyphs col)) in *.
  set (bmp0 := replicate (Z.to_nat (atlasW * atlasH)) 0) in *.
  (* what is copied for a glyph, and where *)
  assert (Hjob : forall e j, In e (Collector.glyphs col) ->
            blit_job face mono final e = Some j ->
            exists p, target e = Some (Z.to_nat (rectIndex (snd e))) /\
              packed !! Z.to_nat (rectIndex (snd e)) = Some p /\
              In (snd j) final /\
              Stb.x (snd j) = Stb.x p + 1 /\ Stb.y (snd j) = Stb.y p + 1 /\
              FT.width (FT.bitmap (fst j)) <= Stb.w (snd j) /\
              FT.rows (FT.bitmap (fst j)) <= Stb.h (snd j) /\
              Stb.w (snd j) = Stb.w p - 2 /\ Stb.h (snd j) = Stb.h p - 2 /\
              0 <= Stb.x p /\ 0 <= Stb.y p /\
              Stb.x p + Stb.w p <= atlasW /\ Stb.y p + Stb.h p <= atlasH).
  { intros e j He Hj. unfold blit_job in Hj.
    pose proof (target_collected face seen col Hc Hsmall e He) as Htar.
    destruct (Collector.has_area (snd e)) eqn:Ha;
      [|rewrite Htar in Hj; discriminate].
    destruct (Hpl e He Ha) as (p & Et & Hpk & Hfin & Ex & Ey & Ew & Eh & Epw & Eph & Hgeom).
    rewrite Et in Hj.
    destruct (rendered_slot face mono (glyphIndex (snd e))) as [slot| | |] eqn:Hs;
      try discriminate.
    rewrite Hfin in Hj. injection Hj as <-. cbn [fst snd default].
    destruct (Hren e slot He Ha Hs) as [Hrw Hrh].
    exists p. split; [exact Et|]. split; [exact Hpk|].
    split; [apply list_elem_of_In; eapply list_elem_of_lookup_2, Hfin|]. lia. }
  assert (Hin_jobs : forall j, In j jobs ->
            exists e, In e (Collector.glyphs col) /\ blit_job face mono final e = Some j).
  { intros j Hj. apply list_elem_of_In, list_elem_of_omap in Hj as (e & He & Hj).
    exists e. split; [apply list_elem_of_In, He | exact Hj]. }
  assert (Hw : Forall (within atlasW atlasH) jobs).
  { apply Forall_forall. intros j Hj. apply list_elem_of_In, Hin_jobs in Hj as (e & He & Hj).
    destruct (Hjob e j He Hj) as (p & _ & _ & _ & Hgeom). unfold within. lia. }
  assert (Hap : ForallOrdPairs apart jobs).
  { apply (omap_pairs_apart apart (blit_job face mono final) target); [exact Hnd| |].
    - intros a ja Hja. unfold blit_job in Hja. destruct (target a); [eauto | discriminate].
    - intros a b ja jb ia ib Ha Hb Hja Hjb Hta Htb Hne.
      destruct (Hjob a ja Ha Hja) as (pa & Eta & Hpa & _ & Hga).
      destruct (Hjob b jb Hb Hjb) as (pb & Etb & Hpb & _ & Hgb).
      rewrite Hta in Eta. rewrite Htb in Etb.
      injection Eta as Eta. injection Etb as Etb. rewrite <- Eta in Hpa. rewrite <- Etb in Hpb.
      pose proof (lookup_disjoint _ _ _ _ _ Hdis Hpa Hpb Hne) as Hd.
      unfold disjoint in Hd. unfold apart. lia. }
  split.
  - intros e slot r He Ha Hs Hr x y Hx Hy.
    assert (Hj : blit_job face mono final e = Some (slot, r)).
    { destruct (Hpl e He Ha) as (p & Et & _). unfold blit_job. rewrite Et, Hs, Hr.
      reflexivity. }
    assert (Hin : In (slot, r) jobs).
    { apply list_elem_of_In, list_elem_of_omap. exists e.
      split; [apply list_elem_of_In, He | exact Hj]. }
    assert (HW32 : atlasW < 2 ^ 32) by lia. assert (HH32 : atlasH < 2 ^ 32) by lia.
    apply (jobs_inside atlasW atlasH jobs bmp0 bmp Hfold Hw Hap HW32 HH32
             (slot, r) Hin x y Hx Hy).
  - intros X Y HX HY Hout.
    rewrite (jobs_outside atlasW atlasH jobs bmp0 bmp X Y Hfold Hw); [|lia..|].
    + apply lookup_replicate_2. unfold atlas_index. nia.
    + apply Forall_forall. intros j Hj.
      apply list_elem_of_In, Hin_jobs in Hj as (e & He & Hj).
      destruct (Hjob e j He Hj) as (p & _ & _ & Hfin & Hgeom).
      rewrite Forall_forall in Hout. specialize (Hout (snd j) (proj2 (list_elem_of_In _ _) Hfin)).
      unfold in_rect in Hout. unfold covers. lia.
Qed.

Lemma atlas_shows_every_glyph_witness :
  let bmp := snd Sample.abc_composited in
  ForallOrdPairs disjoint (fst Sample.abc_packed) /\
  fst Sample.abc_composited !! 1%nat
  = Some {| Stb.id := 0; Stb.w := 12; Stb.h := 13; Stb.x := 16; Stb.y := 1;
            Stb.was_packed := 1 |} /\
  bmp !! atlas_index 29 16 1 = Some 255 /\
  bmp !! atlas_index 29 14 1 = Some 0 /\
  bmp !! atlas_index 29 0 0 = Some 0.
Proof.
  cbv zeta.
  set (e := (7, {| rectIndex := 1; glyphIndex := 7; width := 12; height := 13;
                   leftBearing := 0; topBearing := 13; advance := 768 |})).
  set (r := {| Stb.id := 0; Stb.w := 12; Stb.h := 13; Stb.x := 16; Stb.y := 1;
               Stb.was_packed := 1 |}).
  assert (Hcol : Collector.collect Sample.abc_face Sample.abc_ranges
                 = Done Sample.abc_collected) by (vm_compute; reflexivity).
  assert (Hp : Packer.pack_atlas Stb.row_packer 50 (Collector.totalW Sample.abc_collected)
                 (Collector.totalH Sample.abc_collected)
                 (Collector.rects Sample.abc_collected)
               = Done (fst Sample.abc_packed,
                       (fst (snd Sample.abc_packed), snd (snd Sample.abc_packed))))
    by (vm_compute; reflexivity).
  assert (Hcomp : Compositor.composite Sample.abc_face false
                    (Collector.glyphs Sample.abc_collected) (fst Sample.abc_packed)
                    (fst (snd Sample.abc_packed)) (snd (snd Sample.abc_packed))
                  = Done (fst Sample.abc_composited, snd Sample.abc_composited))
    by (vm_compute; reflexivity).
  assert (Hdis : ForallOrdPairs disjoint (fst Sample.abc_packed)).
  { unfold Sample.abc_packed. cbn [fst].
    apply FOP_cons; [constructor; [unfold disjoint; cbn; lia | constructor]|].
    apply FOP_cons; [constructor | apply FOP_nil]. }
  assert (Hren : forall e slot, In e (Collector.glyphs Sample.abc_collected) ->
            Collector.has_area (snd e) = true ->
            rendered_slot Sample.abc_face false (glyphIndex (snd e)) = Done slot ->
            FT.width (FT.bitmap slot) <= width (snd e) /\
            FT.rows (FT.bitmap slot) <= height (snd e)).
  { intros e0 slot He0 _ Hs. unfold Sample.abc_collected in He0.
    cbn [Collector.glyphs In] in He0.
    destruct He0 as [<-|[<-|[<-|[]]]]; vm_compute in Hs; injection Hs as <-;
      cbn [snd width height FT.bitmap FT.width FT.rows]; lia. }
  assert (He : In e (Collector.glyphs Sample.abc_collected))
    by (vm_compute; right; right; left; reflexivity).
  assert (Ha : Collector.has_area (snd e) = true) by (vm_compute; reflexivity).
  assert (Hs : rendered_slot Sample.abc_face false (glyphIndex (snd e))
               = Done (Sample.slot 12 13 768)) by (vm_compute; reflexivity).
  assert (Hr : fst Sample.abc_composited !! Z.to_nat (rectIndex (snd e)) = Some r)
    by (vm_compute; reflexivity).
  destruct (atlas_shows_every_glyph _ _ _ _ _ _ _ _ _ _ _ row_packer_ok
              abc_face_typed Hcol Hp Hcomp Hdis Hren) as [Hin Hout].
  split; [exact Hdis|]. split; [exact Hr|]. split; [|split].
  - assert (Hx : 0 <= 0 < FT.width (FT.bitmap (Sample.slot 12 13 768))) by (cbn; lia).
    assert (Hy : 0 <= 0 < FT.rows (FT.bitmap (Sample.slot 12 13 768))) by (cbn; lia).
    exact (Hin e (Sample.slot 12 13 768) r He Ha Hs Hr 0 0 Hx Hy).
  - apply (Hout 14 1); [vm_compute; split; [discriminate | reflexivity]..|].
    unfold Sample.abc_composited. cbn [fst].
    constructor; [unfold in_rect; cbn; lia|]. constructor; [unfold in_rect; cbn; lia|].
    constructor.
  - apply (Hout 0 0); [vm_compute; split; [discriminate | reflexivity]..|].
    unfold Sample.abc_composited. cbn [fst].
    constructor; [unfold in_rect; cbn; lia|]. constructor; [unfold in_rect; cbn; lia|].
    constructor.
Defined.
